(** * HybridRoute optimizer: the route planner of [route_planner_python.py]

    A shallow embedding of the planner core (distance bookkeeping, greedy
    construction, 2-opt, simulated annealing, exhaustive search and the
    orchestrator [plan_route]) together with the properties its
    specification states about it.

    Conventions of the embedding.
    - A float that holds a configuration value, a temperature, a time or
      a coordinate is a rational ([Q]).  A float that holds a distance or
      a sum of distances is a [dist]: a number, an infinity or [nan],
      compared as IEEE 754 compares them.
    - The haversine formula [DistanceCalculator.calculate] is built from
      [math.sin], [math.cos], [math.sqrt] and [math.atan2]; it is a
      parameter of the development ([calculate]).  What is kept of it is
      that a call either returns a float, which may be [nan], or raises
      [ValueError], the domain error of the [math] functions.  [math.exp]
      is a parameter too ([exp]).
    - The addition of two floats rounds, and the rounding decides which
      of two routes the code takes for the shorter; it is a parameter
      ([fadd]) of which nothing is assumed but what a statement lists.
    - Exceptions are explicit: a computation ends in [Ok], [Raise] or, for
      the loops that are bounded by a fuel argument here, [OutOfFuel].
    - The [random] module's process-wide generator is an explicit state
      ([rng]), the sequence of raw draws still to come.
    - Lists that the source updates in place are values here; a function
      that mutates its argument returns the updated list. *)

From Stdlib Require Import Ascii String.
From Stdlib Require Import List Arith ZArith QArith Lia Bool Permutation.
From Stdlib Require Import Sorted Factorial Qpower Qabs Lqa.
Import ListNotations.

Local Open Scope nat_scope.

(** ** Outcomes of Python computations *)

Inductive exn : Type :=
| ValueError
| IndexError.

Inductive outcome (A : Type) : Type :=
| Ok (a : A)
| Raise (e : exn)
| OutOfFuel.

Arguments Ok {A} a.
Arguments Raise {A} e.
Arguments OutOfFuel {A}.

Definition obind {A B} (m : outcome A) (k : A -> outcome B) : outcome B :=
  match m with
  | Ok a => k a
  | Raise e => Raise e
  | OutOfFuel => OutOfFuel
  end.

Notation "x <~ m ;; k" := (obind m (fun x => k))
  (at level 61, m at next level, right associativity).

(** [for x in xs: s = body(x, s)] *)
Fixpoint for_each {X S} (xs : list X) (body : X -> S -> outcome S) (s : S)
  : outcome S :=
  match xs with
  | [] => Ok s
  | x :: xs' => s' <~ body x s ;; for_each xs' body s'
  end.

(** [range(a, b)] on naturals. *)
Definition range (a b : nat) : list nat := seq a (b - a).

(** [l[i]]: [IndexError] out of range (indices are never negative here). *)
Definition get {A} (l : list A) (i : nat) : outcome A :=
  match nth_error l i with
  | Some x => Ok x
  | None => Raise IndexError
  end.

(** [l[i] = v] *)
Fixpoint set {A} (l : list A) (i : nat) (v : A) : outcome (list A) :=
  match l, i with
  | [], _ => Raise IndexError
  | _ :: l', 0 => Ok (v :: l')
  | x :: l', S i' => r <~ set l' i' v ;; Ok (x :: r)
  end.

(** ** The random module *)

Definition rng : Type := list N.

Definition draw (g : rng) : N * rng :=
  match g with
  | [] => (0%N, [])
  | x :: g' => (x, g')
  end.

(** Computations that read the generator. *)
Definition M (A : Type) : Type := rng -> outcome (A * rng).

Definition ret {A} (a : A) : M A := fun g => Ok (a, g).

Definition bind {A B} (m : M A) (k : A -> M B) : M B :=
  fun g =>
    match m g with
    | Ok (a, g') => k a g'
    | Raise e => Raise e
    | OutOfFuel => OutOfFuel
    end.

Definition lift {A} (m : outcome A) : M A :=
  fun g =>
    match m with
    | Ok a => Ok (a, g)
    | Raise e => Raise e
    | OutOfFuel => OutOfFuel
    end.

Notation "x <- m ;; k" := (bind m (fun x => k))
  (at level 61, m at next level, right associativity).

(** The same loop for a body that reads the generator. *)
Fixpoint for_eachM {X S} (xs : list X)
         (body : X -> S -> M S) (s : S) : M S :=
  fun g =>
  match xs with
  | [] => Ok (s, g)
  | x :: xs' =>
      match body x s g with
      | Ok (s', g') => for_eachM xs' body s' g'
      | Raise e => Raise e
      | OutOfFuel => OutOfFuel
      end
  end.

(** [random.randint(a, b)]: an integer of [[a, b]]; [ValueError] on an
    empty range. *)
Definition randint (a b : Z) : M Z :=
  fun g =>
    if (b <? a)%Z then Raise ValueError
    else let (x, g') := draw g in
         Ok ((a + Z.of_N x mod (b - a + 1))%Z, g').

(** [random.random()]: a multiple of 2^-53 in [[0, 1)]. *)
Definition random_random : M Q :=
  fun g =>
    let (x, g') := draw g in
    Ok (Qmake (Z.of_N x mod 2 ^ 53) (2 ^ 53), g').

(** [random.seed(a)]: with an argument the new state is a function of it
    ([seeded]); without one it comes from the operating system
    ([os_entropy]). Either way the previous state is discarded. *)
Definition random_seed (seeded : Z -> rng) (os_entropy : rng)
           (a : option Z) : M unit :=
  fun _ =>
    match a with
    | Some s => Ok (tt, seeded s)
    | None => Ok (tt, os_entropy)
    end.

(** ** Floats *)

Definition Qltb (x y : Q) : bool := negb (Qle_bool y x).

(** A float that holds a distance: a number, [float('inf')], its
    opposite, or [nan]. *)
Inductive dist : Type :=
| Fin (q : Q)
| Inf
| NInf
| NaN.

(** [a < b]: false as soon as one side is [nan]. *)
Definition lt_dist (a b : dist) : bool :=
  match a, b with
  | Fin x, Fin y => Qltb x y
  | Fin _, Inf => true
  | NInf, Fin _ => true
  | NInf, Inf => true
  | _, _ => false
  end.

(** [a - b] *)
Definition dist_sub (a b : dist) : dist :=
  match a, b with
  | Fin x, Fin y => Fin (x - y)
  | NaN, _ => NaN
  | _, NaN => NaN
  | Inf, Inf => NaN
  | NInf, NInf => NaN
  | Inf, _ => Inf
  | NInf, _ => NInf
  | Fin _, Inf => NInf
  | Fin _, NInf => Inf
  end.

(** ** Data model *)

Record Coordinate : Type := mkCoordinate {
  longitude : Q;
  latitude : Q
}.

(** [DistanceCalculator]; its field [use_cache] is [dc_use_cache] here,
    the name being taken by [AlgorithmConfig]. *)
Record DistanceCalculator : Type := mkDistanceCalculator {
  distance_cache : list ((nat * nat) * dist);
  dc_use_cache : bool
}.

Record AlgorithmConfig : Type := mkAlgorithmConfig {
  population_size : Z;
  cooling_rate : Q;
  initial_temperature : Q;
  max_iterations : Z;
  use_cache : bool;
  enable_local_search : bool
}.

Record RouteResult : Type := mkRouteResult {
  path : list Coordinate;
  total_distance : dist;
  execution_time_ms : Q;
  start_index : nat;
  end_index : nat
}.

Record RoutePlanner : Type := mkRoutePlanner {
  config : AlgorithmConfig;
  dist_calc : DistanceCalculator
}.

(** [AlgorithmConfig.__init__] *)
Definition AlgorithmConfig_init (cooling initial : Q) (max_iter : Z)
  : AlgorithmConfig :=
  {| population_size := 100%Z;
     cooling_rate := cooling;
     initial_temperature := initial;
     max_iterations := max_iter;
     use_cache := true;
     enable_local_search := true |}.

Definition AlgorithmConfig_default : AlgorithmConfig :=
  AlgorithmConfig_init (995 # 1000)%Q 10000%Q 100000%Z.

(** [DistanceCalculator.__init__] *)
Definition DistanceCalculator_init (enable_cache : bool)
  : DistanceCalculator :=
  {| distance_cache := []; dc_use_cache := enable_cache |}.

(** [RoutePlanner.__init__]: builds the planner and reseeds the
    process-wide generator with [random.seed()]. *)
Definition RoutePlanner_init (seeded : Z -> rng) (os_entropy : rng)
           (cfg : option AlgorithmConfig) : M RoutePlanner :=
  let c := match cfg with Some c => c | None => AlgorithmConfig_default end in
  _ <- random_seed seeded os_entropy None ;;
  ret {| config := c; dist_calc := DistanceCalculator_init (use_cache c) |}.

(** [random.uniform(a, b)]: [a + (b - a) * random()]. *)
Definition random_uniform (a b : Q) : M Q :=
  u <- random_random ;;
  ret (a + (b - a) * u)%Q.

(** [generate_random_coordinates]; [range(count)] is empty for a negative
    [count]. *)
Definition generate_random_coordinates (count : Z)
           (lon_min lon_max lat_min lat_max : Q) : M (list Coordinate) :=
  for_eachM (range 0 (Z.to_nat count))
    (fun _ coords =>
       lon <- random_uniform lon_min lon_max ;;
       lat <- random_uniform lat_min lat_max ;;
       ret (coords ++ [mkCoordinate lon lat]))
    [].

(** [itertools.permutations(range(n))]: every ordering, in lexicographic
    order of positions.  [picks l] lists each element of [l] with the
    others, in the order of [l]. *)
Fixpoint picks {A} (l : list A) : list (A * list A) :=
  match l with
  | [] => []
  | x :: xs => (x, xs) :: map (fun p => (fst p, x :: snd p)) (picks xs)
  end.

Fixpoint perms_of {A} (n : nat) (l : list A) : list (list A) :=
  match n with
  | 0 => [[]]
  | S n' => flat_map (fun p => map (cons (fst p)) (perms_of n' (snd p)))
                     (picks l)
  end.

Definition permutations {A} (l : list A) : list (list A) :=
  perms_of (length l) l.

(** ** [amap_api.py]: polylines *)

(** [s.split(sep)] for a one-character separator: the pieces between the
    occurrences of [sep], one more than there are occurrences. *)
Fixpoint split (sep : ascii) (s : string) : list string :=
  match s with
  | EmptyString => [EmptyString]
  | String c s' =>
      if Ascii.eqb c sep then EmptyString :: split sep s'
      else match split sep s' with
           | [] => [String c EmptyString]
           | piece :: pieces => String c piece :: pieces
           end
  end.

(** [lon, lat = map(float, point.split(','))].  [float] is Python's
    conversion of a string, [None] where it raises [ValueError]; unpacking
    any number of pieces other than two raises [ValueError] as well. *)
Definition parse_point (float : string -> option Q) (point : string)
  : outcome (Q * Q) :=
  match split ","%char point with
  | [a; b] =>
      match float a, float b with
      | Some lon, Some lat => Ok (lon, lat)
      | _, _ => Raise ValueError
      end
  | _ => Raise ValueError
  end.

(** The body of the loop of [parse_polyline]. *)
Definition parse_step (float : string -> option Q) (point : string)
           (coordinates : list (Q * Q)) : outcome (list (Q * Q)) :=
  match point with
  | EmptyString => Ok coordinates
  | _ => xy <~ parse_point float point ;; Ok (coordinates ++ [xy])
  end.

(** [AmapAPI.parse_polyline]: any exception of the loop is caught and the
    empty list returned. *)
Definition parse_polyline (float : string -> option Q)
           (polyline_str : string) : list (Q * Q) :=
  match polyline_str with
  | EmptyString => []
  | _ =>
      match for_each (split ";"%char polyline_str) (parse_step float) [] with
      | Ok coordinates => coordinates
      | _ => []
      end
  end.

(** ** [main.py]: requests, responses and dictionaries *)

Definition float_pair_eqb (a b : Q * Q) : bool :=
  Qeq_bool (fst a) (fst b) && Qeq_bool (snd a) (snd b).

(** [d[k] = v]: the value of an equal key is replaced, a new key goes to
    the end. *)
Fixpoint dict_set {V} (d : list ((Q * Q) * V)) (k : Q * Q) (v : V)
  : list ((Q * Q) * V) :=
  match d with
  | [] => [(k, v)]
  | (k', v') :: d' =>
      if float_pair_eqb k' k then (k', v) :: d'
      else (k', v') :: dict_set d' k v
  end.

(** [d.get(k)]; [k in d] is [dict_get d k <> None]. *)
Fixpoint dict_get {V} (d : list ((Q * Q) * V)) (k : Q * Q) : option V :=
  match d with
  | [] => None
  | (k', v') :: d' => if float_pair_eqb k' k then Some v' else dict_get d' k
  end.

(** [enumerate(l)], counting from [k]. *)
Fixpoint enumerate_from {A} (k : nat) (l : list A) : list (nat * A) :=
  match l with
  | [] => []
  | x :: l' => (k, x) :: enumerate_from (S k) l'
  end.

(** [RouteRequest] and [RouteResponse]; their fields carry the prefixes
    [rq_] and [rs_] here, most of the names being taken by the records of
    the planner. *)
Record RouteRequest : Type := mkRouteRequest {
  rq_optimization_target : string;
  rq_amap_key : option string;
  rq_origin : Q * Q;
  rq_destination : Q * Q;
  rq_waypoints : option (list (Q * Q));
  rq_cooling_rate : Q;
  rq_initial_temperature : Q;
  rq_max_iterations : Z;
  rq_use_cache : bool;
  rq_enable_local_search : bool
}.

Record RouteResponse : Type := mkRouteResponse {
  rs_optimization_target : string;
  rs_total_distance : dist;
  rs_total_time : option Q;
  rs_path : list (Q * Q);
  rs_execution_time_ms : Q;
  rs_start_point : Q * Q;
  rs_end_point : Q * Q;
  rs_waypoints_order : option (list nat)
}.

(** [convert_to_cpp_coords] (the later of its two definitions, with
    [cpp_planner_available] being [True]). *)
Definition convert_to_cpp_coords (py_coords : list (Q * Q))
  : list Coordinate :=
  map (fun c => mkCoordinate (fst c) (snd c)) py_coords.

(** [(p.longitude, p.latitude)] *)
Definition tuple_of (p : Coordinate) : Q * Q := (longitude p, latitude p).

(** [{(p.longitude, p.latitude): i for i, p in enumerate(waypoints)}] *)
Definition original_waypoints (waypoints : list Coordinate)
  : list ((Q * Q) * nat) :=
  fold_left (fun d ip => dict_set d (tuple_of (snd ip)) (fst ip))
            (enumerate_from 0 waypoints) [].

(** The loop over [result.path[1:-1]] that collects [waypoints_order]. *)
Definition collect_order (d : list ((Q * Q) * nat))
           (interior : list Coordinate) : list nat :=
  fold_left (fun waypoints_order p =>
               match dict_get d (tuple_of p) with
               | Some i => waypoints_order ++ [i]
               | None => waypoints_order
               end)
            interior [].

(** What the body of the endpoint raises: an exception of the planner or
    an [HTTPException]. *)
Inductive raised : Type :=
| PythonError (e : exn)
| HTTPException (status_code : Z).

Inductive reply (A : Type) : Type :=
| Returns (a : A)
| Raises (e : raised)
| Unfinished.

Arguments Returns {A} a.
Arguments Raises {A} e.
Arguments Unfinished {A}.

Definition reply_of {A} (m : outcome A) : reply A :=
  match m with
  | Ok a => Returns a
  | Raise e => Raises (PythonError e)
  | OutOfFuel => Unfinished
  end.

(** [not request.amap_key] *)
Definition no_key (k : option string) : bool :=
  match k with
  | None => true
  | Some EmptyString => true
  | Some _ => false
  end.

Definition is_driving (target : string) : bool :=
  String.eqb target "driving_time" || String.eqb target "driving_distance".

(** Split a conjunction into its parts, and nothing below them. *)
Ltac split_all := repeat match goal with |- _ /\ _ => split end.

Section Planner.

(** [DistanceCalculator.calculate] (haversine, metres): a call returns a
    float or raises [ValueError]. *)
Variable calculate : Coordinate -> Coordinate -> outcome dist.

(** [a + b] on floats, and [math.exp]. *)
Variable fadd : dist -> dist -> dist.
Variable exp : Q -> Q.

(** [DistanceCalculator.clear_distance_cache] *)
Definition clear_distance_cache (dc : DistanceCalculator)
  : DistanceCalculator :=
  {| distance_cache := []; dc_use_cache := dc_use_cache dc |}.

Definition key_eqb (k1 k2 : nat * nat) : bool :=
  (fst k1 =? fst k2) && (snd k1 =? snd k2).

Fixpoint cache_lookup (c : list ((nat * nat) * dist)) (k : nat * nat)
  : option dist :=
  match c with
  | [] => None
  | (k', v) :: c' => if key_eqb k k' then Some v else cache_lookup c' k
  end.

(** [DistanceCalculator.get_distance]: returns the distance and the
    calculator with its cache as the call leaves it. *)
Definition get_distance (dc : DistanceCalculator) (points : list Coordinate)
           (i j : nat) : outcome (dist * DistanceCalculator) :=
  if negb (dc_use_cache dc) then
    a <~ get points i ;; b <~ get points j ;;
    d <~ calculate a b ;;
    Ok (d, dc)
  else
    let key := (Nat.min i j, Nat.max i j) in
    match cache_lookup (distance_cache dc) key with
    | Some d => Ok (d, dc)
    | None =>
        a <~ get points i ;; b <~ get points j ;;
        d <~ calculate a b ;;
        Ok (d, {| distance_cache := (key, d) :: distance_cache dc;
                  dc_use_cache := dc_use_cache dc |})
    end.

(** [RoutePlanner.calculate_path_distance]: [total] starts at [0.0] and
    takes the legs one after the other, [total += calculate(...)]. *)
Fixpoint sum_legs (total : dist) (p : list Coordinate) : outcome dist :=
  match p with
  | a :: (b :: _) as tl =>
      d <~ calculate a b ;; sum_legs (fadd total d) tl
  | _ => Ok total
  end.

Definition calculate_path_distance (p : list Coordinate) : outcome dist :=
  if length p <? 2 then Ok (Fin 0) else sum_legs (Fin 0) p.

(** [RoutePlanner.extract_path] *)
Fixpoint extract_path (waypoints : list Coordinate) (indices : list nat)
  : outcome (list Coordinate) :=
  match indices with
  | [] => Ok []
  | idx :: rest =>
      c <~ get waypoints idx ;;
      cs <~ extract_path waypoints rest ;;
      Ok (c :: cs)
  end.

(** The recurring
    [calculate_path_distance(extract_path(waypoints, order))]. *)
Definition order_distance (waypoints : list Coordinate) (order : list nat)
  : outcome dist :=
  pts <~ extract_path waypoints order ;; calculate_path_distance pts.

(** [RoutePlanner.two_opt_swap]: [while i < j], swap and move inwards.
    The list is returned instead of being updated in place. *)
Fixpoint two_opt_swap_loop (fuel : nat) (p : list nat) (i j : nat)
  : outcome (list nat) :=
  if i <? j then
    match fuel with
    | 0 => OutOfFuel
    | S fuel' =>
        pj <~ get p j ;;
        pi <~ get p i ;;
        p1 <~ set p i pj ;;
        p2 <~ set p1 j pi ;;
        two_opt_swap_loop fuel' p2 (i + 1) (j - 1)
    end
  else Ok p.

Definition two_opt_swap (p : list nat) (i j : nat) : outcome (list nat) :=
  two_opt_swap_loop j p i j.

(** [RoutePlanner.construct_greedy_path].  [greedy_scan] is the body of
    the inner loop over [j], on the pair [(best_dist, next_point)];
    [greedy_step] is the body of the outer loop over [i]. *)
Record greedy_state : Type := mkGreedy {
  g_path : list nat;
  g_visited : list bool;
  g_current : nat
}.

Definition greedy_scan (waypoints : list Coordinate) (visited : list bool)
           (current j : nat) (s : dist * nat) : outcome (dist * nat) :=
  v <~ get visited j ;;
  if v then Ok s
  else
    a <~ get waypoints current ;;
    b <~ get waypoints j ;;
    d <~ calculate a b ;;
    if lt_dist d (fst s) then Ok (d, j) else Ok s.

Definition greedy_step (waypoints : list Coordinate) (n i : nat)
           (s : greedy_state) : outcome greedy_state :=
  bn <~ for_each (range 0 n)
                 (greedy_scan waypoints (g_visited s) (g_current s))
                 (Inf, g_current s) ;;
  let next_point := snd bn in
  if negb (next_point =? g_current s) then
    p <~ set (g_path s) i next_point ;;
    v <~ set (g_visited s) next_point true ;;
    Ok {| g_path := p; g_visited := v; g_current := next_point |}
  else Ok s.

Definition construct_greedy_path (waypoints : list Coordinate)
  : M (list nat) :=
  let n := length waypoints in
  let path0 := range 0 n in
  let visited0 := repeat false n in
  c <- randint 0 (Z.of_nat n - 1) ;;
  let current := Z.to_nat c in
  lift (p <~ set path0 0 current ;;
        v <~ set visited0 current true ;;
        s <~ for_each (range 1 n) (greedy_step waypoints n)
                      {| g_path := p; g_visited := v; g_current := current |} ;;
        Ok (g_path s)).

(** [RoutePlanner.two_opt_optimize].  [two_opt_try] is the body of the
    inner loop, [two_opt_sweep] one pass of the two [for] loops and
    [two_opt_loop] the [while improved] loop. *)
Record two_opt_state : Type := mkTwoOpt {
  t_path : list nat;
  t_best_distance : dist;
  t_improved : bool
}.

Definition two_opt_try (waypoints : list Coordinate) (i j : nat)
           (s : two_opt_state) : outcome two_opt_state :=
  temp_path <~ two_opt_swap (t_path s) i j ;;
  new_distance <~ order_distance waypoints temp_path ;;
  if lt_dist new_distance (t_best_distance s) then
    Ok {| t_path := temp_path; t_best_distance := new_distance;
          t_improved := true |}
  else Ok s.

Definition two_opt_sweep (waypoints : list Coordinate) (n : nat)
           (s : two_opt_state) : outcome two_opt_state :=
  for_each (range 1 (n - 1))
           (fun i => for_each (range (i + 1) n) (two_opt_try waypoints i))
           s.

Fixpoint two_opt_loop (fuel : nat) (waypoints : list Coordinate) (n : nat)
         (s : two_opt_state) : outcome two_opt_state :=
  if t_improved s then
    match fuel with
    | 0 => OutOfFuel
    | S fuel' =>
        s' <~ two_opt_sweep waypoints n
                {| t_path := t_path s; t_best_distance := t_best_distance s;
                   t_improved := false |} ;;
        two_opt_loop fuel' waypoints n s'
    end
  else Ok s.

Definition two_opt_optimize (fuel : nat) (self : RoutePlanner)
           (waypoints : list Coordinate) (p : list nat)
  : outcome (list nat) :=
  if negb (enable_local_search (config self)) then Ok p
  else
    best_distance <~ order_distance waypoints p ;;
    let n := length p in
    s <~ two_opt_loop fuel waypoints n
           {| t_path := p; t_best_distance := best_distance;
              t_improved := true |} ;;
    Ok (t_path s).

(** [RoutePlanner.simulated_annealing] *)
Record sa_state : Type := mkSA {
  current_path : list nat;
  current_dist : dist;
  best_path : list nat;
  best_dist : dist;
  temp : Q
}.

(** How one pass through the loop body ends: the [continue] statement,
    the end of the body, or [break]. *)
Inductive control : Type :=
| Continue
| Next
| Break.

(** [random.random() < math.exp(-delta / temp)] for a [delta] that is not
    below zero and a [temp] above 1e-9: for [inf] the exponential is
    [0.0] and for [nan] it is [nan], and no draw is below either. *)
Definition below_boltzmann (u : Q) (delta : dist) (t : Q) : bool :=
  match delta with
  | Fin q => Qltb u (exp (Qdiv (Qopp q) t))
  | _ => false
  end.

(** [delta < 0 or (temp > 1e-9 and random.random() < math.exp(-delta / temp))],
    with the short-circuit: the generator is read only when the first
    two tests leave the decision open. *)
Definition metropolis (delta : dist) (t : Q) : M bool :=
  if lt_dist delta (Fin 0) then ret true
  else if Qltb (1 # 1000000000) t then
    u <- random_random ;;
    ret (below_boltzmann u delta t)
  else ret false.

Definition sa_iteration (waypoints : list Coordinate) (n : nat)
           (cooling : Q) (s : sa_state) : M (sa_state * control) :=
  i <- randint 1 (Z.of_nat n - 1) ;;
  j <- randint 1 (Z.of_nat n - 1) ;;
  if (i =? j)%Z then ret (s, Continue)
  else
    let lo := if (j <? i)%Z then j else i in
    let hi := if (j <? i)%Z then i else j in
    let old_path := current_path s in
    moved <- lift (two_opt_swap (current_path s)
                                (Z.to_nat lo) (Z.to_nat hi)) ;;
    new_dist <- lift (order_distance waypoints moved) ;;
    let delta := dist_sub new_dist (current_dist s) in
    accept <- metropolis delta (temp s) ;;
    let s1 :=
      if accept then
        if lt_dist new_dist (best_dist s) then
          {| current_path := moved; current_dist := new_dist;
             best_path := moved; best_dist := new_dist; temp := temp s |}
        else
          {| current_path := moved; current_dist := new_dist;
             best_path := best_path s; best_dist := best_dist s;
             temp := temp s |}
      else
        {| current_path := old_path; current_dist := current_dist s;
           best_path := best_path s; best_dist := best_dist s;
           temp := temp s |} in
    let t := (temp s1 * cooling)%Q in
    let s2 := {| current_path := current_path s1;
                 current_dist := current_dist s1;
                 best_path := best_path s1; best_dist := best_dist s1;
                 temp := t |} in
    if Qltb t 1 then ret (s2, Break) else ret (s2, Next).

(** [for _ in range(k)] around [sa_iteration]. *)
Fixpoint sa_loop (k : nat) (waypoints : list Coordinate) (n : nat)
         (cooling : Q) (s : sa_state) : M sa_state :=
  match k with
  | 0 => ret s
  | S k' =>
      r <- sa_iteration waypoints n cooling s ;;
      match snd r with
      | Break => ret (fst r)
      | _ => sa_loop k' waypoints n cooling (fst r)
      end
  end.

Definition sa_init (self : RoutePlanner) (waypoints : list Coordinate)
  : M sa_state :=
  p <- construct_greedy_path waypoints ;;
  d <- lift (order_distance waypoints p) ;;
  ret {| current_path := p; current_dist := d;
         best_path := p; best_dist := d;
         temp := initial_temperature (config self) |}.

Definition sa_max_iter (self : RoutePlanner) (n : nat) : Z :=
  Z.min (max_iterations (config self)) (Z.of_nat n * Z.of_nat n * 50).

Definition simulated_annealing (self : RoutePlanner)
           (waypoints : list Coordinate) : M (list nat) :=
  let n := length waypoints in
  s0 <- sa_init self waypoints ;;
  s <- sa_loop (Z.to_nat (sa_max_iter self n)) waypoints n
               (cooling_rate (config self)) s0 ;;
  ret (best_path s).

(** [RoutePlanner.solve_exact_internal].  [exact_try] is the body of the
    loop over the permutations, on the pair [(best_dist, best_perm)]. *)
Definition exact_try (waypoints : list Coordinate) (perm_list : list nat)
           (s : dist * list nat) : outcome (dist * list nat) :=
  d <~ order_distance waypoints perm_list ;;
  if lt_dist d (fst s) then Ok (d, perm_list) else Ok s.

Definition solve_exact_internal (self : RoutePlanner)
           (waypoints : list Coordinate) : M (list nat) :=
  let n := length waypoints in
  if 12 <? n then simulated_annealing self waypoints
  else
    lift (let best_perm := range 0 n in
          best_d <~ order_distance waypoints best_perm ;;
          s <~ for_each (permutations (range 0 n)) (exact_try waypoints)
                        (best_d, best_perm) ;;
          Ok (snd s)).

(** [RoutePlanner.plan_route].  [plan_pair] is the body of the two loops
    over the start and end candidates.  The two readings of the clock are
    arguments. *)
Record plan_state : Type := mkPlan {
  best_full_path : list Coordinate;
  best_total_distance : dist;
  best_start_idx : nat;
  best_end_idx : nat
}.

Definition plan_order (fuel : nat) (self : RoutePlanner)
           (waypoints : list Coordinate) : M (list nat) :=
  if length waypoints <=? 12 then solve_exact_internal self waypoints
  else
    o <- simulated_annealing self waypoints ;;
    if enable_local_search (config self)
    then lift (two_opt_optimize fuel self waypoints o)
    else ret o.

Definition plan_pair (fuel : nat) (self : RoutePlanner)
           (starts waypoints ends : list Coordinate) (si ei : nat)
           (s : plan_state) : M plan_state :=
  internal_order <- plan_order fuel self waypoints ;;
  a <- lift (get starts si) ;;
  mid <- lift (extract_path waypoints internal_order) ;;
  b <- lift (get ends ei) ;;
  let full_path := a :: mid ++ [b] in
  total_dist <- lift (calculate_path_distance full_path) ;;
  if lt_dist total_dist (best_total_distance s) then
    ret {| best_full_path := full_path;
           best_total_distance := total_dist;
           best_start_idx := si; best_end_idx := ei |}
  else ret s.

Definition plan_init : plan_state :=
  {| best_full_path := []; best_total_distance := Inf;
     best_start_idx := 0; best_end_idx := 0 |}.

Definition plan_route (fuel : nat) (self : RoutePlanner)
           (start_time end_time : Q)
           (starts waypoints ends : list Coordinate) : M RouteResult :=
  s <- for_eachM (range 0 (length starts))
         (fun si =>
            for_eachM (range 0 (length ends))
                      (plan_pair fuel self starts waypoints ends si))
         plan_init ;;
  let exec_time := ((end_time - start_time) * 1000)%Q in
  ret {| path := best_full_path s;
         total_distance := best_total_distance s;
         execution_time_ms := exec_time;
         start_index := best_start_idx s;
         end_index := best_end_idx s |}.

(** [RoutePlanner.clear_distance_cache] *)
Definition RoutePlanner_clear_distance_cache (self : RoutePlanner)
  : RoutePlanner :=
  {| config := config self;
     dist_calc := clear_distance_cache (dist_calc self) |}.

(** ** The HTTP layer ([main.py]): the two functions *)

(** [get_straight_route_result].  [cpp_planner_available] is [True], so
    the status 501 is never raised.  The two readings of the clock that
    [plan_route] takes are arguments, as are the two sources of a new
    generator state for [RoutePlanner.__init__]. *)
Definition get_straight_route_result (fuel : nat)
           (seeded : Z -> rng) (os_entropy : rng) (start_time end_time : Q)
           (request : RouteRequest) : M RouteResponse :=
  let starts := [mkCoordinate (fst (rq_origin request))
                              (snd (rq_origin request))] in
  let ends := [mkCoordinate (fst (rq_destination request))
                            (snd (rq_destination request))] in
  let waypoints :=
    convert_to_cpp_coords
      (match rq_waypoints request with Some l => l | None => [] end) in
  let config0 :=
    AlgorithmConfig_init (rq_cooling_rate request)
                         (rq_initial_temperature request)
                         (rq_max_iterations request) in
  let config1 :=
    {| population_size := population_size config0;
       cooling_rate := cooling_rate config0;
       initial_temperature := initial_temperature config0;
       max_iterations := max_iterations config0;
       use_cache := rq_use_cache request;
       enable_local_search := rq_enable_local_search request |} in
  planner <- RoutePlanner_init seeded os_entropy (Some config1) ;;
  result <- plan_route fuel planner start_time end_time
                       starts waypoints ends ;;
  let planner' := RoutePlanner_clear_distance_cache planner in
  let waypoints_order :=
    match rq_waypoints request with
    | Some (_ :: _) =>
        collect_order (original_waypoints waypoints)
                      (removelast (tl (path result)))
    | _ => []
    end in
  ret {| rs_optimization_target := "straight_distance";
         rs_total_distance := total_distance result;
         rs_total_time := None;
         rs_path := map tuple_of (path result);
         rs_execution_time_ms := execution_time_ms result;
         rs_start_point := rq_origin request;
         rs_end_point := rq_destination request;
         rs_waypoints_order :=
           match waypoints_order with
           | [] => None
           | _ => Some waypoints_order
           end |}.

(** The endpoint [plan_route] of [main.py], [plan_route_endpoint] here.
    [get_driving_route_result] asks the map service and is left open.
    [HTTPException] is an [Exception], so the [except] clause catches
    the ones raised in the [try] block too. *)
Definition plan_route_endpoint (fuel : nat)
           (seeded : Z -> rng) (os_entropy : rng) (start_time end_time : Q)
           (get_driving_route_result
            : RouteRequest -> rng -> reply (RouteResponse * rng))
           (request : RouteRequest) (g : rng)
  : reply (RouteResponse * rng) :=
  let target := rq_optimization_target request in
  let attempt :=
    if is_driving target && no_key (rq_amap_key request)
    then Raises (HTTPException 400)
    else if String.eqb target "straight_distance"
    then reply_of (get_straight_route_result fuel seeded os_entropy
                     start_time end_time request g)
    else if is_driving target
    then get_driving_route_result request g
    else Raises (HTTPException 400) in
  match attempt with
  | Returns r => Returns r
  | Raises _ => Raises (HTTPException 500)
  | Unfinished => Unfinished
  end.

(** ** Vocabulary of the statements *)

(** The list with the segment of positions [i..j] reversed. *)
Definition reverse_segment (p : list nat) (i j : nat) : list nat :=
  firstn i p ++ rev (firstn (j + 1 - i) (skipn i p)) ++ skipn (j + 1) p.

(** An order is valid for [n] waypoints when it lists [0..n-1]. *)
Definition is_order (n : nat) (p : list nat) : Prop :=
  Permutation (seq 0 n) p.

(** Lexicographic comparison of index lists. *)
Fixpoint lex_lt (p q : list nat) : Prop :=
  match p, q with
  | [], [] => False
  | [], _ :: _ => True
  | _ :: _, [] => False
  | x :: p', y :: q' => x < y \/ (x = y /\ lex_lt p' q')
  end.

Definition lex_le (p q : list nat) : Prop := p = q \/ lex_lt p q.

Definition origin : Coordinate := mkCoordinate 0 0.

(** The points an order names, when every index is in range. *)
Definition points_of (waypoints : list Coordinate) (order : list nat)
  : list Coordinate :=
  map (fun i => nth i waypoints origin) order.

(** [calculate] returns a number on every pair of points of [pts], the
    number [metric a b]: there it neither raises [ValueError] nor returns
    [nan] or an infinity. *)
Definition measured (pts : list Coordinate)
           (metric : Coordinate -> Coordinate -> Q) : Prop :=
  forall a b, In a pts -> In b pts -> calculate a b = Ok (Fin (metric a b)).

(** [calculate] returns on every pair of points of [pts]: it raises no
    [ValueError] there, and the float it returns for [a] and [b] is
    [gauge a b], which may be [nan]. *)
Definition gauged (pts : list Coordinate)
           (gauge : Coordinate -> Coordinate -> dist) : Prop :=
  forall a b, In a pts -> In b pts -> calculate a b = Ok (gauge a b).

(** A distance that is a number for every pair of points, as floats. *)
Definition number (metric : Coordinate -> Coordinate -> Q)
  : Coordinate -> Coordinate -> dist :=
  fun a b => Fin (metric a b).

(** The length of a route in the words of the specification, its total
    path distance: the distances between consecutive points, added one
    after the other to [0.0]. *)
Fixpoint legs (gauge : Coordinate -> Coordinate -> dist)
         (pts : list Coordinate) : list dist :=
  match pts with
  | a :: (b :: _) as tl => gauge a b :: legs gauge tl
  | _ => []
  end.

Definition route_length (gauge : Coordinate -> Coordinate -> dist)
           (pts : list Coordinate) : dist :=
  fold_left fadd (legs gauge pts) (Fin 0).

(** [a == b] and [a <= b] on floats: false as soon as one side is
    [nan]. *)
Definition eq_dist (a b : dist) : Prop :=
  match a, b with
  | Fin x, Fin y => (x == y)%Q
  | Inf, Inf => True
  | NInf, NInf => True
  | _, _ => False
  end.

Definition le_dist (a b : dist) : Prop :=
  lt_dist a b = true \/ eq_dist a b.

(** [0.0 + x] is [x]. *)
Definition zero_neutral : Prop :=
  forall x, fadd (Fin 0) (Fin x) = Fin x.

(** The choice of the nearest-neighbour step: from [c], with the indices
    of [placed] already visited, [x] is unvisited, no unvisited index is
    nearer, and every unvisited index below [x] is strictly farther. *)
Definition greedy_choice (metric : Coordinate -> Coordinate -> Q)
           (waypoints : list Coordinate)
           (placed : list nat) (c x : nat) : Prop :=
  let d := fun j => metric (nth c waypoints origin)
                           (nth j waypoints origin) in
  x < length waypoints
  /\ ~ In x placed
  /\ forall j, j < length waypoints -> ~ In j placed ->
               (d x <= d j)%Q /\ (j < x -> (d x < d j)%Q).

(** Length of the open path that visits the waypoints in a given order. *)
Local Abbreviation tour gauge waypoints p :=
  (route_length gauge (points_of waypoints p)).

(** What the inner loop has established after the indices below [a]. *)
Definition scan_inv (metric : Coordinate -> Coordinate -> Q)
           (waypoints : list Coordinate) (visited : list bool)
           (current a : nat) (s : dist * nat) : Prop :=
  let dcur := fun j => metric (nth current waypoints origin)
                              (nth j waypoints origin) in
  (s = (Inf, current) /\ forall j, j < a -> nth j visited false = true)
  \/ (exists np,
         s = (Fin (dcur np), np) /\ np < a /\ nth np visited false = false
         /\ forall j, j < a -> nth j visited false = false ->
                      (dcur np <= dcur j)%Q
                      /\ (j < np -> (dcur np < dcur j)%Q)).

(** The state of the outer loop once the indices of [placed] have been
    appended to the tour. *)
Definition greedy_inv (metric : Coordinate -> Coordinate -> Q)
           (waypoints : list Coordinate) (placed : list nat)
           (s : greedy_state) : Prop :=
  let n := length waypoints in
  (exists rest, g_path s = placed ++ rest)
  /\ length (g_path s) = n
  /\ length (g_visited s) = n
  /\ placed <> []
  /\ g_current s = last placed 0
  /\ NoDup placed
  /\ Forall (fun i => i < n) placed
  /\ (forall j, j < n ->
                (nth j (g_visited s) false = true <-> In j placed))
  /\ (forall k, 1 <= k < length placed ->
                greedy_choice metric waypoints (firstn k placed)
                              (nth (k - 1) placed 0) (nth k placed 0)).

(** The candidate moves of one sweep, in the order of the two loops. *)
Definition sweep_moves (n : nat) : list (nat * nat) :=
  flat_map (fun i => map (pair i) (range (i + 1) n)) (range 1 (n - 1)).

(** The states the search goes through: the order is a rearrangement of
    the input and the tracked distance is its distance. *)
Definition two_opt_inv (gauge : Coordinate -> Coordinate -> dist)
           (waypoints : list Coordinate) (p0 : list nat)
           (s : two_opt_state) : Prop :=
  Permutation p0 (t_path s)
  /\ t_best_distance s = tour gauge waypoints (t_path s).

(** The measure of the [while] loop: how many rearrangements of the
    input are strictly shorter than the tracked distance. *)
Definition count_below (gauge : Coordinate -> Coordinate -> dist)
           (waypoints : list Coordinate) (p0 : list nat)
           (d : dist) : nat :=
  length (filter (fun q => lt_dist (tour gauge waypoints q) d)
                 (permutations p0)).

(** [a] is the float [b] or a smaller one. *)
Definition at_most (a b : dist) : Prop :=
  a = b \/ lt_dist a b = true.

(** The first element of least cost of [x0 :: rest], found by a scan
    that gives up its candidate only for a strictly cheaper element. *)
Definition first_min {X} (cost : X -> dist) (x0 : X) (rest : list X) : X :=
  fold_left (fun best x => if lt_dist (cost x) (cost best) then x else best)
            rest x0.

(** Both orders kept by the annealing loop list [0..n-1]. *)
Definition sa_inv (n : nat) (s : sa_state) : Prop :=
  is_order n (current_path s) /\ is_order n (best_path s).

(** A state of the orchestrator's loops that holds a complete route. *)
Definition plan_good (metric : Coordinate -> Coordinate -> Q)
           (starts waypoints ends : list Coordinate)
           (s : plan_state) : Prop :=
  best_start_idx s < length starts
  /\ best_end_idx s < length ends
  /\ exists order,
       is_order (length waypoints) order
       /\ best_full_path s
          = nth (best_start_idx s) starts origin
            :: points_of waypoints order
            ++ [nth (best_end_idx s) ends origin]
       /\ best_total_distance s
          = route_length (number metric) (best_full_path s).

(** The pairs of candidates in the order of the two loops. *)
Definition all_pairs (ns ne : nat) : list (nat * nat) :=
  flat_map (fun si => map (pair si) (range 0 ne)) (range 0 ns).

Definition pair_lt (p q : nat * nat) : Prop :=
  fst p < fst q \/ (fst p = fst q /\ snd p < snd q).

(** Distance from start [fst m] to end [snd m]. *)
Definition direct (metric : Coordinate -> Coordinate -> Q)
           (starts ends : list Coordinate) (m : nat * nat) : Q :=
  metric (nth (fst m) starts origin) (nth (snd m) ends origin).

Definition direct_state (metric : Coordinate -> Coordinate -> Q)
           (starts ends : list Coordinate) (m : nat * nat)
  : plan_state :=
  {| best_full_path := [nth (fst m) starts origin; nth (snd m) ends origin];
     best_total_distance := Fin (direct metric starts ends m);
     best_start_idx := fst m;
     best_end_idx := snd m |}.

(** [sa_run k m]: [k] passes through the loop body without [break], [m]
    of them with two distinct positions. *)
Inductive sa_run (waypoints : list Coordinate) (n : nat) (cooling : Q)
  : nat -> nat -> sa_state * rng -> sa_state * rng -> Prop :=
| sa_run_done : forall sg, sa_run waypoints n cooling 0 0 sg sg
| sa_run_noop : forall k m s g s1 g1 sg',
    sa_iteration waypoints n cooling s g = Ok ((s1, Continue), g1) ->
    sa_run waypoints n cooling k m (s1, g1) sg' ->
    sa_run waypoints n cooling (S k) m (s, g) sg'
| sa_run_move : forall k m s g s1 g1 sg',
    sa_iteration waypoints n cooling s g = Ok ((s1, Next), g1) ->
    sa_run waypoints n cooling k m (s1, g1) sg' ->
    sa_run waypoints n cooling (S k) (S m) (s, g) sg'.

(** An iteration that performs a move: the positions drawn, the order
    after the reversal and its distance, and the generator before the
    acceptance test. *)
Definition sa_move (waypoints : list Coordinate) (n : nat) (s : sa_state)
           (g : rng) (moved : list nat) (new_dist : dist) (g2 : rng) : Prop :=
  exists i j g1,
    randint 1 (Z.of_nat n - 1) g = Ok (i, g1)
    /\ randint 1 (Z.of_nat n - 1) g1 = Ok (j, g2)
    /\ i <> j
    /\ two_opt_swap (current_path s) (Z.to_nat (Z.min i j))
                    (Z.to_nat (Z.max i j)) = Ok moved
    /\ order_distance waypoints moved = Ok new_dist.

Definition sa_accepted (s s' : sa_state) (moved : list nat)
           (new_dist : dist) : Prop :=
  current_path s' = moved /\ current_dist s' = new_dist.

Definition sa_rejected (s s' : sa_state) : Prop :=
  current_path s' = current_path s
  /\ current_dist s' = current_dist s
  /\ best_path s' = best_path s
  /\ best_dist s' = best_dist s.

(** A session that builds the planner and then seeds the process-wide
    generator before annealing. *)
Definition seeded_session (seeded : Z -> rng) (os_entropy : rng)
           (cfg : AlgorithmConfig) (seed : Z)
           (waypoints : list Coordinate) : M (list nat) :=
  self <- RoutePlanner_init seeded os_entropy (Some cfg) ;;
  _ <- random_seed seeded os_entropy (Some seed) ;;
  simulated_annealing self waypoints.

(** A session that seeds first and builds the planner afterwards. *)
Definition session_seeded_first (seeded : Z -> rng) (os_entropy : rng)
           (cfg : AlgorithmConfig) (seed : Z)
           (waypoints : list Coordinate) : M (list nat) :=
  _ <- random_seed seeded os_entropy (Some seed) ;;
  self <- RoutePlanner_init seeded os_entropy (Some cfg) ;;
  simulated_annealing self waypoints.

(** The distance of [points[i]] and [points[j]]. *)
Definition leg (metric : Coordinate -> Coordinate -> Q)
           (points : list Coordinate) (i j : nat) : Q :=
  metric (nth i points origin) (nth j points origin).

(** Every cached distance is the distance of the two points its key
    names in [points]. *)
Definition cache_consistent (metric : Coordinate -> Coordinate -> Q)
           (points : list Coordinate) (dc : DistanceCalculator) : Prop :=
  forall a b d,
    cache_lookup (distance_cache dc) (a, b) = Some d ->
    a < length points /\ b < length points
    /\ eq_dist d (Fin (leg metric points a b)).

(** Length of the route from start [fst m] through the waypoints in the
    order [o] to end [snd m], and the state that records it. *)
Definition through (metric : Coordinate -> Coordinate -> Q)
           (starts waypoints ends : list Coordinate)
           (o : list nat) (m : nat * nat) : dist :=
  route_length (number metric)
    (nth (fst m) starts origin
       :: points_of waypoints o ++ [nth (snd m) ends origin]).

Definition through_state (metric : Coordinate -> Coordinate -> Q)
           (starts waypoints ends : list Coordinate)
           (o : list nat) (m : nat * nat) : plan_state :=
  {| best_full_path :=
       nth (fst m) starts origin
         :: points_of waypoints o ++ [nth (snd m) ends origin];
     best_total_distance := through metric starts waypoints ends o m;
     best_start_idx := fst m;
     best_end_idx := snd m |}.

(** Every route the orchestrator can try has a length below
    [float('inf')]: no sum of its legs overflows or is [nan]. *)
Definition routes_bounded (metric : Coordinate -> Coordinate -> Q)
           (starts waypoints ends : list Coordinate) : Prop :=
  forall si ei o,
    si < length starts -> ei < length ends ->
    is_order (length waypoints) o ->
    lt_dist (through metric starts waypoints ends o (si, ei)) Inf = true.

(** The points of a request, and a request between whose points
    [calculate] returns numbers, with every route from the origin through
    the waypoints to the destination of a length below [float('inf')]. *)
Definition request_origin (request : RouteRequest) : Coordinate :=
  mkCoordinate (fst (rq_origin request)) (snd (rq_origin request)).

Definition request_destination (request : RouteRequest) : Coordinate :=
  mkCoordinate (fst (rq_destination request))
               (snd (rq_destination request)).

Definition request_waypoints (request : RouteRequest) : list Coordinate :=
  convert_to_cpp_coords
    (match rq_waypoints request with Some l => l | None => [] end).

Definition request_measured (metric : Coordinate -> Coordinate -> Q)
           (request : RouteRequest) : Prop :=
  measured (request_origin request
              :: request_waypoints request ++ [request_destination request])
           metric
  /\ routes_bounded metric [request_origin request]
                    (request_waypoints request)
                    [request_destination request].

(** [x] lies between [a] and [b], whichever of the two is the smaller. *)
Definition between (a b x : Q) : Prop :=
  ((a <= x /\ x <= b) \/ (b <= x /\ x <= a))%Q.

(** Two points with the same coordinates. *)
Definition same_point (a b : Coordinate) : Prop :=
  (longitude a == longitude b)%Q /\ (latitude a == latitude b)%Q.

(** The last index, counted from [k], of a point of [ws] with the
    coordinates [key]. *)
Fixpoint last_index (key : Q * Q) (k : nat) (ws : list Coordinate)
  : option nat :=
  match ws with
  | [] => None
  | p :: ws' =>
      match last_index key (S k) ws' with
      | Some j => Some j
      | None => if float_pair_eqb (tuple_of p) key then Some k else None
      end
  end.

(** The requests the endpoint turns down itself: a driving target
    without a key, or a target that is none of the three. *)
Definition turned_down (request : RouteRequest) : bool :=
  let target := rq_optimization_target request in
  (is_driving target && no_key (rq_amap_key request))
  || (negb (is_driving target)
      && negb (String.eqb target "straight_distance")).

(** The pieces of a polyline that are read, the points they give, and
    whether all of them can be read. *)
Definition nonempty (s : string) : bool :=
  match s with
  | EmptyString => false
  | _ => true
  end.

Definition point_ok (float : string -> option Q) (point : string) : bool :=
  match parse_point float point with
  | Ok _ => true
  | _ => false
  end.

Definition points_in (float : string -> option Q) (pieces : list string)
  : list (Q * Q) :=
  flat_map (fun p => match parse_point float p with
                     | Ok xy => [xy]
                     | _ => []
                     end) pieces.

Definition well_formed (float : string -> option Q) (s : string) : bool :=
  forallb (point_ok float) (filter nonempty (split ";"%char s)).

(** The bookkeeping of the annealing loop: both orders list [0..n-1],
    the two tracked distances are those of the two orders, and the best
    one is [bound] or below it. *)
Definition sa_tracks (metric : Coordinate -> Coordinate -> Q)
           (waypoints : list Coordinate) (bound : dist)
           (s : sa_state) : Prop :=
  sa_inv (length waypoints) s
  /\ current_dist s = tour (number metric) waypoints (current_path s)
  /\ best_dist s = tour (number metric) waypoints (best_path s)
  /\ (best_dist s = bound \/ lt_dist (best_dist s) bound = true).

(** ** Sample data

    For closed instances the parameters are instantiated with functions
    that can be evaluated.  They are not the haversine formula and the
    addition of doubles: they show that the hypotheses of a statement can
    be met, and what the code does when a distance cannot be computed. *)

(** A distance: the sum of the coordinate differences. *)
Definition taxicab (a b : Coordinate) : Q :=
  (Qabs (longitude b - longitude a) + Qabs (latitude b - latitude a))%Q.

(** A [calculate] that returns the number [metric] gives. *)
Definition calc_of (metric : Coordinate -> Coordinate -> Q)
  : Coordinate -> Coordinate -> outcome dist :=
  fun a b => Ok (Fin (metric a b)).

Definition same_coordinates (a b : Coordinate) : bool :=
  Qeq_bool (longitude a) (longitude b) && Qeq_bool (latitude a) (latitude b).

(** A [calculate] with the domain error of [math.sqrt] between [p] and
    [q], as the haversine formula on doubles has it between (0, 8) and
    (180, -8), where rounding takes [aa] to 1.0000000000000002. *)
Definition calc_domain_error (p q : Coordinate)
  : Coordinate -> Coordinate -> outcome dist :=
  fun a b =>
    if (same_coordinates a p && same_coordinates b q)
       || (same_coordinates a q && same_coordinates b p)
    then Raise ValueError
    else Ok (Fin (taxicab a b)).

(** A [calculate] that returns [nan] from and to [p], as the haversine
    formula does for a point with a [nan] coordinate. *)
Definition calc_nan_at (p : Coordinate)
  : Coordinate -> Coordinate -> outcome dist :=
  fun a b =>
    if same_coordinates a p || same_coordinates b p
    then Ok NaN
    else Ok (Fin (taxicab a b)).

(** An addition without rounding. *)
Definition exact_add (a b : dist) : dist :=
  match a, b with
  | Fin x, Fin y => Fin (x + y)
  | NaN, _ => NaN
  | _, NaN => NaN
  | Inf, NInf => NaN
  | NInf, Inf => NaN
  | Inf, _ => Inf
  | _, Inf => Inf
  | NInf, _ => NInf
  | _, NInf => NInf
  end.

Definition exp_one (q : Q) : Q := 1%Q.

Definition pt (lon lat : Z) : Coordinate :=
  mkCoordinate (inject_Z lon) (inject_Z lat).

(** Three waypoints of the meridian 0: the second and the third are at
    the same distance of the first. *)
Definition line3 : list Coordinate := [pt 0 0; pt 0 1; pt 0 (-1)].

(** Thirteen waypoints, one more than the exhaustive search takes. *)
Definition line13 : list Coordinate :=
  map (fun k => pt 0 (Z.of_nat (k * k))) (seq 0 13).

Definition planner : RoutePlanner :=
  {| config := AlgorithmConfig_default;
     dist_calc := DistanceCalculator_init true |}.

(** A planner whose annealing starts below the 1e-9 threshold. *)
Definition cold_planner : RoutePlanner :=
  {| config := AlgorithmConfig_init (995 # 1000) (1 # 10000000000) 100000;
     dist_calc := DistanceCalculator_init true |}.

(** A planner with the cache flag off and a stale cache entry. *)
Definition uncached_planner : RoutePlanner :=
  {| config := {| population_size := 100;
                  cooling_rate := (995 # 1000)%Q;
                  initial_temperature := 10000%Q;
                  max_iterations := 100000;
                  use_cache := false;
                  enable_local_search := true |};
     dist_calc := {| distance_cache := [((0, 1), Fin 7)];
                     dc_use_cache := false |} |}.

(** A planner with the local search switched off. *)
Definition plain_planner : RoutePlanner :=
  {| config := {| population_size := 100;
                  cooling_rate := (995 # 1000)%Q;
                  initial_temperature := 10000%Q;
                  max_iterations := 100000;
                  use_cache := true;
                  enable_local_search := false |};
     dist_calc := DistanceCalculator_init true |}.

(** A generator seeding for the examples. *)
Definition toy_seeded (seed : Z) : rng := [Z.to_N seed].

(** The state in which [sa_init] leaves [line3] when the greedy path
    starts at index 0. *)
Definition line3_start (t : Q) : sa_state :=
  {| current_path := [0; 1; 2]; current_dist := Fin 3;
     best_path := [0; 1; 2]; best_dist := Fin 3; temp := t |}.

(** A request for the given target, without a key, from (0, 0) to
    (0, 10). *)
Definition request_for (target : string) (waypoints : option (list (Q * Q)))
  : RouteRequest :=
  {| rq_optimization_target := target;
     rq_amap_key := None;
     rq_origin := (0, 0)%Q;
     rq_destination := (0, 10)%Q;
     rq_waypoints := waypoints;
     rq_cooling_rate := (995 # 1000)%Q;
     rq_initial_temperature := 10000%Q;
     rq_max_iterations := 100000;
     rq_use_cache := true;
     rq_enable_local_search := true |}.

(** A driving branch that always answers, with an empty route. *)
Definition driving_stub (request : RouteRequest) (g : rng)
  : reply (RouteResponse * rng) :=
  Returns ({| rs_optimization_target := rq_optimization_target request;
              rs_total_distance := Fin 0;
              rs_total_time := Some 0%Q;
              rs_path := [];
              rs_execution_time_ms := 0%Q;
              rs_start_point := rq_origin request;
              rs_end_point := rq_destination request;
              rs_waypoints_order := None |}, g).

(** * Facts *)

(** ** Comparisons and outcomes *)

Lemma Qltb_lt (x y : Q) : Qltb x y = true <-> (x < y)%Q.
Proof.
  unfold Qltb. rewrite negb_true_iff.
  split; intro H.
  - apply Qnot_le_lt. intro Hle. apply Qle_bool_iff in Hle. congruence.
  - destruct (Qle_bool y x) eqn:E; [|reflexivity].
    apply Qle_bool_iff in E. exfalso. exact (Qlt_not_le _ _ H E).
Qed.

Lemma Qltb_ge (x y : Q) : Qltb x y = false <-> (y <= x)%Q.
Proof.
  unfold Qltb. rewrite negb_false_iff. apply Qle_bool_iff.
Qed.

Lemma lt_dist_irrefl (a : dist) : lt_dist a a = false.
Proof.
  destruct a; simpl; try reflexivity. apply Qltb_ge. apply Qle_refl.
Qed.

Lemma lt_dist_trans (a b c : dist) :
  lt_dist a b = true -> lt_dist b c = true -> lt_dist a c = true.
Proof.
  destruct a, b, c; simpl; try discriminate; try reflexivity.
  rewrite !Qltb_lt. apply Qlt_trans.
Qed.

(** In a chain [a < b], not [c < b], with [c] not [nan]: [a < c]. *)
Lemma lt_dist_below (a b c : dist) :
  lt_dist a b = true -> lt_dist c b = false -> c <> NaN ->
  lt_dist a c = true.
Proof.
  destruct a, b, c; simpl; try discriminate; try reflexivity;
    try congruence.
  rewrite !Qltb_lt, Qltb_ge. intros H1 H2 _.
  eapply Qlt_le_trans; eassumption.
Qed.

(** Not [c < b] and [a < b], then not [c < a]. *)
Lemma lt_dist_floor (a b c : dist) :
  lt_dist a b = true -> lt_dist c b = false -> lt_dist c a = false.
Proof.
  intros H1 H2. destruct (lt_dist c a) eqn:E; [|reflexivity].
  now rewrite (lt_dist_trans _ _ _ E H1) in H2.
Qed.

Lemma eq_dist_not_lt (a b : dist) :
  eq_dist a b -> lt_dist a b = false /\ lt_dist b a = false.
Proof.
  destruct a, b; simpl; try tauto.
  intro H. rewrite !Qltb_ge, H. split; apply Qle_refl.
Qed.

Lemma eq_dist_number (a b : dist) : eq_dist a b -> a <> NaN /\ b <> NaN.
Proof. destruct a, b; simpl; try tauto; intros _; split; discriminate. Qed.

Lemma obind_ok {A B} (m : outcome A) (k : A -> outcome B) (b : B) :
  obind m k = Ok b -> exists a, m = Ok a /\ k a = Ok b.
Proof.
  destruct m; simpl; intro H; try discriminate. eauto.
Qed.

Lemma get_ok {A} (l : list A) (i : nat) (d : A) :
  i < length l -> get l i = Ok (nth i l d).
Proof.
  intro H. unfold get. now rewrite (nth_error_nth' l d H).
Qed.

Lemma get_middle {A} (l1 l2 : list A) (x : A) :
  get (l1 ++ x :: l2) (length l1) = Ok x.
Proof.
  unfold get. rewrite nth_error_app2, Nat.sub_diag by lia. reflexivity.
Qed.

Lemma set_middle {A} (l1 l2 : list A) (x v : A) :
  set (l1 ++ x :: l2) (length l1) v = Ok (l1 ++ v :: l2).
Proof.
  induction l1 as [|a l1 IH]; simpl; [reflexivity|].
  now rewrite IH.
Qed.

Lemma set_ok {A} (l : list A) (i : nat) (v : A) :
  i < length l ->
  set l i v = Ok (firstn i l ++ v :: skipn (S i) l).
Proof.
  revert i. induction l as [|a l IH]; intros i H; simpl in H; [lia|].
  destruct i as [|i]; simpl; [reflexivity|].
  rewrite IH by lia. reflexivity.
Qed.

Lemma set_length {A} (l l' : list A) (i : nat) (v : A) :
  set l i v = Ok l' -> length l' = length l.
Proof.
  revert i l'. induction l as [|a l IH]; intros i l' H; simpl in H.
  - discriminate.
  - destruct i as [|i].
    + inversion H; reflexivity.
    + apply obind_ok in H. destruct H as (r & Hr & H).
      inversion H; subst. simpl. f_equal. eauto.
Qed.

(** ** [extract_path] *)

Lemma extract_path_ok (waypoints : list Coordinate) (order : list nat) :
  Forall (fun i => i < length waypoints) order ->
  extract_path waypoints order = Ok (points_of waypoints order).
Proof.
  induction 1 as [|i order Hi _ IH]; simpl; [reflexivity|].
  rewrite (get_ok _ _ origin Hi). simpl. rewrite IH. reflexivity.
Qed.

Lemma order_in_range (n : nat) (p : list nat) :
  is_order n p -> Forall (fun i => i < n) p.
Proof.
  intro H. apply Forall_forall. intros i Hi.
  apply (Permutation_in _ (Permutation_sym H)) in Hi.
  apply in_seq in Hi. lia.
Qed.

Lemma points_of_incl (waypoints : list Coordinate) (p : list nat) :
  Forall (fun i => i < length waypoints) p ->
  incl (points_of waypoints p) waypoints.
Proof.
  intros H a Ha. unfold points_of in Ha. apply in_map_iff in Ha.
  destruct Ha as (i & <- & Hi). rewrite Forall_forall in H.
  apply nth_In. now apply H.
Qed.

(** *** The sum of the legs

    Where [calculate] returns, [calculate_path_distance] returns the
    length of the route. *)

Lemma gauged_incl (pts pts' : list Coordinate)
      (gauge : Coordinate -> Coordinate -> dist) :
  gauged pts gauge -> incl pts' pts -> gauged pts' gauge.
Proof. intros H Hincl a b Ha Hb. apply H; now apply Hincl. Qed.

Lemma measured_gauged (pts : list Coordinate)
      (metric : Coordinate -> Coordinate -> Q) :
  measured pts metric -> gauged pts (number metric).
Proof. intros H a b Ha Hb. now apply H. Qed.

Lemma measured_incl (pts pts' : list Coordinate)
      (metric : Coordinate -> Coordinate -> Q) :
  measured pts metric -> incl pts' pts -> measured pts' metric.
Proof. intros H Hincl a b Ha Hb. apply H; now apply Hincl. Qed.

Lemma sum_legs_gauged (gauge : Coordinate -> Coordinate -> dist)
      (p : list Coordinate) :
  gauged p gauge ->
  forall total, sum_legs total p = Ok (fold_left fadd (legs gauge p) total).
Proof.
  induction p as [|a p IH]; intros Hm total; [reflexivity|].
  destruct p as [|b p]; [reflexivity|].
  change (sum_legs total (a :: b :: p))
    with (d <~ calculate a b ;; sum_legs (fadd total d) (b :: p)).
  rewrite (Hm a b) by (simpl; auto). cbn [obind].
  rewrite IH by (eapply gauged_incl; [exact Hm|apply incl_tl, incl_refl]).
  reflexivity.
Qed.

Lemma calculate_path_distance_gauged
      (gauge : Coordinate -> Coordinate -> dist) (p : list Coordinate) :
  gauged p gauge ->
  calculate_path_distance p = Ok (route_length gauge p).
Proof.
  intro Hm. unfold calculate_path_distance, route_length.
  destruct p as [|a [|b p]]; try reflexivity.
  change (length (a :: b :: p) <? 2) with false. cbv iota.
  now apply sum_legs_gauged.
Qed.

Lemma calculate_path_distance_measured
      (metric : Coordinate -> Coordinate -> Q) (p : list Coordinate) :
  measured p metric ->
  calculate_path_distance p = Ok (route_length (number metric) p).
Proof.
  intro Hm. now apply calculate_path_distance_gauged, measured_gauged.
Qed.

Lemma order_distance_gauged (gauge : Coordinate -> Coordinate -> dist)
      (waypoints : list Coordinate) (p : list nat) :
  gauged waypoints gauge ->
  Forall (fun i => i < length waypoints) p ->
  order_distance waypoints p = Ok (tour gauge waypoints p).
Proof.
  intros Hm H. unfold order_distance. rewrite extract_path_ok by exact H.
  simpl obind. apply calculate_path_distance_gauged.
  eapply gauged_incl; [exact Hm|now apply points_of_incl].
Qed.

Lemma order_distance_ok (metric : Coordinate -> Coordinate -> Q)
      (waypoints : list Coordinate) (p : list nat) :
  measured waypoints metric ->
  Forall (fun i => i < length waypoints) p ->
  order_distance waypoints p = Ok (tour (number metric) waypoints p).
Proof.
  intros Hm H. now apply order_distance_gauged; [apply measured_gauged|].
Qed.

Lemma points_of_identity (waypoints : list Coordinate) :
  points_of waypoints (seq 0 (length waypoints)) = waypoints.
Proof.
  unfold points_of.
  apply nth_ext with (d := origin) (d' := origin).
  - now rewrite length_map, length_seq.
  - intros k Hk. rewrite length_map, length_seq in Hk.
    rewrite (nth_indep _ origin (nth 0 waypoints origin))
      by now rewrite length_map, length_seq.
    rewrite (map_nth (fun i => nth i waypoints origin)).
    now rewrite seq_nth.
Qed.

Lemma points_of_permutation (waypoints : list Coordinate) (p : list nat) :
  is_order (length waypoints) p ->
  Permutation waypoints (points_of waypoints p).
Proof.
  intro H. rewrite <- (points_of_identity waypoints) at 1.
  unfold points_of. now apply Permutation_map.
Qed.

(** ** [two_opt_swap] reverses the segment *)

Lemma get_at {A} (l1 l2 : list A) (x : A) (i : nat) :
  i = length l1 -> get (l1 ++ x :: l2) i = Ok x.
Proof. intros ->. apply get_middle. Qed.

Lemma set_at {A} (l1 l2 : list A) (x v : A) (i : nat) :
  i = length l1 -> set (l1 ++ x :: l2) i v = Ok (l1 ++ v :: l2).
Proof. intros ->. apply set_middle. Qed.

Lemma two_opt_swap_loop_step (fuel : nat) (l1 mid l3 : list nat)
      (a b i j : nat) :
  i = length l1 -> j = length l1 + S (length mid) ->
  two_opt_swap_loop (S fuel) (l1 ++ a :: mid ++ b :: l3) i j
  = two_opt_swap_loop fuel (l1 ++ b :: mid ++ a :: l3) (i + 1) (j - 1).
Proof.
  intros Hi Hj. simpl.
  replace (i <? j) with true by (symmetry; apply Nat.ltb_lt; lia).
  assert (E : forall x y, l1 ++ x :: mid ++ y :: l3
                          = (l1 ++ x :: mid) ++ y :: l3).
  { intros. rewrite <- app_assoc. reflexivity. }
  rewrite (E a b) at 1.
  rewrite get_at by (rewrite length_app; simpl; lia).
  simpl obind. rewrite get_at by exact Hi.
  simpl obind. rewrite set_at by exact Hi.
  simpl obind. rewrite (E b b).
  rewrite set_at by (rewrite length_app; simpl; lia).
  simpl obind. rewrite <- E. reflexivity.
Qed.

Lemma two_opt_swap_loop_stop (fuel : nat) (p : list nat) (i j : nat) :
  j <= i -> two_opt_swap_loop fuel p i j = Ok p.
Proof.
  intro H. destruct fuel; simpl;
    (replace (i <? j) with false by (symmetry; apply Nat.ltb_ge; lia));
    reflexivity.
Qed.

Lemma two_opt_swap_loop_rev (k : nat) :
  forall (mid l1 l3 : list nat) (fuel : nat),
    length mid <= k ->
    length mid <= fuel + 1 ->
    two_opt_swap_loop fuel (l1 ++ mid ++ l3) (length l1)
                      (length l1 + length mid - 1)
    = Ok (l1 ++ rev mid ++ l3).
Proof.
  induction k as [|k IH]; intros mid l1 l3 fuel Hk Hfuel.
  - destruct mid; simpl in Hk; [|lia].
    apply two_opt_swap_loop_stop. simpl. lia.
  - destruct mid as [|a mid]; [apply IH; simpl; lia|].
    destruct (exists_last (l := a :: mid)) as (body & b & Hb);
      [discriminate|].
    destruct body as [|a' mid'].
    + destruct mid; [|destruct mid; discriminate].
      apply two_opt_swap_loop_stop. simpl. lia.
    + simpl in Hb. injection Hb as <- ->.
      simpl in Hfuel, Hk. rewrite length_app in Hfuel, Hk.
      simpl in Hfuel, Hk.
      destruct fuel as [|fuel]; [lia|].
      replace (l1 ++ (a :: mid' ++ [b]) ++ l3)
        with (l1 ++ a :: mid' ++ b :: l3)
        by (simpl; rewrite <- app_assoc; reflexivity).
      rewrite two_opt_swap_loop_step
        by (simpl; rewrite ?length_app; simpl; lia).
      replace (l1 ++ b :: mid' ++ a :: l3)
        with ((l1 ++ [b]) ++ mid' ++ (a :: l3))
        by (rewrite <- app_assoc; reflexivity).
      replace (length l1 + 1) with (length (l1 ++ [b]))
        by (rewrite length_app; reflexivity).
      replace (length l1 + length (a :: mid' ++ [b]) - 1 - 1)
        with (length (l1 ++ [b]) + length mid' - 1)
        by (simpl; rewrite !length_app; simpl; lia).
      rewrite IH by lia.
      f_equal. simpl. rewrite rev_app_distr. simpl.
      rewrite <- !app_assoc. reflexivity.
Qed.

Lemma get_returns {A} (l : list A) (i : nat) : get l i <> OutOfFuel.
Proof. unfold get. destruct (nth_error l i); discriminate. Qed.

Lemma set_returns {A} (l : list A) (i : nat) (v : A) :
  set l i v <> OutOfFuel.
Proof.
  revert i. induction l as [|a l IH]; intro i; simpl; [discriminate|].
  destruct i as [|i]; [discriminate|].
  specialize (IH i). destruct (set l i v); simpl; congruence.
Qed.

(** The bound [j] on the passes of the loop is never reached. *)
Lemma two_opt_swap_loop_fuel (fuel : nat) :
  forall (p : list nat) (i j : nat),
    j <= fuel -> two_opt_swap_loop fuel p i j <> OutOfFuel.
Proof.
  induction fuel as [|fuel IH]; intros p i j Hj; simpl.
  - replace (i <? j) with false by (symmetry; apply Nat.ltb_ge; lia).
    discriminate.
  - destruct (i <? j) eqn:E; [|discriminate].
    apply Nat.ltb_lt in E.
    pose proof (get_returns p j) as Hgj. pose proof (get_returns p i) as Hgi.
    destruct (get p j) as [pj| |]; simpl; try discriminate; try congruence.
    destruct (get p i) as [pi| |]; simpl; try discriminate; try congruence.
    pose proof (set_returns p i pj) as Hs1.
    destruct (set p i pj) as [p1| |]; simpl; try discriminate;
      try congruence.
    pose proof (set_returns p1 j pi) as Hs2.
    destruct (set p1 j pi) as [p2| |]; simpl; try discriminate;
      try congruence.
    apply IH. lia.
Qed.

Lemma two_opt_swap_returns (p : list nat) (i j : nat) :
  two_opt_swap p i j <> OutOfFuel.
Proof. apply two_opt_swap_loop_fuel. lia. Qed.

Lemma two_opt_swap_spec (p : list nat) (i j : nat) :
  i <= j -> j < length p ->
  two_opt_swap p i j = Ok (reverse_segment p i j).
Proof.
  intros Hij Hj. unfold two_opt_swap, reverse_segment.
  set (l1 := firstn i p).
  set (mid := firstn (j + 1 - i) (skipn i p)).
  set (l3 := skipn (j + 1) p).
  assert (Hl1 : length l1 = i) by (unfold l1; rewrite length_firstn; lia).
  assert (Hmid : length mid = j + 1 - i).
  { unfold mid. rewrite length_firstn, length_skipn. lia. }
  assert (Hp : p = l1 ++ mid ++ l3).
  { unfold l1, mid, l3.
    rewrite <- (firstn_skipn i p) at 1. f_equal.
    rewrite <- (firstn_skipn (j + 1 - i) (skipn i p)) at 1. f_equal.
    rewrite skipn_skipn. f_equal. lia. }
  rewrite Hp at 1.
  replace i with (length l1) at 1 by exact Hl1.
  replace j with (length l1 + length mid - 1) at 2 by lia.
  apply two_opt_swap_loop_rev with (k := length mid); lia.
Qed.

Lemma reverse_segment_permutation (p : list nat) (i j : nat) :
  i <= j -> Permutation p (reverse_segment p i j).
Proof.
  intro Hij. unfold reverse_segment.
  rewrite <- (firstn_skipn i p) at 1. apply Permutation_app_head.
  rewrite <- (firstn_skipn (j + 1 - i) (skipn i p)) at 1.
  rewrite skipn_skipn.
  replace (j + 1 - i + i) with (j + 1) by lia.
  apply Permutation_app_tail, Permutation_rev.
Qed.

(** ** The enumeration of [itertools.permutations] *)

Lemma picks_split {A} (l r : list A) (x : A) :
  In (x, r) (picks l) <->
  exists l1 l2, l = l1 ++ x :: l2 /\ r = l1 ++ l2.
Proof.
  revert r. induction l as [|a l IH]; intro r; simpl.
  - split; [tauto|]. intros (l1 & l2 & H & _). now destruct l1.
  - split.
    + intros [H|H].
      * injection H as <- <-. now exists [], l.
      * apply in_map_iff in H. destruct H as ([y r'] & E & H).
        simpl in E. injection E as <- <-.
        apply IH in H. destruct H as (l1 & l2 & -> & ->).
        now exists (a :: l1), l2.
    + intros (l1 & l2 & E & ->). destruct l1 as [|b l1]; simpl in E.
      * injection E as <- <-. now left.
      * injection E as <- ->. right.
        apply in_map_iff. exists (x, l1 ++ l2). split; [reflexivity|].
        apply IH. now exists l1, l2.
Qed.

Lemma picks_length {A} (l r : list A) (x : A) :
  In (x, r) (picks l) -> length l = S (length r).
Proof.
  intro H. apply picks_split in H. destruct H as (l1 & l2 & -> & ->).
  rewrite !length_app. simpl. lia.
Qed.

Lemma picks_permutation {A} (l r : list A) (x : A) :
  In (x, r) (picks l) -> Permutation l (x :: r).
Proof.
  intro H. apply picks_split in H. destruct H as (l1 & l2 & -> & ->).
  symmetry. apply Permutation_middle.
Qed.

Lemma perms_of_sound {A} (n : nat) :
  forall (l p : list A),
    length l = n -> In p (perms_of n l) -> Permutation l p.
Proof.
  induction n as [|n IH]; intros l p Hl Hp; simpl in Hp.
  - destruct Hp as [<-|[]]. destruct l; [constructor|discriminate].
  - apply in_flat_map in Hp. destruct Hp as ([x r] & Hxr & Hp).
    simpl in Hp. apply in_map_iff in Hp. destruct Hp as (q & <- & Hq).
    rewrite (picks_permutation _ _ _ Hxr). constructor.
    apply IH; [|exact Hq].
    apply picks_length in Hxr. lia.
Qed.

Lemma perms_of_complete {A} (n : nat) :
  forall (l p : list A),
    length l = n -> Permutation l p -> In p (perms_of n l).
Proof.
  induction n as [|n IH]; intros l p Hl Hp.
  - destruct l; [|discriminate].
    apply Permutation_nil in Hp. subst. now left.
  - destruct p as [|x p'].
    { apply Permutation_sym, Permutation_nil in Hp. subst. discriminate. }
    assert (Hx : In x l).
    { apply (Permutation_in _ (Permutation_sym Hp)). now left. }
    apply in_split in Hx. destruct Hx as (l1 & l2 & ->).
    simpl. apply in_flat_map. exists (x, l1 ++ l2). split.
    + apply picks_split. now exists l1, l2.
    + simpl. apply in_map. apply IH.
      * rewrite length_app in *. simpl in Hl. lia.
      * apply Permutation_cons_inv with (a := x).
        rewrite <- Hp. apply Permutation_middle.
Qed.

Theorem permutations_complete {A} (l p : list A) :
  In p (permutations l) <-> Permutation l p.
Proof.
  split.
  - now apply perms_of_sound.
  - now apply perms_of_complete.
Qed.

Lemma perms_of_head {A} (l : list A) :
  exists rest, perms_of (length l) l = l :: rest.
Proof.
  induction l as [|x l (rest & IH)]; simpl.
  - now exists [].
  - rewrite IH. simpl. eexists. reflexivity.
Qed.

Lemma perms_of_length {A} (n : nat) :
  forall l : list A, length l = n -> length (perms_of n l) = fact n.
Proof.
  induction n as [|n IH]; intros l Hl; [reflexivity|].
  cbn [perms_of].
  assert (H : forall ps : list (A * list A),
             (forall x r, In (x, r) ps -> length r = n) ->
             length (flat_map
                       (fun q => map (cons (fst q)) (perms_of n (snd q))) ps)
             = length ps * fact n).
  { induction ps as [|[x r] ps IHps]; intro Hps; [reflexivity|].
    simpl. rewrite length_app, length_map, IHps.
    - rewrite (IH r); [reflexivity|]. apply (Hps x). now left.
    - intros y r' Hy. apply (Hps y). now right. }
  rewrite H.
  - assert (Hp : forall l0 : list A, length (picks l0) = length l0).
    { induction l0; simpl; [reflexivity|]. now rewrite length_map, IHl0. }
    rewrite Hp, Hl. reflexivity.
  - intros x r Hxr. apply picks_length in Hxr. lia.
Qed.

(** Lexicographic order of the enumeration. *)

Lemma lex_lt_irrefl (p : list nat) : ~ lex_lt p p.
Proof.
  induction p as [|x p IH]; simpl; [tauto|].
  intros [H|[_ H]]; [lia|tauto].
Qed.

Lemma sorted_flat_map {X Y} (RX : X -> X -> Prop) (RY : Y -> Y -> Prop)
      (f : X -> list Y) (xs : list X) :
  StronglySorted RX xs ->
  (forall x y a b, RX x y -> In a (f x) -> In b (f y) -> RY a b) ->
  (forall x, In x xs -> StronglySorted RY (f x)) ->
  StronglySorted RY (flat_map f xs).
Proof.
  intros Hs Hcross Hin.
  induction Hs as [|x xs Hs IH Hx]; simpl; [constructor|].
  assert (Htail : StronglySorted RY (flat_map f xs)).
  { apply IH. intros y Hy. apply Hin. now right. }
  assert (Hhead : StronglySorted RY (f x)) by (apply Hin; now left).
  assert (Hlt : forall a b, In a (f x) -> In b (flat_map f xs) -> RY a b).
  { intros a b Ha Hb. apply in_flat_map in Hb. destruct Hb as (y & Hy & Hb).
    rewrite Forall_forall in Hx. eauto. }
  clear Hin IH.
  induction Hhead as [|a l _ IHl Ha]; simpl; [exact Htail|].
  constructor.
  - apply IHl. intros; apply Hlt; [now right|assumption].
  - apply Forall_app. split; [exact Ha|].
    apply Forall_forall. intros b Hb. apply Hlt; [now left|exact Hb].
Qed.

Lemma picks_incl {A} (l r : list A) (x : A) :
  In (x, r) (picks l) -> incl r l.
Proof.
  intro H. apply picks_split in H. destruct H as (l1 & l2 & -> & ->).
  intros y Hy. apply in_app_or in Hy. apply in_or_app.
  destruct Hy; [now left|right; now right].
Qed.

Lemma picks_sorted (l : list nat) :
  StronglySorted lt l ->
  StronglySorted (fun p q => fst p < fst q) (picks l)
  /\ Forall (fun p => StronglySorted lt (snd p)) (picks l)
  /\ (forall p, In p (picks l) -> In (fst p) l).
Proof.
  induction 1 as [|x l Hs (IH1 & IH2 & IH3) Hx]; simpl.
  - repeat split; try constructor. intros p [].
  - repeat split.
    + constructor.
      * clear IH2 IH3 Hx Hs.
        induction IH1 as [|p ps _ IHps Hp]; simpl; constructor; auto.
        rewrite Forall_map. exact Hp.
      * rewrite Forall_map. simpl. apply Forall_forall. intros p Hp.
        rewrite Forall_forall in Hx. apply Hx, IH3, Hp.
    + constructor; [exact Hs|].
      rewrite Forall_map. simpl.
      rewrite Forall_forall in IH2 |- *. intros [y r] Hp. simpl.
      constructor; [now apply (IH2 (y, r))|].
      rewrite Forall_forall in Hx |- *. intros z Hz.
      apply Hx. exact (picks_incl _ _ _ Hp z Hz).
    + intros p [<-|Hp]; [now left|].
      apply in_map_iff in Hp. destruct Hp as (q & <- & Hq). simpl.
      right. now apply IH3.
Qed.

Lemma perms_of_sorted (n : nat) :
  forall l : list nat,
    StronglySorted lt l -> StronglySorted lex_lt (perms_of n l).
Proof.
  induction n as [|n IH]; intros l Hl; simpl.
  - repeat constructor.
  - destruct (picks_sorted _ Hl) as (H1 & H2 & _).
    apply sorted_flat_map with (RX := fun p q => fst p < fst q).
    + exact H1.
    + intros p q a b Hpq Ha Hb.
      apply in_map_iff in Ha. destruct Ha as (a' & <- & _).
      apply in_map_iff in Hb. destruct Hb as (b' & <- & _).
      simpl. now left.
    + intros p Hp. rewrite Forall_forall in H2.
      specialize (IH _ (H2 p Hp)).
      induction IH as [|a ps _ IHps Ha]; simpl; constructor; auto.
      rewrite Forall_map. revert Ha. apply Forall_impl.
      intros b Hb. simpl. now right.
Qed.

Lemma seq_sorted (len start : nat) : StronglySorted lt (seq start len).
Proof.
  revert start. induction len as [|len IH]; intro start; simpl;
    constructor; auto.
  apply Forall_forall. intros x Hx. apply in_seq in Hx. lia.
Qed.

Theorem permutations_range_sorted (n : nat) :
  StronglySorted lex_lt (permutations (seq 0 n)).
Proof.
  apply perms_of_sorted, seq_sorted.
Qed.

Lemma sorted_after {X} (R : X -> X -> Prop) (l1 l2 : list X) (x y : X) :
  StronglySorted R (l1 ++ x :: l2) -> In y l2 -> R x y.
Proof.
  induction l1 as [|a l1 IH]; simpl; intros H Hy.
  - apply StronglySorted_inv in H. destruct H as [_ H].
    rewrite Forall_forall in H. auto.
  - apply StronglySorted_inv in H. destruct H as [H _]. auto.
Qed.

(** ** The exhaustive search *)

Lemma range_0 (n : nat) : range 0 n = seq 0 n.
Proof. unfold range. now rewrite Nat.sub_0_r. Qed.

(** *** The first element of least cost *)

Lemma first_min_spec {X} (cost : X -> dist) (rest : list X) :
  forall x0 : X,
    exists before after,
      x0 :: rest = before ++ first_min cost x0 rest :: after
      /\ Forall (fun q =>
                   lt_dist (cost q) (cost (first_min cost x0 rest)) = false)
                (x0 :: rest)
      /\ Forall (fun q =>
                   cost q <> NaN ->
                   lt_dist (cost (first_min cost x0 rest)) (cost q) = true)
                before
      /\ (before = []
          \/ lt_dist (cost (first_min cost x0 rest)) (cost x0) = true).
Proof.
  induction rest as [|q rest IH]; intro x0.
  - exists [], []. simpl. split_all; auto.
    constructor; [apply lt_dist_irrefl|constructor].
  - unfold first_min. simpl fold_left.
    destruct (lt_dist (cost q) (cost x0)) eqn:E.
    + fold (first_min cost q rest).
      destruct (IH q) as (before & after & Hsplit & Hall & Hb & Hc).
      set (m := first_min cost q rest) in *. clearbody m.
      assert (Hm : lt_dist (cost m) (cost x0) = true).
      { destruct Hc as [->|Hc].
        - simpl in Hsplit. injection Hsplit as <- _. exact E.
        - exact (lt_dist_trans _ _ _ Hc E). }
      exists (x0 :: before), after. split_all.
      * simpl. now rewrite Hsplit.
      * constructor; [|exact Hall].
        destruct (lt_dist (cost x0) (cost m)) eqn:E'; [|reflexivity].
        pose proof (lt_dist_trans _ _ _ E' Hm) as Habs.
        now rewrite lt_dist_irrefl in Habs.
      * constructor; [intros _; exact Hm|exact Hb].
      * now right.
    + fold (first_min cost x0 rest).
      destruct (IH x0) as (before & after & Hsplit & Hall & Hb & Hc).
      set (m := first_min cost x0 rest) in *. clearbody m.
      destruct before as [|b before]; simpl in Hsplit.
      * injection Hsplit as Hm Hafter.
        exists [], (q :: rest). split_all; auto.
        -- simpl. now rewrite Hm.
        -- rewrite Hm in E. inversion Hall; subst.
           constructor; [assumption|]. constructor; assumption.
      * injection Hsplit as <- Hrest.
        destruct Hc as [Hc|Hc]; [discriminate|].
        exists (x0 :: q :: before), after. split_all.
        -- simpl. now rewrite Hrest.
        -- inversion Hall; subst. constructor; [assumption|].
           constructor; [|assumption].
           exact (lt_dist_floor _ _ _ Hc E).
        -- inversion Hb; subst. constructor; [assumption|].
           constructor; [|assumption].
           intro Hq. exact (lt_dist_below _ _ _ Hc E Hq).
        -- now right.
Qed.

(** Where neither side is [nan], [not (b < a)] is [a <= b]. *)
Lemma le_dist_of_not_lt (a b : dist) :
  a <> NaN -> b <> NaN -> lt_dist b a = false -> le_dist a b.
Proof.
  unfold le_dist.
  destruct a, b; simpl; try congruence; auto.
  intros _ _ H. apply Qltb_ge in H.
  destruct (Qlt_le_dec q q0) as [Hlt|Hle].
  - left. now apply Qltb_lt.
  - right. now apply Qle_antisym.
Qed.

Lemma exact_try_ok (metric : Coordinate -> Coordinate -> Q)
      (waypoints : list Coordinate) (q p0 : list nat) (d0 : dist) :
  measured waypoints metric ->
  Forall (fun i => i < length waypoints) q ->
  exact_try waypoints q (d0, p0)
  = Ok (if lt_dist (tour (number metric) waypoints q) d0
        then (tour (number metric) waypoints q, q)
        else (d0, p0)).
Proof.
  intros Hm Hq. unfold exact_try.
  rewrite (order_distance_ok metric) by assumption.
  simpl. now destruct (lt_dist _ _).
Qed.

Lemma exact_loop_first_min (metric : Coordinate -> Coordinate -> Q)
      (waypoints : list Coordinate) (perms : list (list nat)) :
  measured waypoints metric ->
  forall p0 : list nat,
    (forall q, In q perms -> Forall (fun i => i < length waypoints) q) ->
    for_each perms (exact_try waypoints) (tour (number metric) waypoints p0, p0)
    = Ok (tour (number metric) waypoints
               (first_min (fun p => tour (number metric) waypoints p) p0 perms),
          first_min (fun p => tour (number metric) waypoints p) p0 perms).
Proof.
  intro Hm. induction perms as [|q perms IH]; intros p0 Hrange.
  - reflexivity.
  - simpl for_each.
    rewrite (exact_try_ok metric) by (auto; apply Hrange; now left).
    unfold first_min. simpl fold_left. simpl obind.
    destruct (lt_dist (tour (number metric) waypoints q)
                      (tour (number metric) waypoints p0));
      apply IH; intros; apply Hrange; now right.
Qed.

Lemma permutations_in_range (waypoints : list Coordinate) (q : list nat) :
  In q (permutations (seq 0 (length waypoints))) ->
  Forall (fun i => i < length waypoints) q.
Proof.
  intro H. apply permutations_complete in H. now apply order_in_range.
Qed.

(** For at most twelve waypoints between which [calculate] returns
    numbers, [solve_exact_internal] returns, without reading the
    generator, an order of [0..n-1] with this property: no order is
    strictly shorter; it is the first order of the enumeration
    [permutations (range n)] of its length (every earlier one is strictly
    longer), and since the enumeration starts at the identity and is
    lexicographically increasing, it is the lexicographically least order
    of its length.  The length of an order is the length of its route,
    and it is what [order_distance] computes. *)
Lemma solve_exact_internal_spec
      (metric : Coordinate -> Coordinate -> Q)
      (self : RoutePlanner) (waypoints : list Coordinate) (g : rng) :
  length waypoints <= 12 ->
  measured waypoints metric ->
  let n := length waypoints in
  let len := fun p => tour (number metric) waypoints p in
  exists best,
    solve_exact_internal self waypoints g = Ok (best, g)
    /\ is_order n best
    /\ (forall p, is_order n p ->
                  order_distance waypoints p = Ok (len p)
                  /\ lt_dist (len p) (len best) = false
                  /\ (len p <> NaN -> len best <> NaN ->
                      le_dist (len best) (len p)))
    /\ (exists before after,
           permutations (seq 0 n) = before ++ best :: after
           /\ hd_error (permutations (seq 0 n)) = Some (seq 0 n)
           /\ StronglySorted lex_lt (permutations (seq 0 n))
           /\ Forall (fun q => len q <> NaN ->
                               lt_dist (len best) (len q) = true) before)
    /\ (forall p, is_order n p -> eq_dist (len p) (len best) ->
                  lex_le best p).
Proof.
  intros Hn Hm n len.
  unfold solve_exact_internal. fold n.
  replace (12 <? n) with false by (symmetry; apply Nat.ltb_ge; exact Hn).
  rewrite range_0.
  assert (Hid : Forall (fun i => i < length waypoints) (seq 0 n)).
  { apply Forall_forall. intros i Hi. apply in_seq in Hi. unfold n in Hi. lia. }
  rewrite (order_distance_ok metric) by assumption. simpl obind.
  destruct (perms_of_head (seq 0 n)) as (rest & Hhead).
  rewrite length_seq in Hhead. fold (permutations (seq 0 n)).
  assert (Hperms : permutations (seq 0 n) = seq 0 n :: rest).
  { unfold permutations. now rewrite length_seq. }
  assert (Hrange : forall q, In q (permutations (seq 0 n)) ->
                             Forall (fun i => i < length waypoints) q).
  { intros q Hq. now apply permutations_in_range. }
  rewrite (exact_loop_first_min metric) by assumption.
  set (best := first_min len (seq 0 n) (permutations (seq 0 n))).
  fold len. fold best. simpl obind. unfold lift.
  (* the scan over [identity :: permutations] finds what the scan over the
     permutations finds, the identity being the first of them *)
  assert (Hbest : best = first_min len (seq 0 n) rest).
  { unfold best. rewrite Hperms. unfold first_min. simpl fold_left.
    now rewrite lt_dist_irrefl. }
  destruct (first_min_spec len rest (seq 0 n))
    as (before & after & Hsplit & Hall & Hb & _).
  rewrite <- Hbest in Hsplit, Hall, Hb. rewrite <- Hperms in Hsplit, Hall.
  assert (Hbest_in : In best (permutations (seq 0 n))).
  { rewrite Hsplit. apply in_elt. }
  assert (Hbo : is_order n best) by now apply permutations_complete.
  assert (Hsorted := permutations_range_sorted n).
  rewrite Forall_forall in Hall, Hb.
  exists best. split; [reflexivity|]. split; [exact Hbo|].
  split; [|split].
  - intros p Hp. split; [|split].
    + apply order_distance_ok; [exact Hm|now apply order_in_range].
    + apply Hall. now apply permutations_complete.
    + intros Hp1 Hp2. apply le_dist_of_not_lt; auto.
      apply Hall. now apply permutations_complete.
  - exists before, after.
    split; [exact Hsplit|]. split; [now rewrite Hperms|].
    split; [exact Hsorted|].
    apply Forall_forall. exact Hb.
  - intros p Hp Heq.
    apply permutations_complete in Hp.
    rewrite Hsplit in Hp, Hsorted.
    apply in_app_or in Hp. destruct Hp as [Hp|[<-|Hp]].
    + exfalso. destruct (eq_dist_number _ _ Heq) as [Hnan _].
      pose proof (Hb _ Hp Hnan) as Hlt.
      destruct (eq_dist_not_lt _ _ Heq) as [_ Hno]. congruence.
    + now left.
    + right. eapply sorted_after; eassumption.
Qed.

(** ** The greedy construction *)

Lemma set_nth {A} (l l' : list A) (i j : nat) (v d : A) :
  set l i v = Ok l' ->
  nth j l' d = if j =? i then v else nth j l d.
Proof.
  revert i j l'. induction l as [|a l IH]; intros i j l' H; simpl in H.
  - discriminate.
  - destruct i as [|i].
    + injection H as <-. destruct j; reflexivity.
    + apply obind_ok in H. destruct H as (r & Hr & H). injection H as <-.
      destruct j as [|j]; [reflexivity|]. simpl. now apply IH.
Qed.

Lemma missing_index (n : nat) (l : list nat) :
  NoDup l -> length l < n ->
  ~ (forall j, j < n -> In j l).
Proof.
  intros Hnd Hlen Hall.
  assert (Hincl : incl (seq 0 n) l).
  { intros j Hj. apply in_seq in Hj. apply Hall. lia. }
  pose proof (NoDup_incl_length (seq_NoDup n 0) Hincl) as H.
  rewrite length_seq in H. lia.
Qed.

Section Greedy.

Variable metric : Coordinate -> Coordinate -> Q.
Variable waypoints : list Coordinate.
Variable visited : list bool.
Variable current : nat.

Hypothesis waypoints_measured : measured waypoints metric.
Hypothesis visited_length : length visited = length waypoints.
Hypothesis current_range : current < length waypoints.

Local Abbreviation dcur j :=
  (metric (nth current waypoints origin) (nth j waypoints origin)).

Lemma greedy_scan_step (a : nat) (s : dist * nat) :
  a < length waypoints -> scan_inv metric waypoints visited current a s ->
  exists s', greedy_scan waypoints visited current a s = Ok s'
             /\ scan_inv metric waypoints visited current (S a) s'.
Proof.
  intros Ha Hinv. unfold greedy_scan.
  rewrite (get_ok _ _ false) by lia. simpl obind.
  destruct (nth a visited false) eqn:Hv.
  - exists s. split; [reflexivity|].
    destruct Hinv as [(-> & Hall)|(np & -> & Hnp & Hnv & Hmin)].
    + left. split; [reflexivity|]. intros j Hj.
      destruct (Nat.eq_dec j a) as [->|]; [exact Hv|]. apply Hall. lia.
    + right. exists np. repeat split; try assumption; try lia.
      * destruct (Nat.eq_dec j a) as [->|]; [congruence|].
        apply Hmin; [lia|assumption].
      * destruct (Nat.eq_dec j a) as [->|]; [congruence|].
        apply Hmin; [lia|assumption].
  - rewrite (get_ok _ _ origin current_range), (get_ok _ _ origin Ha).
    simpl obind.
    rewrite (waypoints_measured _ _ (nth_In _ _ current_range)
                                (nth_In _ _ Ha)).
    simpl obind.
    destruct Hinv as [(-> & Hall)|(np & -> & Hnp & Hnv & Hmin)].
    + simpl. eexists. split; [reflexivity|].
      right. exists a. repeat split; try assumption; try lia.
      * destruct (Nat.eq_dec j a) as [->|]; [apply Qle_refl|].
        rewrite Hall in H0 by lia. discriminate.
      * intro Hlt. rewrite Hall in H0 by lia. discriminate.
    + simpl. destruct (Qltb (dcur a) (dcur np)) eqn:E.
      * apply Qltb_lt in E. eexists. split; [reflexivity|].
        right. exists a. repeat split; try assumption; try lia.
        -- destruct (Nat.eq_dec j a) as [->|]; [apply Qle_refl|].
           apply Qlt_le_weak, Qlt_le_trans with (y := dcur np); [exact E|].
           apply Hmin; [lia|assumption].
        -- intro Hlt. apply Qlt_le_trans with (y := dcur np); [exact E|].
           apply Hmin; [lia|assumption].
      * apply Qltb_ge in E. eexists. split; [reflexivity|].
        right. exists np. repeat split; try assumption; try lia.
        -- destruct (Nat.eq_dec j a) as [->|]; [exact E|].
           apply Hmin; [lia|assumption].
        -- destruct (Nat.eq_dec j a) as [->|]; [lia|].
           apply Hmin; [lia|assumption].
Qed.

Lemma greedy_scan_loop (len : nat) :
  forall (a : nat) (s : dist * nat),
    a + len <= length waypoints ->
    scan_inv metric waypoints visited current a s ->
    exists s', for_each (seq a len)
                        (greedy_scan waypoints visited current) s = Ok s'
               /\ scan_inv metric waypoints visited current (a + len) s'.
Proof.
  induction len as [|len IH]; intros a s Hlen Hinv; simpl.
  - exists s. rewrite Nat.add_0_r. auto.
  - destruct (greedy_scan_step a s) as (s1 & -> & H1);
      [lia|assumption|].
    simpl obind. destruct (IH (S a) s1) as (s' & Hrun & H'); [lia|assumption|].
    exists s'. split; [exact Hrun|].
    now replace (a + S len) with (S a + len) by lia.
Qed.

End Greedy.

Lemma last_as_nth {A} (l : list A) (d : A) :
  l <> [] -> nth (length l - 1) l d = last l d /\ In (last l d) l.
Proof.
  intro H. destruct (exists_last H) as (l' & a & ->).
  rewrite last_last, length_app. simpl.
  replace (length l' + 1 - 1) with (length l') by lia.
  rewrite nth_middle. split; [reflexivity|].
  apply in_or_app. right. now left.
Qed.

Lemma greedy_step_extends (metric : Coordinate -> Coordinate -> Q)
      (waypoints : list Coordinate)
      (placed : list nat) (s : greedy_state) :
  measured waypoints metric ->
  greedy_inv metric waypoints placed s ->
  length placed < length waypoints ->
  exists s' x,
    greedy_step waypoints (length waypoints) (length placed) s = Ok s'
    /\ greedy_inv metric waypoints (placed ++ [x]) s'.
Proof.
  intros Hm (Hpath & Hlp & Hlv & Hne & Hcur & Hnd & Hrange & Hvis & Hch) Hlt.
  destruct Hpath as (rest & Hpath).
  destruct (last_as_nth placed 0 Hne) as (Hlast & Hin_last).
  assert (Hc : g_current s < length waypoints).
  { rewrite Hcur. rewrite Forall_forall in Hrange. auto. }
  unfold greedy_step. rewrite range_0.
  destruct (greedy_scan_loop metric waypoints (g_visited s) (g_current s)
              Hm Hlv Hc (length waypoints) 0 (Inf, g_current s))
    as (bn & -> & Hscan).
  { lia. }
  { left. split; [reflexivity|]. intros; lia. }
  simpl obind. simpl in Hscan.
  destruct Hscan as [(_ & Hall)|(np & -> & Hnp & Hnv & Hmin)].
  { exfalso. apply (missing_index _ _ Hnd Hlt).
    intros j Hj. apply Hvis; auto. }
  simpl snd.
  assert (Hnot : ~ In np placed).
  { intro Hin. apply Hvis in Hin; [congruence|exact Hnp]. }
  assert (Hneq : np <> g_current s).
  { intros ->. apply Hnot. now rewrite Hcur. }
  replace (np =? g_current s) with false
    by (symmetry; now apply Nat.eqb_neq).
  simpl negb. cbv iota.
  destruct rest as [|r rest].
  { rewrite app_nil_r in Hpath. rewrite Hpath in Hlp. lia. }
  rewrite Hpath, set_at by reflexivity. simpl obind.
  destruct (set (g_visited s) np true) as [v| |] eqn:Hset;
    try (rewrite set_ok in Hset by lia; discriminate).
  simpl obind. exists {| g_path := placed ++ np :: rest; g_visited := v;
                         g_current := np |}, np.
  split; [reflexivity|].
  unfold greedy_inv. simpl g_path. simpl g_visited. simpl g_current.
  split_all.
  - exists rest. now rewrite <- app_assoc.
  - rewrite <- Hlp, Hpath, !length_app. reflexivity.
  - rewrite (set_length _ _ _ _ Hset). exact Hlv.
  - intro E. now destruct placed.
  - now rewrite last_last.
  - apply NoDup_app; [exact Hnd|repeat constructor; auto|].
    intros a Ha [<-|[]]. auto.
  - apply Forall_app. split; [exact Hrange|]. repeat constructor. exact Hnp.
  - intros j Hj. rewrite (set_nth _ _ _ j _ false Hset).
    destruct (Nat.eqb_spec j np) as [->|Hne'].
    + split; [|reflexivity]. intros _. apply in_or_app. right. now left.
    + rewrite (Hvis j Hj). split; intro H.
      * apply in_or_app. now left.
      * apply in_app_or in H. destruct H as [H|[<-|[]]]; congruence.
  - intros k Hk. rewrite length_app in Hk. simpl in Hk.
    destruct (Nat.eq_dec k (length placed)) as [->|Hk'].
    + rewrite firstn_app, firstn_all, Nat.sub_diag. simpl firstn.
      rewrite app_nil_r. rewrite app_nth1 by lia.
      rewrite Hlast, <- Hcur. rewrite nth_middle.
      unfold greedy_choice. split; [exact Hnp|]. split; [exact Hnot|].
      intros j Hj Hjn. apply Hmin; [assumption|].
      destruct (nth j (g_visited s) false) eqn:E; [|reflexivity].
      exfalso. apply Hjn. now apply Hvis.
    + rewrite firstn_app. replace (k - length placed) with 0 by lia.
      simpl firstn. rewrite app_nil_r.
      rewrite !app_nth1 by lia. apply Hch. lia.
Qed.

Lemma greedy_loop_completes (metric : Coordinate -> Coordinate -> Q)
      (waypoints : list Coordinate) (len : nat) :
  measured waypoints metric ->
  forall (placed : list nat) (s : greedy_state),
    greedy_inv metric waypoints placed s ->
    length placed + len = length waypoints ->
    exists s' more,
      for_each (seq (length placed) len)
               (greedy_step waypoints (length waypoints)) s = Ok s'
      /\ greedy_inv metric waypoints (placed ++ more) s'
      /\ length (placed ++ more) = length waypoints.
Proof.
  intro Hm.
  induction len as [|len IH]; intros placed s Hinv Hlen; simpl.
  - exists s, []. rewrite app_nil_r. split_all; auto. lia.
  - destruct (greedy_step_extends _ _ _ _ Hm Hinv) as (s1 & x & -> & H1);
      [lia|].
    simpl obind.
    destruct (IH (placed ++ [x]) s1 H1) as (s' & more & Hrun & H' & Hl').
    { rewrite length_app. simpl. lia. }
    rewrite length_app in Hrun. simpl in Hrun.
    replace (length placed + 1) with (S (length placed)) in Hrun by lia.
    exists s', (x :: more). rewrite <- app_assoc in H', Hl'. auto.
Qed.

(** On a non-empty waypoint list between whose points [calculate]
    returns numbers, whatever the generator yields,
    [construct_greedy_path] returns an order of [0..n-1] (each index
    once); it starts at the index drawn by [randint(0, n-1)], and every
    later position holds the nearest unvisited waypoint of its
    predecessor, the lowest index among the nearest ones. *)
Lemma construct_greedy_path_spec
      (metric : Coordinate -> Coordinate -> Q)
      (waypoints : list Coordinate) (g : rng) :
  waypoints <> [] ->
  measured waypoints metric ->
  let n := length waypoints in
  exists p g',
    construct_greedy_path waypoints g = Ok (p, g')
    /\ is_order n p
    /\ randint 0 (Z.of_nat n - 1) g = Ok (Z.of_nat (nth 0 p 0), g')
    /\ forall k, 1 <= k < n ->
                 greedy_choice metric waypoints (firstn k p)
                               (nth (k - 1) p 0) (nth k p 0).
Proof.
  intros Hne Hm n.
  assert (Hn : 0 < n).
  { destruct (Nat.eq_dec n 0) as [E|E]; [|lia].
    apply length_zero_iff_nil in E. congruence. }
  assert (Hrand : exists c g', randint 0 (Z.of_nat n - 1) g = Ok (c, g')
                               /\ (0 <= c < Z.of_nat n)%Z).
  { unfold randint.
    replace (Z.of_nat n - 1 <? 0)%Z with false
      by (symmetry; apply Z.ltb_ge; lia).
    destruct (draw g) as [x g'']. eexists _, _. split; [reflexivity|].
    pose proof (Z.mod_pos_bound (Z.of_N x) (Z.of_nat n - 1 - 0 + 1)). lia. }
  destruct Hrand as (c & g' & Hrand & Hc).
  unfold construct_greedy_path, bind. fold n. rewrite Hrand.
  set (current := Z.to_nat c).
  assert (Hcur : current < n) by (unfold current; lia).
  rewrite range_0.
  assert (Hseq : seq 0 n = 0 :: seq 1 (n - 1)).
  { destruct n; [lia|]. simpl. now rewrite Nat.sub_0_r. }
  rewrite Hseq. simpl set at 1. simpl obind.
  destruct (set (repeat false n) current true) as [v| |] eqn:Hset;
    try (rewrite set_ok in Hset by (rewrite repeat_length; lia);
         discriminate).
  simpl obind.
  set (s0 := {| g_path := current :: seq 1 (n - 1); g_visited := v;
                g_current := current |}).
  assert (Hinv : greedy_inv metric waypoints [current] s0).
  { unfold greedy_inv, s0. simpl. split_all.
    - now exists (seq 1 (n - 1)).
    - rewrite length_seq. fold n. lia.
    - rewrite (set_length _ _ _ _ Hset), repeat_length. reflexivity.
    - discriminate.
    - reflexivity.
    - repeat constructor. intros [].
    - repeat constructor. exact Hcur.
    - intros j Hj. rewrite (set_nth _ _ _ j _ false Hset).
      destruct (Nat.eqb_spec j current) as [->|Hne'].
      + split; [now left|reflexivity].
      + rewrite nth_repeat. split; [discriminate|].
        intros [<-|[]]. congruence.
    - intros k Hk. lia. }
  destruct (greedy_loop_completes metric waypoints (n - 1) Hm _ _ Hinv)
    as (s' & more & Hrun & H' & Hl'); [simpl; fold n; lia|].
  simpl length in Hrun. unfold range. fold n in Hrun. rewrite Hrun.
  simpl obind. unfold lift.
  destruct H' as ((rest & Hpath) & Hlp & _ & _ & _ & Hnd & Hrange & _ & Hch).
  assert (Hp : g_path s' = [current] ++ more).
  { rewrite Hpath in Hlp |- *. rewrite length_app in Hlp.
    destruct rest; [now rewrite app_nil_r|]. simpl in *. lia. }
  exists (g_path s'), g'. rewrite Hp. split_all.
  - reflexivity.
  - unfold is_order. symmetry. apply NoDup_Permutation_bis.
    + exact Hnd.
    + rewrite length_seq. fold n. lia.
    + intros j Hj. rewrite Forall_forall in Hrange.
      apply in_seq. specialize (Hrange _ Hj). fold n. lia.
  - simpl. unfold current. rewrite Z2Nat.id by lia. reflexivity.
  - intros k Hk. apply Hch. rewrite Hl'. exact Hk.
Qed.

(** ** 2-opt *)

Lemma for_each_app {X S} (xs ys : list X) (body : X -> S -> outcome S)
      (s : S) :
  for_each (xs ++ ys) body s
  = (s' <~ for_each xs body s ;; for_each ys body s').
Proof.
  revert s. induction xs as [|x xs IH]; intro s; simpl; [reflexivity|].
  destruct (body x s); simpl; auto.
Qed.

Lemma for_each_nested {X Y S} (xs : list X) (f : X -> list Y)
      (body : X -> Y -> S -> outcome S) (s : S) :
  for_each xs (fun x => for_each (f x) (body x)) s
  = for_each (flat_map (fun x => map (pair x) (f x)) xs)
             (fun m => body (fst m) (snd m)) s.
Proof.
  revert s. induction xs as [|x xs IH]; intro s; simpl; [reflexivity|].
  rewrite for_each_app.
  assert (E : forall ys s0,
             for_each ys (body x) s0
             = for_each (map (pair x) ys) (fun m => body (fst m) (snd m)) s0).
  { induction ys as [|y ys IHy]; intro s0; simpl; [reflexivity|].
    destruct (body x y s0); simpl; auto. }
  rewrite <- E. destruct (for_each (f x) (body x) s); simpl; auto.
Qed.

Lemma two_opt_sweep_moves (waypoints : list Coordinate) (n : nat)
      (s : two_opt_state) :
  two_opt_sweep waypoints n s
  = for_each (sweep_moves n)
             (fun m => two_opt_try waypoints (fst m) (snd m)) s.
Proof. apply for_each_nested. Qed.

Lemma sweep_moves_spec (n i j : nat) :
  In (i, j) (sweep_moves n) <-> 1 <= i < j /\ j < n.
Proof.
  unfold sweep_moves, range. rewrite in_flat_map. split.
  - intros (k & Hk & H). apply in_map_iff in H.
    destruct H as (y & E & Hy). injection E as -> ->.
    apply in_seq in Hk, Hy. lia.
  - intros (Hi & Hj). exists i. split.
    + apply in_seq. lia.
    + apply in_map, in_seq. lia.
Qed.

(** *** The same float or a smaller one *)

Lemma at_most_refl (a : dist) : at_most a a.
Proof. now left. Qed.

Lemma at_most_trans (a b c : dist) :
  at_most a b -> at_most b c -> at_most a c.
Proof.
  intros [->|H1] [->|H2]; try (now left); try (now right).
  right. exact (lt_dist_trans _ _ _ H1 H2).
Qed.

Lemma lt_at_most (a b c : dist) :
  lt_dist a b = true -> at_most b c -> lt_dist a c = true.
Proof.
  intros H [<-|H2]; [exact H|]. exact (lt_dist_trans _ _ _ H H2).
Qed.

Lemma at_most_lt (a b c : dist) :
  at_most a b -> lt_dist b c = true -> lt_dist a c = true.
Proof.
  intros [->|H1] H2; [exact H2|]. exact (lt_dist_trans _ _ _ H1 H2).
Qed.

(** The step of 2-opt: either nothing changes, or the reversal has been
    applied and the tracked distance is that of the new order, strictly
    below the previous one. *)
Lemma two_opt_try_cases (waypoints : list Coordinate) (i j : nat)
      (s s' : two_opt_state) :
  two_opt_try waypoints i j s = Ok s' ->
  s' = s
  \/ (two_opt_swap (t_path s) i j = Ok (t_path s')
      /\ order_distance waypoints (t_path s') = Ok (t_best_distance s')
      /\ lt_dist (t_best_distance s') (t_best_distance s) = true
      /\ t_improved s' = true).
Proof.
  unfold two_opt_try. intro H.
  apply obind_ok in H. destruct H as (q & Hq & H).
  apply obind_ok in H. destruct H as (d & Hd & H).
  destruct (lt_dist d (t_best_distance s)) eqn:E; injection H as <-.
  - right. simpl. auto.
  - now left.
Qed.

Lemma for_each_preserves {X S} (P : S -> Prop) (xs : list X)
      (body : X -> S -> outcome S) :
  (forall x s s', In x xs -> body x s = Ok s' -> P s -> P s') ->
  forall s s', for_each xs body s = Ok s' -> P s -> P s'.
Proof.
  induction xs as [|x xs IH]; intros Hstep s s' Hrun Hs; simpl in Hrun.
  - now injection Hrun as <-.
  - apply obind_ok in Hrun. destruct Hrun as (s1 & H1 & Hrun).
    apply (IH (fun y a b Hy => Hstep y a b (or_intror Hy)) s1 s' Hrun).
    apply (Hstep x s s1); auto. now left.
Qed.

Lemma two_opt_moves_monotone (waypoints : list Coordinate)
      (moves : list (nat * nat)) (s s' : two_opt_state) :
  for_each moves (fun m => two_opt_try waypoints (fst m) (snd m)) s = Ok s' ->
  at_most (t_best_distance s') (t_best_distance s).
Proof.
  intro H.
  eapply (for_each_preserves
            (fun a => at_most (t_best_distance a) (t_best_distance s)));
    [|exact H|apply at_most_refl].
  intros m a b _ Hm Ha. simpl in *.
  destruct (two_opt_try_cases _ _ _ _ _ Hm) as [->|(_ & _ & Hlt & _)];
    [exact Ha|].
  right. exact (lt_at_most _ _ _ Hlt Ha).
Qed.

Lemma two_opt_sweep_monotone (waypoints : list Coordinate) (n : nat)
      (s s' : two_opt_state) :
  two_opt_sweep waypoints n s = Ok s' ->
  at_most (t_best_distance s') (t_best_distance s).
Proof.
  rewrite two_opt_sweep_moves. apply two_opt_moves_monotone.
Qed.

Section TwoOpt.

Variable gauge : Coordinate -> Coordinate -> dist.
Variable waypoints : list Coordinate.
Variable p0 : list nat.
Hypothesis waypoints_gauged : gauged waypoints gauge.
Hypothesis p0_range : Forall (fun i => i < length waypoints) p0.

Lemma two_opt_inv_range (s : two_opt_state) :
  two_opt_inv gauge waypoints p0 s ->
  Forall (fun i => i < length waypoints) (t_path s).
Proof.
  intros [H _]. apply Forall_forall. intros i Hi.
  rewrite Forall_forall in p0_range.
  apply p0_range, (Permutation_in _ (Permutation_sym H)), Hi.
Qed.

Lemma two_opt_try_ok (i j : nat) (s : two_opt_state) :
  two_opt_inv gauge waypoints p0 s -> i <= j -> j < length p0 ->
  let q := reverse_segment (t_path s) i j in
  two_opt_try waypoints i j s
  = Ok (if lt_dist (tour gauge waypoints q) (t_best_distance s)
        then {| t_path := q; t_best_distance := tour gauge waypoints q;
                t_improved := true |}
        else s)
  /\ Permutation p0 q.
Proof.
  intros Hinv Hij Hj q.
  assert (Hperm : Permutation p0 q).
  { destruct Hinv as [H _]. rewrite H.
    now apply reverse_segment_permutation. }
  split; [|exact Hperm].
  unfold two_opt_try. rewrite two_opt_swap_spec.
  - simpl obind. fold q. rewrite (order_distance_gauged gauge).
    + simpl obind. now destruct (lt_dist _ _).
    + exact waypoints_gauged.
    + apply Forall_forall. intros k Hk. rewrite Forall_forall in p0_range.
      apply p0_range, (Permutation_in _ (Permutation_sym Hperm)), Hk.
  - exact Hij.
  - destruct Hinv as [H _]. now rewrite <- (Permutation_length H).
Qed.

(** A run of candidate moves under the invariant. *)
Lemma two_opt_moves_run (moves : list (nat * nat)) :
  forall s : two_opt_state,
    two_opt_inv gauge waypoints p0 s ->
    (forall m, In m moves -> fst m <= snd m /\ snd m < length p0) ->
    exists s',
      for_each moves (fun m => two_opt_try waypoints (fst m) (snd m)) s
      = Ok s'
      /\ two_opt_inv gauge waypoints p0 s'
      /\ (t_improved s' = true ->
          t_improved s = true
          \/ lt_dist (t_best_distance s') (t_best_distance s) = true)
      /\ (t_improved s' = false ->
          s' = s
          /\ forall m, In m moves ->
                       lt_dist (tour gauge waypoints
                                  (reverse_segment (t_path s) (fst m) (snd m)))
                               (t_best_distance s) = false).
Proof.
  induction moves as [|[i j] moves IH]; intros s Hinv Hmoves.
  - exists s. simpl. split; [reflexivity|]. split; [exact Hinv|].
    split; [auto|]. intros _. split; [reflexivity|]. intros m [].
  - destruct (Hmoves (i, j) (or_introl eq_refl)) as [Hij Hj].
    simpl in Hij, Hj.
    destruct (two_opt_try_ok i j s Hinv Hij Hj) as [Htry Hperm].
    simpl for_each. simpl fst. simpl snd. rewrite Htry. simpl obind.
    set (q := reverse_segment (t_path s) i j) in *.
    destruct (lt_dist (tour gauge waypoints q) (t_best_distance s)) eqn:E.
    + destruct (IH {| t_path := q;
                      t_best_distance := tour gauge waypoints q;
                      t_improved := true |})
        as (s' & Hrun & Hinv' & Himp & Hnot).
      { split; simpl; [exact Hperm|reflexivity]. }
      { intros m Hm. apply Hmoves. now right. }
      exists s'. rewrite Hrun. split_all; auto.
      * intros _. right.
        exact (at_most_lt _ _ _ (two_opt_moves_monotone _ _ _ _ Hrun) E).
      * intro H. destruct (Hnot H) as [-> _]. discriminate.
    + destruct (IH s Hinv) as (s' & Hrun & Hinv' & Himp & Hnot).
      { intros m Hm. apply Hmoves. now right. }
      exists s'. rewrite Hrun. split_all; auto.
      intro H. destruct (Hnot H) as [-> Hall]. split; [reflexivity|].
      intros m [<-|Hm]; [exact E|now apply Hall].
Qed.

Lemma filter_length_lt {X} (f g : X -> bool) (l : list X) (x0 : X) :
  (forall x, f x = true -> g x = true) ->
  In x0 l -> g x0 = true -> f x0 = false ->
  length (filter f l) < length (filter g l).
Proof.
  intros Hfg. 
  assert (Hle : forall l0, length (filter f l0) <= length (filter g l0)).
  { induction l0 as [|x l0 IH]; simpl; [lia|].
    destruct (f x) eqn:Ef.
    - rewrite (Hfg _ Ef). simpl. lia.
    - destruct (g x); simpl; lia. }
  induction l as [|x l IH]; intros Hin Hg Hf; [destruct Hin|].
  simpl. destruct Hin as [->|Hin].
  - rewrite Hf, Hg. simpl. specialize (Hle l). lia.
  - specialize (IH Hin Hg Hf). destruct (f x) eqn:Ef.
    + rewrite (Hfg _ Ef). simpl. lia.
    + destruct (g x); simpl; lia.
Qed.

Lemma count_below_decreases (s s' : two_opt_state) :
  two_opt_inv gauge waypoints p0 s' ->
  lt_dist (t_best_distance s') (t_best_distance s) = true ->
  count_below gauge waypoints p0 (t_best_distance s')
  < count_below gauge waypoints p0 (t_best_distance s).
Proof.
  intros [Hperm Hbest] Hlt. unfold count_below.
  apply filter_length_lt with (x0 := t_path s').
  - intros q Hq. exact (lt_dist_trans _ _ _ Hq Hlt).
  - now apply permutations_complete.
  - now rewrite <- Hbest.
  - rewrite <- Hbest. apply lt_dist_irrefl.
Qed.

Lemma count_below_bound (s : two_opt_state) :
  two_opt_inv gauge waypoints p0 s ->
  count_below gauge waypoints p0 (t_best_distance s) < fact (length p0).
Proof.
  intros [Hperm Hbest].
  rewrite <- (perms_of_length (length p0) p0 eq_refl).
  fold (permutations p0).
  unfold count_below.
  rewrite <- (filter_true (permutations p0)) at 2.
  apply filter_length_lt with (x0 := t_path s).
  - reflexivity.
  - now apply permutations_complete.
  - reflexivity.
  - rewrite <- Hbest. apply lt_dist_irrefl.
Qed.

Lemma two_opt_loop_stop (fuel n : nat) (s : two_opt_state) :
  t_improved s = false -> two_opt_loop fuel waypoints n s = Ok s.
Proof. intro H. destruct fuel; simpl; now rewrite H. Qed.

Lemma two_opt_loop_terminates (fuel : nat) :
  forall s : two_opt_state,
    two_opt_inv gauge waypoints p0 s -> t_improved s = true ->
    count_below gauge waypoints p0 (t_best_distance s) < fuel ->
    exists s',
      two_opt_loop fuel waypoints (length p0) s = Ok s'
      /\ two_opt_inv gauge waypoints p0 s'
      /\ at_most (t_best_distance s') (t_best_distance s)
      /\ forall i j, 1 <= i < j -> j < length p0 ->
                     lt_dist (tour gauge waypoints
                                (reverse_segment (t_path s') i j))
                             (t_best_distance s') = false.
Proof.
  induction fuel as [|fuel IH]; intros s Hinv Himp Hfuel; [lia|].
  simpl. rewrite Himp, two_opt_sweep_moves.
  set (s0 := {| t_path := t_path s; t_best_distance := t_best_distance s;
                t_improved := false |}).
  assert (Hinv0 : two_opt_inv gauge waypoints p0 s0) by exact Hinv.
  destruct (two_opt_moves_run (sweep_moves (length p0)) s0 Hinv0)
    as (s1 & -> & Hinv1 & Hyes & Hno).
  { intros [i j] Hm. apply sweep_moves_spec in Hm. simpl. lia. }
  simpl obind. destruct (t_improved s1) eqn:E1.
  - destruct (Hyes eq_refl) as [H|Hlt]; [discriminate|]. simpl in Hlt.
    destruct (IH s1 Hinv1 E1) as (s' & Hrun & Hinv' & Hle & Hopt).
    { pose proof (count_below_decreases s s1 Hinv1 Hlt). lia. }
    exists s'. split_all; auto.
    right. exact (at_most_lt _ _ _ Hle Hlt).
  - destruct (Hno eq_refl) as [-> Hall].
    exists s0. rewrite two_opt_loop_stop by reflexivity.
    split_all; auto using at_most_refl.
    intros i j Hij Hj. apply (Hall (i, j)). apply sweep_moves_spec. lia.
Qed.

End TwoOpt.

(** On an order of [0..n-1] of waypoints between which [calculate]
    returns, with fuel for [n!] sweeps, the 2-opt search returns:
    a rearrangement of its input whose route has the length of the
    input's or a smaller one and, when local search is enabled, that no
    reversal of a segment [i..j], [1 <= i < j <= n-1], makes strictly
    shorter.  A candidate move changes the state only by applying the
    reversal, with the length of the new route strictly below the tracked
    distance, and a sweep leaves the tracked distance or lowers it. *)
Lemma two_opt_optimize_spec
      (gauge : Coordinate -> Coordinate -> dist)
      (self : RoutePlanner) (waypoints : list Coordinate)
      (p : list nat) (fuel : nat) :
  is_order (length waypoints) p ->
  fact (length p) <= fuel ->
  gauged waypoints gauge ->
  let len := fun o => tour gauge waypoints o in
  exists q,
    two_opt_optimize fuel self waypoints p = Ok q
    /\ Permutation p q
    /\ at_most (len q) (len p)
    /\ (enable_local_search (config self) = true ->
        forall i j, 1 <= i < j -> j < length p ->
          lt_dist (len (reverse_segment q i j)) (len q) = false)
    /\ (forall i j s s',
          1 <= i < j -> j < length p ->
          two_opt_inv gauge waypoints p s ->
          two_opt_try waypoints i j s = Ok s' ->
          s' = s
          \/ (t_path s' = reverse_segment (t_path s) i j
              /\ t_best_distance s' = len (t_path s')
              /\ lt_dist (t_best_distance s') (t_best_distance s) = true
              /\ t_improved s' = true))
    /\ (forall s s',
          two_opt_inv gauge waypoints p s ->
          two_opt_sweep waypoints (length p) s = Ok s' ->
          two_opt_inv gauge waypoints p s'
          /\ at_most (t_best_distance s') (t_best_distance s)).
Proof.
  intros Hp Hfuel Hm len.
  assert (Hrange : Forall (fun i => i < length waypoints) p)
    by now apply order_in_range.
  assert (Htry : forall i j s s',
             1 <= i < j -> j < length p ->
             two_opt_inv gauge waypoints p s ->
             two_opt_try waypoints i j s = Ok s' ->
             s' = s
             \/ (t_path s' = reverse_segment (t_path s) i j
                 /\ t_best_distance s' = len (t_path s')
                 /\ lt_dist (t_best_distance s') (t_best_distance s) = true
                 /\ t_improved s' = true)).
  { intros i j s s' Hij Hj Hinv Hrun.
    destruct (two_opt_try_ok gauge waypoints p Hm Hrange i j s Hinv)
      as [E _]; [lia|exact Hj|].
    rewrite E in Hrun.
    destruct (lt_dist _ (t_best_distance s)) eqn:Elt;
      injection Hrun as <-; [right|now left].
    simpl. auto. }
  assert (Hsweep : forall s s',
             two_opt_inv gauge waypoints p s ->
             two_opt_sweep waypoints (length p) s = Ok s' ->
             two_opt_inv gauge waypoints p s'
             /\ at_most (t_best_distance s') (t_best_distance s)).
  { intros s s' Hinv Hrun.
    split; [|exact (two_opt_sweep_monotone _ _ _ _ Hrun)].
    rewrite two_opt_sweep_moves in Hrun.
    destruct (two_opt_moves_run gauge waypoints p Hm Hrange
                (sweep_moves (length p)) s Hinv)
      as (s1 & E & Hinv1 & _).
    { intros [i j] Hmv. apply sweep_moves_spec in Hmv. simpl. lia. }
    rewrite E in Hrun. now injection Hrun as <-. }
  unfold two_opt_optimize.
  destruct (enable_local_search (config self)) eqn:Els; simpl negb; cbv iota.
  - rewrite (order_distance_gauged gauge) by assumption. simpl obind.
    set (s0 := {| t_path := p; t_best_distance := tour gauge waypoints p;
                  t_improved := true |}).
    assert (Hinv0 : two_opt_inv gauge waypoints p s0) by (split; reflexivity).
    destruct (two_opt_loop_terminates gauge waypoints p Hm Hrange fuel s0
                                      Hinv0 eq_refl)
      as (s' & -> & Hinv' & Hle & Hopt).
    { pose proof (count_below_bound gauge waypoints p s0 Hinv0). lia. }
    simpl obind. destruct Hinv' as [Hperm Hbest].
    exists (t_path s'). unfold len.
    split_all; auto.
    + now rewrite <- Hbest.
    + intros _ i j Hij Hj. rewrite <- Hbest. now apply Hopt.
  - exists p. split_all; auto using at_most_refl. discriminate.
Qed.

(** ** Simulated annealing *)

Lemma bind_run {A B} (m : M A) (k : A -> M B) (g g1 : rng) (a : A) :
  m g = Ok (a, g1) -> bind m k g = k a g1.
Proof. unfold bind. now intros ->. Qed.

Lemma bind_ok {A B} (m : M A) (k : A -> M B) (g g' : rng) (b : B) :
  bind m k g = Ok (b, g') ->
  exists a g1, m g = Ok (a, g1) /\ k a g1 = Ok (b, g').
Proof.
  unfold bind. destruct (m g) as [[a g1]| |]; try discriminate. eauto.
Qed.

Lemma lift_ok {A} (m : outcome A) (g g' : rng) (a : A) :
  lift m g = Ok (a, g') -> m = Ok a /\ g' = g.
Proof.
  unfold lift. destruct m; try discriminate. intro H. now injection H as <- <-.
Qed.

Lemma randint_ok (a b : Z) (g : rng) :
  (a <= b)%Z ->
  exists x g', randint a b g = Ok (x, g') /\ (a <= x <= b)%Z.
Proof.
  intro H. unfold randint.
  replace (b <? a)%Z with false by (symmetry; apply Z.ltb_ge; lia).
  destruct (draw g) as [x g']. eexists _, _. split; [reflexivity|].
  pose proof (Z.mod_pos_bound (Z.of_N x) (b - a + 1)). lia.
Qed.

Lemma metropolis_ok (delta : dist) (t : Q) (g : rng) :
  exists b g', metropolis delta t g = Ok (b, g').
Proof.
  unfold metropolis.
  destruct (lt_dist delta (Fin 0)); [eexists _, _; reflexivity|].
  destruct (Qltb _ t); [|eexists _, _; reflexivity].
  unfold bind, random_random. destruct (draw g).
  eexists _, _; reflexivity.
Qed.

Lemma sa_iteration_ok (metric : Coordinate -> Coordinate -> Q)
      (waypoints : list Coordinate) (cooling : Q)
      (s : sa_state) (g : rng) :
  measured waypoints metric ->
  2 <= length waypoints ->
  sa_inv (length waypoints) s ->
  exists s' c g',
    sa_iteration waypoints (length waypoints) cooling s g = Ok ((s', c), g')
    /\ sa_inv (length waypoints) s'.
Proof.
  intros Hm Hn [Hcur Hbest]. unfold sa_iteration.
  set (n := length waypoints) in *.
  destruct (randint_ok 1 (Z.of_nat n - 1) g) as (i & g1 & Hi & Hir); [lia|].
  destruct (randint_ok 1 (Z.of_nat n - 1) g1) as (j & g2 & Hj & Hjr); [lia|].
  rewrite (bind_run _ _ _ _ _ Hi), (bind_run _ _ _ _ _ Hj).
  destruct (i =? j)%Z eqn:Eij.
  { exists s, Continue, g2. split; [reflexivity|now split]. }
  apply Z.eqb_neq in Eij.
  set (lo := if (j <? i)%Z then j else i).
  set (hi := if (j <? i)%Z then i else j).
  assert (Hlohi : (1 <= lo < hi)%Z /\ (hi <= Z.of_nat n - 1)%Z).
  { unfold lo, hi. destruct (Z.ltb_spec j i); lia. }
  assert (Hlen : length (current_path s) = n).
  { rewrite <- (Permutation_length Hcur). apply length_seq. }
  rewrite two_opt_swap_spec by lia.
  set (moved := reverse_segment (current_path s) (Z.to_nat lo) (Z.to_nat hi)).
  assert (Hmoved : is_order n moved).
  { unfold is_order. rewrite Hcur.
    apply reverse_segment_permutation. lia. }
  unfold lift at 1. unfold bind at 1.
  rewrite (order_distance_ok metric)
    by (try assumption; now apply order_in_range).
  unfold lift at 1. unfold bind at 1.
  destruct (metropolis_ok
              (dist_sub (tour (number metric) waypoints moved) (current_dist s))
              (temp s) g2)
    as (accept & g3 & Hacc).
  rewrite (bind_run _ _ _ _ _ Hacc).
  destruct accept.
  - destruct (lt_dist (tour (number metric) waypoints moved) (best_dist s));
      cbn [temp current_path current_dist best_path best_dist];
      match goal with
      | |- context [if ?c then _ else _] => destruct c
      end; eexists _, _, _; (split; [reflexivity|]); split; assumption.
  - cbn [temp current_path current_dist best_path best_dist].
    match goal with
    | |- context [if ?c then _ else _] => destruct c
    end; eexists _, _, _; (split; [reflexivity|]); split; assumption.
Qed.

Lemma sa_loop_ok (metric : Coordinate -> Coordinate -> Q)
      (waypoints : list Coordinate) (cooling : Q) (k : nat) :
  measured waypoints metric ->
  forall (s : sa_state) (g : rng),
    2 <= length waypoints ->
    sa_inv (length waypoints) s ->
    exists s' g',
      sa_loop k waypoints (length waypoints) cooling s g = Ok (s', g')
      /\ sa_inv (length waypoints) s'.
Proof.
  intro Hm.
  induction k as [|k IH]; intros s g Hn Hinv; simpl.
  - exists s, g. now split.
  - destruct (sa_iteration_ok metric waypoints cooling s g Hm Hn Hinv)
      as (s1 & c & g1 & Hit & Hinv1).
    rewrite (bind_run _ _ _ _ _ Hit). simpl snd. simpl fst.
    destruct c; try (now apply IH).
    exists s1, g1. now split.
Qed.

Lemma simulated_annealing_ok (metric : Coordinate -> Coordinate -> Q)
      (self : RoutePlanner) (waypoints : list Coordinate) (g : rng) :
  measured waypoints metric ->
  2 <= length waypoints ->
  exists p g',
    simulated_annealing self waypoints g = Ok (p, g')
    /\ is_order (length waypoints) p.
Proof.
  intros Hm Hn. unfold simulated_annealing, sa_init.
  assert (Hne : waypoints <> [])
    by (destruct waypoints; [simpl in Hn; lia|discriminate]).
  destruct (construct_greedy_path_spec metric waypoints g Hne Hm)
    as (p0 & g0 & Hgreedy & Hp0 & _).
  unfold bind, lift, ret. rewrite Hgreedy.
  rewrite (order_distance_ok metric)
    by (try assumption; now apply order_in_range).
  set (s0 := {| current_path := p0;
                current_dist := tour (number metric) waypoints p0;
                best_path := p0; best_dist := tour (number metric) waypoints p0;
                temp := initial_temperature (config self) |}).
  destruct (sa_loop_ok metric waypoints (cooling_rate (config self))
              (Z.to_nat (sa_max_iter self (length waypoints))) Hm s0 g0 Hn)
    as (s' & g' & Hrun & _ & Hbest); [now split|].
  rewrite Hrun.
  exists (best_path s'), g'. now split.
Qed.

(** ** The orchestrator *)

Lemma for_eachM_establish {X S} (P R : S -> Prop) (xs : list X)
      (body : X -> S -> M S) :
  (forall x s g, In x xs -> P s ->
                 exists s' g', body x s g = Ok (s', g') /\ R s') ->
  (forall s, R s -> P s) ->
  forall s g,
    P s ->
    exists s' g',
      for_eachM xs body s g = Ok (s', g')
      /\ (xs = [] /\ s' = s /\ g' = g \/ xs <> [] /\ R s').
Proof.
  intros Hbody HRP.
  induction xs as [|x xs IH]; intros s g Hs; simpl.
  - exists s, g. split; [reflexivity|]. now left.
  - destruct (Hbody x s g (or_introl eq_refl) Hs) as (s1 & g1 & -> & H1).
    destruct IH with (s := s1) (g := g1) as (s' & g' & Hrun & Hcase).
    + intros y a b Hy. apply Hbody. now right.
    + now apply HRP.
    + exists s', g'. split; [exact Hrun|]. right. split; [discriminate|].
      destruct Hcase as [(_ & -> & _)|[_ H]]; assumption.
Qed.

Lemma measured_waypoints (metric : Coordinate -> Coordinate -> Q)
      (starts waypoints ends : list Coordinate) :
  measured (starts ++ waypoints ++ ends) metric ->
  measured waypoints metric.
Proof.
  intro H. eapply measured_incl; [exact H|].
  intros a Ha. apply in_or_app. right. apply in_or_app. now left.
Qed.

Lemma measured_route (metric : Coordinate -> Coordinate -> Q)
      (starts waypoints ends : list Coordinate) (si ei : nat)
      (order : list nat) :
  measured (starts ++ waypoints ++ ends) metric ->
  si < length starts -> ei < length ends ->
  Forall (fun i => i < length waypoints) order ->
  measured (nth si starts origin
              :: points_of waypoints order ++ [nth ei ends origin]) metric.
Proof.
  intros H Hsi Hei Ho. eapply measured_incl; [exact H|].
  intros a [<-|Ha].
  - apply in_or_app. left. now apply nth_In.
  - apply in_app_or in Ha. destruct Ha as [Ha|[<-|[]]].
    + apply in_or_app. right. apply in_or_app. left.
      now apply (points_of_incl waypoints order).
    + apply in_or_app. right. apply in_or_app. right. now apply nth_In.
Qed.

(** The waypoint order used for one (start, end) pair. *)
Lemma plan_order_ok (metric : Coordinate -> Coordinate -> Q)
      (fuel : nat) (self : RoutePlanner)
      (waypoints : list Coordinate) (g : rng) :
  measured waypoints metric ->
  (12 < length waypoints -> fact (length waypoints) <= fuel) ->
  exists order g',
    plan_order fuel self waypoints g = Ok (order, g')
    /\ is_order (length waypoints) order.
Proof.
  intros Hm Hfuel. unfold plan_order.
  destruct (Nat.leb_spec (length waypoints) 12) as [Hn|Hn].
  - destruct (solve_exact_internal_spec metric self waypoints g Hn Hm)
      as (best & Hrun & Hbest & _).
    exists best, g. now split.
  - destruct (simulated_annealing_ok metric self waypoints g Hm)
      as (o & g' & Hsa & Ho); [lia|].
    unfold bind. rewrite Hsa.
    destruct (enable_local_search (config self)) eqn:Els.
    + assert (Hlen : length o = length waypoints).
      { rewrite <- (Permutation_length Ho). apply length_seq. }
      destruct (two_opt_optimize_spec (number metric) self waypoints o
                                      fuel Ho)
        as (q & Hopt & Hperm & _);
        [rewrite Hlen; auto|now apply measured_gauged|].
      unfold lift. rewrite Hopt. exists q, g'. split; [reflexivity|].
      unfold is_order in *. now rewrite Ho.
    + exists o, g'. now split.
Qed.

Lemma plan_pair_ok (metric : Coordinate -> Coordinate -> Q)
      (fuel : nat) (self : RoutePlanner)
      (starts waypoints ends : list Coordinate) (si ei : nat)
      (s : plan_state) (g : rng) :
  measured (starts ++ waypoints ++ ends) metric ->
  routes_bounded metric starts waypoints ends ->
  (12 < length waypoints -> fact (length waypoints) <= fuel) ->
  si < length starts -> ei < length ends ->
  s = plan_init \/ plan_good metric starts waypoints ends s ->
  exists s' g',
    plan_pair fuel self starts waypoints ends si ei s g = Ok (s', g')
    /\ plan_good metric starts waypoints ends s'.
Proof.
  intros Hm Hb Hfuel Hsi Hei Hs. unfold plan_pair.
  destruct (plan_order_ok metric fuel self waypoints g
              (measured_waypoints _ _ _ _ Hm) Hfuel)
    as (order & g' & Horder & Ho).
  unfold bind, lift, ret. rewrite Horder.
  rewrite (get_ok _ _ origin Hsi).
  rewrite extract_path_ok by (now apply order_in_range).
  rewrite (get_ok _ _ origin Hei).
  set (full := nth si starts origin
               :: points_of waypoints order ++ [nth ei ends origin]).
  rewrite (calculate_path_distance_measured metric full)
    by (apply measured_route; auto; now apply order_in_range).
  destruct (lt_dist (route_length (number metric) full) (best_total_distance s))
    eqn:E.
  - eexists _, _. split; [reflexivity|].
    unfold plan_good. simpl. split_all; auto.
    exists order. now split_all.
  - destruct Hs as [->|Hgood].
    + exfalso. simpl in E.
      pose proof (Hb si ei order Hsi Hei Ho) as Hlt.
      unfold through in Hlt. simpl in Hlt. fold full in Hlt. congruence.
    + exists s, g'. now split.
Qed.

Lemma plan_loops_ok (metric : Coordinate -> Coordinate -> Q)
      (fuel : nat) (self : RoutePlanner)
      (starts waypoints ends : list Coordinate) (g : rng) :
  measured (starts ++ waypoints ++ ends) metric ->
  routes_bounded metric starts waypoints ends ->
  (12 < length waypoints -> fact (length waypoints) <= fuel) ->
  starts <> [] -> ends <> [] ->
  exists s g',
    for_eachM (range 0 (length starts))
      (fun si =>
         for_eachM (range 0 (length ends))
                   (plan_pair fuel self starts waypoints ends si))
      plan_init g = Ok (s, g')
    /\ plan_good metric starts waypoints ends s.
Proof.
  intros Hm Hb Hfuel Hstarts Hends.
  set (P := fun s => s = plan_init
                     \/ plan_good metric starts waypoints ends s).
  assert (Hrange : forall (l : list Coordinate), l <> [] ->
                                                 range 0 (length l) <> []).
  { intros l Hl. rewrite range_0. destruct l; [congruence|discriminate]. }
  destruct (for_eachM_establish P (plan_good metric starts waypoints ends)
              (range 0 (length starts))
              (fun si => for_eachM (range 0 (length ends))
                           (plan_pair fuel self starts waypoints ends si)))
    with (s := plan_init) (g := g) as (s & g' & Hrun & Hcase).
  - intros si s0 g0 Hsi Hs0.
    destruct (for_eachM_establish P (plan_good metric starts waypoints ends)
                (range 0 (length ends))
                (plan_pair fuel self starts waypoints ends si))
      with (s := s0) (g := g0) as (s1 & g1 & Hrun1 & Hcase1).
    + intros ei s2 g2 Hei Hs2. apply (plan_pair_ok metric); auto.
      * rewrite range_0 in Hsi. apply in_seq in Hsi. lia.
      * rewrite range_0 in Hei. apply in_seq in Hei. lia.
    + intros; now right.
    + exact Hs0.
    + exists s1, g1. split; [exact Hrun1|].
      destruct Hcase1 as [(H & _)|[_ H]]; [|exact H].
      exfalso. exact (Hrange _ Hends H).
  - intros; now right.
  - now left.
  - exists s, g'. split; [exact Hrun|].
    destruct Hcase as [(H & _)|[_ H]]; [|exact H].
    exfalso. exact (Hrange _ Hstarts H).
Qed.

(** *** No waypoints: the nearest (start, end) pair *)

Lemma for_eachM_app {X S} (xs ys : list X) (body : X -> S -> M S)
      (s : S) (g : rng) :
  for_eachM (xs ++ ys) body s g
  = match for_eachM xs body s g with
    | Ok (s', g') => for_eachM ys body s' g'
    | Raise e => Raise e
    | OutOfFuel => OutOfFuel
    end.
Proof.
  revert s g. induction xs as [|x xs IH]; intros s g; simpl; [reflexivity|].
  destruct (body x s g) as [[s1 g1]| |]; auto.
Qed.

Lemma for_eachM_nested {X Y S} (xs : list X) (f : X -> list Y)
      (body : X -> Y -> S -> M S) (s : S) (g : rng) :
  for_eachM xs (fun x => for_eachM (f x) (body x)) s g
  = for_eachM (flat_map (fun x => map (pair x) (f x)) xs)
              (fun m => body (fst m) (snd m)) s g.
Proof.
  revert s g. induction xs as [|x xs IH]; intros s g; simpl; [reflexivity|].
  rewrite for_eachM_app.
  assert (E : forall ys s0 g0,
             for_eachM ys (body x) s0 g0
             = for_eachM (map (pair x) ys)
                         (fun m => body (fst m) (snd m)) s0 g0).
  { induction ys as [|y ys IHy]; intros s0 g0; simpl; [reflexivity|].
    destruct (body x y s0 g0) as [[s1 g1]| |]; auto. }
  rewrite <- E.
  destruct (for_eachM (f x) (body x) s g) as [[s1 g1]| |]; auto.
Qed.

Lemma all_pairs_spec (ns ne si ei : nat) :
  In (si, ei) (all_pairs ns ne) <-> si < ns /\ ei < ne.
Proof.
  unfold all_pairs. rewrite !range_0, in_flat_map. split.
  - intros (k & Hk & H). apply in_map_iff in H.
    destruct H as (y & E & Hy). injection E as -> ->.
    apply in_seq in Hk, Hy. lia.
  - intros (Hi & Hj). exists si. split.
    + apply in_seq. lia.
    + apply in_map, in_seq. lia.
Qed.

Lemma all_pairs_sorted (ns ne : nat) :
  StronglySorted pair_lt (all_pairs ns ne).
Proof.
  unfold all_pairs. rewrite !range_0.
  apply sorted_flat_map with (RX := lt).
  - apply seq_sorted.
  - intros x y a b Hxy Ha Hb.
    apply in_map_iff in Ha. destruct Ha as (a' & <- & _).
    apply in_map_iff in Hb. destruct Hb as (b' & <- & _).
    now left.
  - intros x _. pose proof (seq_sorted ne 0) as H.
    induction H as [|a l _ IHl Ha]; simpl; constructor; auto.
    rewrite Forall_map. revert Ha. apply Forall_impl.
    intros b Hb. right. now split.
Qed.

(** The two loops as a scan for the first pair of least cost. *)
Lemma plan_loop_first_min {X} (cost : X -> dist) (st : X -> plan_state)
      (body : X -> plan_state -> M plan_state) (g : rng)
      (Hst : forall m, best_total_distance (st m) = cost m)
      (rest : list X) :
  forall m0 : X,
    (forall m, In m rest ->
               forall s g0,
                 body m s g0
                 = Ok (if lt_dist (cost m) (best_total_distance s)
                       then st m else s, g0)) ->
    for_eachM rest body (st m0) g = Ok (st (first_min cost m0 rest), g).
Proof.
  induction rest as [|q rest IH]; intros m0 Hbody; [reflexivity|].
  simpl for_eachM. rewrite (Hbody q (or_introl eq_refl)).
  rewrite Hst. unfold first_min. simpl fold_left.
  destruct (lt_dist (cost q) (cost m0));
    apply IH; intros; apply Hbody; now right.
Qed.

Section Direct.

Variable metric : Coordinate -> Coordinate -> Q.
Variable fuel : nat.
Variable self : RoutePlanner.
Variables starts ends : list Coordinate.

Hypothesis points_measured : measured (starts ++ ends) metric.
Hypothesis zero : zero_neutral.

Lemma plan_order_empty (g : rng) : plan_order fuel self [] g = Ok ([], g).
Proof. reflexivity. Qed.

Lemma plan_pair_direct (m : nat * nat) (s : plan_state) (g : rng) :
  fst m < length starts -> snd m < length ends ->
  plan_pair fuel self starts [] ends (fst m) (snd m) s g
  = Ok (if lt_dist (Fin (direct metric starts ends m))
                   (best_total_distance s)
        then direct_state metric starts ends m else s, g).
Proof.
  intros Hsi Hei. unfold plan_pair, bind. rewrite plan_order_empty.
  unfold lift. rewrite (get_ok _ _ origin Hsi).
  simpl extract_path. cbv beta iota.
  rewrite (get_ok _ _ origin Hei). simpl app.
  assert (Hc : calculate (nth (fst m) starts origin)
                         (nth (snd m) ends origin)
               = Ok (Fin (direct metric starts ends m))).
  { apply points_measured; apply in_or_app; [left|right]; now apply nth_In. }
  unfold calculate_path_distance. simpl length. simpl Nat.ltb. cbv iota.
  simpl sum_legs. rewrite Hc. simpl obind. rewrite zero.
  change (2 <? 2) with false. cbv iota.
  unfold ret. now destruct (lt_dist _ _).
Qed.

End Direct.

(** With no waypoints, candidates on both sides between which
    [calculate] returns numbers, and [0.0 + x] being [x], [plan_route]
    returns the route through one start and one end, with their distance,
    and this pair is the first of minimal distance in the order of the
    two loops. *)
Lemma plan_route_direct_spec (metric : Coordinate -> Coordinate -> Q)
      (fuel : nat) (self : RoutePlanner)
      (start_time end_time : Q) (starts ends : list Coordinate) (g : rng) :
  starts <> [] -> ends <> [] ->
  measured (starts ++ ends) metric ->
  zero_neutral ->
  exists r,
    plan_route fuel self start_time end_time starts [] ends g = Ok (r, g)
    /\ start_index r < length starts
    /\ end_index r < length ends
    /\ let a := nth (start_index r) starts origin in
       let b := nth (end_index r) ends origin in
       path r = [a; b]
       /\ total_distance r = Fin (metric a b)
       /\ calculate a b = Ok (Fin (metric a b))
       /\ forall si ei,
            si < length starts -> ei < length ends ->
            let a' := nth si starts origin in
            let b' := nth ei ends origin in
            (metric a b <= metric a' b')%Q
            /\ (pair_lt (si, ei) (start_index r, end_index r) ->
                (metric a b < metric a' b')%Q).
Proof.
  intros Hs He Hm Hzero. unfold plan_route, bind, ret.
  rewrite for_eachM_nested. fold (all_pairs (length starts) (length ends)).
  assert (Hall := all_pairs_spec (length starts) (length ends)).
  assert (Hsorted := all_pairs_sorted (length starts) (length ends)).
  destruct (all_pairs (length starts) (length ends)) as [|m0 rest] eqn:Epairs.
  { exfalso. destruct starts; [congruence|]. destruct ends; [congruence|].
    specialize (Hall 0 0). simpl in Hall. apply Hall. lia. }
  assert (Hrange : forall m, In m (m0 :: rest) ->
                             fst m < length starts /\ snd m < length ends).
  { intros [si ei] Hmem. now apply Hall. }
  simpl for_eachM.
  rewrite (plan_pair_direct metric fuel self starts ends Hm Hzero)
    by (apply Hrange; now left).
  simpl lt_dist. cbv iota.
  rewrite (plan_loop_first_min
             (fun m => Fin (direct metric starts ends m))
             (direct_state metric starts ends)
             (fun m => plan_pair fuel self starts [] ends (fst m) (snd m))
             g (fun m => eq_refl) rest m0).
  2:{ intros q Hq s g0.
      apply (plan_pair_direct metric fuel self starts ends Hm Hzero);
        apply Hrange; now right. }
  destruct (first_min_spec (fun m => Fin (direct metric starts ends m))
                           rest m0)
    as (before & after & Hsplit & Hmin & Hb & _).
  set (m := first_min (fun m => Fin (direct metric starts ends m)) m0 rest)
    in *. clearbody m.
  eexists. split; [reflexivity|].
  cbn [start_index end_index path total_distance direct_state
       best_full_path best_total_distance best_start_idx best_end_idx].
  assert (Hmem : In m (m0 :: rest)) by (rewrite Hsplit; apply in_elt).
  split; [now apply Hrange|]. split; [now apply Hrange|].
  split; [reflexivity|]. split; [reflexivity|]. split.
  { apply Hm; apply in_or_app; [left|right]; apply nth_In;
      now apply Hrange. }
  intros si ei Hsi Hei.
  assert (Hq : In (si, ei) (m0 :: rest)) by (apply Hall; now split).
  rewrite Forall_forall in Hmin, Hb.
  split.
  - specialize (Hmin _ Hq). simpl in Hmin. now apply Qltb_ge in Hmin.
  - intro Hlt. rewrite Hsplit in Hq, Hsorted. apply in_app_or in Hq.
    destruct Hq as [Hq|[Hq|Hq]].
    + specialize (Hb _ Hq). simpl in Hb. apply Qltb_lt. apply Hb.
      discriminate.
    + exfalso. subst m. unfold pair_lt in Hlt. simpl in Hlt. lia.
    + exfalso.
      assert (Hgt : pair_lt m (si, ei)) by (eapply sorted_after; eassumption).
      destruct m as [mi me]. unfold pair_lt in *. simpl in *. lia.
Qed.

(** *** The route of [plan_route] *)

Lemma plan_route_spec (metric : Coordinate -> Coordinate -> Q)
      (fuel : nat) (self : RoutePlanner)
      (start_time end_time : Q) (starts waypoints ends : list Coordinate)
      (g : rng) :
  starts <> [] -> ends <> [] ->
  (12 < length waypoints -> fact (length waypoints) <= fuel) ->
  measured (starts ++ waypoints ++ ends) metric ->
  routes_bounded metric starts waypoints ends ->
  exists r g' a mid b order,
    plan_route fuel self start_time end_time starts waypoints ends g
    = Ok (r, g')
    /\ path r = a :: mid ++ [b]
    /\ length (path r) = length waypoints + 2
    /\ is_order (length waypoints) order
    /\ mid = points_of waypoints order
    /\ Permutation waypoints mid
    /\ In a starts
    /\ In b ends.
Proof.
  intros Hs He Hfuel Hm Hb.
  destruct (plan_loops_ok metric fuel self starts waypoints ends g
              Hm Hb Hfuel Hs He)
    as (s & g' & Hrun & Hsi & Hei & order & Ho & Hpath & _).
  unfold plan_route, bind, ret. rewrite Hrun.
  eexists _, g', (nth (best_start_idx s) starts origin),
    (points_of waypoints order), (nth (best_end_idx s) ends origin), order.
  split; [reflexivity|]. cbn [path]. split_all.
  - exact Hpath.
  - rewrite Hpath. simpl. rewrite length_app. unfold points_of.
    rewrite length_map, <- (Permutation_length Ho), length_seq. simpl. lia.
  - exact Ho.
  - reflexivity.
  - now apply points_of_permutation.
  - now apply nth_In.
  - now apply nth_In.
Qed.

(** Without candidates on one side the loops have no pair to try. *)
Lemma plan_route_no_candidates (fuel : nat) (self : RoutePlanner)
      (start_time end_time : Q) (starts waypoints ends : list Coordinate)
      (g : rng) :
  starts = [] \/ ends = [] ->
  plan_route fuel self start_time end_time starts waypoints ends g
  = Ok ({| path := []; total_distance := Inf;
           execution_time_ms := ((end_time - start_time) * 1000)%Q;
           start_index := 0; end_index := 0 |}, g).
Proof.
  intro H. unfold plan_route, bind, ret.
  assert (E : for_eachM (range 0 (length starts))
                (fun si => for_eachM (range 0 (length ends))
                             (plan_pair fuel self starts waypoints ends si))
                plan_init g = Ok (plan_init, g)).
  { destruct H as [->| ->]; [reflexivity|]. simpl length.
    generalize (range 0 (length starts)).
    induction l as [|x l IH]; simpl; auto. }
  now rewrite E.
Qed.

(** *** The cache flag *)

Lemma plan_route_same_parameters (fuel : nat) (self1 self2 : RoutePlanner)
      (start_time end_time : Q) (starts waypoints ends : list Coordinate)
      (g : rng) :
  cooling_rate (config self1) = cooling_rate (config self2) ->
  initial_temperature (config self1) = initial_temperature (config self2) ->
  max_iterations (config self1) = max_iterations (config self2) ->
  enable_local_search (config self1) = enable_local_search (config self2) ->
  plan_route fuel self1 start_time end_time starts waypoints ends g
  = plan_route fuel self2 start_time end_time starts waypoints ends g.
Proof.
  destruct self1 as [[ps1 c1 t1 m1 u1 e1] d1].
  destruct self2 as [[ps2 c2 t2 m2 u2 e2] d2].
  simpl. intros -> -> -> ->.
  unfold plan_route, plan_pair, plan_order, solve_exact_internal,
    two_opt_optimize, simulated_annealing, sa_init, sa_max_iter.
  reflexivity.
Qed.

(** *** Temperature *)

Lemma sa_iteration_cases (waypoints : list Coordinate) (n : nat)
      (cooling : Q) (s s' : sa_state) (c : control) (g g' : rng) :
  sa_iteration waypoints n cooling s g = Ok ((s', c), g') ->
  match c with
  | Continue => s' = s
  | Next => temp s' = (temp s * cooling)%Q /\ Qltb (temp s') 1 = false
  | Break => temp s' = (temp s * cooling)%Q /\ Qltb (temp s') 1 = true
  end.
Proof.
  unfold sa_iteration. intro H.
  apply bind_ok in H. destruct H as (i & g1 & _ & H).
  apply bind_ok in H. destruct H as (j & g2 & _ & H).
  destruct (i =? j)%Z.
  { injection H as <- <- _. reflexivity. }
  apply bind_ok in H. destruct H as (moved & g3 & _ & H).
  apply bind_ok in H. destruct H as (new_dist & g4 & _ & H).
  apply bind_ok in H. destruct H as (accept & g5 & _ & H).
  destruct accept; [destruct (lt_dist new_dist (best_dist s))|];
    cbn [temp current_path current_dist best_path best_dist] in H;
    destruct (Qltb (temp s * cooling) 1) eqn:E;
    injection H as <- <- _; simpl; auto.
Qed.

Lemma sa_run_temperature (waypoints : list Coordinate) (n : nat)
      (cooling : Q) (k m : nat) (s s' : sa_state) (g g' : rng) :
  sa_run waypoints n cooling k m (s, g) (s', g') ->
  sa_loop k waypoints n cooling s g = Ok (s', g')
  /\ m <= k
  /\ (temp s' == temp s * cooling ^ Z.of_nat m)%Q.
Proof.
  intro H.
  remember (s, g) as sg eqn:Esg. remember (s', g') as sg' eqn:Esg'.
  revert s g Esg. induction H as [sg|k m s0 g0 s1 g1 sg' Hit Hrun IH
                                    |k m s0 g0 s1 g1 sg' Hit Hrun IH];
    intros s g Esg; subst.
  - injection Esg as <- <-. split; [reflexivity|]. split; [lia|].
    simpl. now rewrite Qmult_1_r.
  - injection Esg as <- <-.
    destruct (IH eq_refl s1 g1 eq_refl) as (Hloop & Hle & Htemp).
    apply sa_iteration_cases in Hit as Hcase. simpl in Hcase. subst s1.
    split; [|split; [lia|exact Htemp]].
    simpl. unfold bind. now rewrite Hit.
  - injection Esg as <- <-.
    destruct (IH eq_refl s1 g1 eq_refl) as (Hloop & Hle & Htemp).
    apply sa_iteration_cases in Hit as Hcase. simpl in Hcase.
    destruct Hcase as [Hcool _].
    split; [|split; [lia|]].
    + simpl. unfold bind. now rewrite Hit.
    + rewrite Htemp, Hcool.
      replace (Z.of_nat (S m)) with (Z.of_nat m + 1)%Z by lia.
      rewrite Qpower_plus' by lia. rewrite Qpower_1_r. ring.
Qed.

Lemma sa_iteration_continue_iff (waypoints : list Coordinate) (n : nat)
      (cooling : Q) (s s' : sa_state) (g g' : rng) :
  sa_iteration waypoints n cooling s g = Ok ((s', Continue), g')
  <-> exists i g1,
        randint 1 (Z.of_nat n - 1) g = Ok (i, g1)
        /\ randint 1 (Z.of_nat n - 1) g1 = Ok (i, g')
        /\ s' = s.
Proof.
  unfold sa_iteration. split.
  - intro H.
    apply bind_ok in H. destruct H as (i & g1 & Hi & H).
    apply bind_ok in H. destruct H as (j & g2 & Hj & H).
    destruct (Z.eqb_spec i j) as [->|Hne].
    + injection H as <- <-. now exists j, g1.
    + exfalso.
      apply bind_ok in H. destruct H as (moved & g3 & _ & H).
      apply bind_ok in H. destruct H as (new_dist & g4 & _ & H).
      apply bind_ok in H. destruct H as (accept & g5 & _ & H).
      destruct accept; [destruct (lt_dist new_dist (best_dist s))|];
        cbn [temp] in H;
        destruct (Qltb (temp s * cooling) 1); discriminate.
  - intros (i & g1 & Hi & Hj & ->). unfold bind.
    rewrite Hi, Hj, Z.eqb_refl. reflexivity.
Qed.

(** *** The acceptance rule *)

Lemma sa_iteration_metropolis (waypoints : list Coordinate) (n : nat)
      (cooling : Q) (s s' : sa_state) (c : control) (g g' : rng) :
  sa_iteration waypoints n cooling s g = Ok ((s', c), g') ->
  c <> Continue ->
  exists moved new_dist g2,
    sa_move waypoints n s g moved new_dist g2
    /\ let delta := dist_sub new_dist (current_dist s) in
       (lt_dist delta (Fin 0) = true ->
        sa_accepted s s' moved new_dist /\ g' = g2)
       /\ (lt_dist delta (Fin 0) = false -> (1 # 1000000000 < temp s)%Q ->
           exists u,
             random_random g2 = Ok (u, g')
             /\ if below_boltzmann u delta (temp s)
                then sa_accepted s s' moved new_dist
                else sa_rejected s s')
       /\ (lt_dist delta (Fin 0) = false ->
           ~ (1 # 1000000000 < temp s)%Q ->
           sa_rejected s s' /\ g' = g2).
Proof.
  unfold sa_iteration. intros H Hc.
  apply bind_ok in H. destruct H as (i & g1 & Hi & H).
  apply bind_ok in H. destruct H as (j & g2 & Hj & H).
  destruct (Z.eqb_spec i j) as [->|Hne].
  { injection H as _ <- _. congruence. }
  apply bind_ok in H. destruct H as (moved & g3 & Hswap & H).
  apply lift_ok in Hswap. destruct Hswap as [Hswap ->].
  apply bind_ok in H. destruct H as (new_dist & g4 & Hdist & H).
  apply lift_ok in Hdist. destruct Hdist as [Hdist ->].
  apply bind_ok in H. destruct H as (accept & g5 & Hacc & H).
  exists moved, new_dist, g2. split.
  { exists i, j, g1. split_all; auto.
    rewrite <- Hswap. destruct (Z.ltb_spec j i).
    - now rewrite Z.min_r, Z.max_l by lia.
    - now rewrite Z.min_l, Z.max_r by lia. }
  assert (Hg : g' = g5).
  { destruct accept; [destruct (lt_dist new_dist (best_dist s))|];
      cbn [temp] in H; destruct (Qltb (temp s * cooling) 1);
      now injection H as _ _ <-. }
  assert (Hs : if accept then sa_accepted s s' moved new_dist
               else sa_rejected s s').
  { destruct accept; [destruct (lt_dist new_dist (best_dist s))|];
      cbn [temp current_path current_dist best_path best_dist] in H;
      destruct (Qltb (temp s * cooling) 1);
      injection H as <- _ _; simpl;
      unfold sa_accepted, sa_rejected; simpl; auto. }
  subst g5. clear H. unfold metropolis in Hacc.
  cbv zeta. split_all.
  - intro Hd. rewrite Hd in Hacc.
    injection Hacc as <- <-. now split.
  - intros Hd Ht. rewrite Hd in Hacc.
    apply Qltb_lt in Ht. rewrite Ht in Hacc.
    apply bind_ok in Hacc. destruct Hacc as (u & g3 & Hu & Hacc).
    injection Hacc as <- <-. exists u. now split.
  - intros Hd Ht. rewrite Hd in Hacc.
    replace (Qltb (1 # 1000000000) (temp s)) with false in Hacc
      by (symmetry; apply Qltb_ge, Qnot_lt_le, Ht).
    injection Hacc as <- <-. now split.
Qed.

(** The rule as it reads when both distances are numbers, and as it
    reads of any two floats. *)
Lemma sa_iteration_metropolis_both (waypoints : list Coordinate)
      (n : nat) (cooling : Q) (s s' : sa_state) (c : control)
      (g g' : rng) :
  sa_iteration waypoints n cooling s g = Ok ((s', c), g') ->
  c <> Continue ->
  exists moved new_dist g2,
    sa_move waypoints n s g moved new_dist g2
    /\ (forall d d0,
          new_dist = Fin d -> current_dist s = Fin d0 ->
          let delta := (d - d0)%Q in
          ((delta < 0)%Q -> sa_accepted s s' moved new_dist /\ g' = g2)
          /\ (~ (delta < 0)%Q -> (1 # 1000000000 < temp s)%Q ->
              exists u,
                random_random g2 = Ok (u, g')
                /\ if Qltb u (exp (Qdiv (Qopp delta) (temp s)))
                   then sa_accepted s s' moved new_dist
                   else sa_rejected s s')
          /\ (~ (delta < 0)%Q -> ~ (1 # 1000000000 < temp s)%Q ->
              sa_rejected s s' /\ g' = g2))
    /\ let delta := dist_sub new_dist (current_dist s) in
       (lt_dist delta (Fin 0) = true ->
        sa_accepted s s' moved new_dist /\ g' = g2)
       /\ (lt_dist delta (Fin 0) = false -> (1 # 1000000000 < temp s)%Q ->
           exists u,
             random_random g2 = Ok (u, g')
             /\ if below_boltzmann u delta (temp s)
                then sa_accepted s s' moved new_dist
                else sa_rejected s s')
       /\ (lt_dist delta (Fin 0) = false ->
           ~ (1 # 1000000000 < temp s)%Q ->
           sa_rejected s s' /\ g' = g2).
Proof.
  intros H Hc.
  destruct (sa_iteration_metropolis waypoints n cooling s s' c g g' H Hc)
    as (moved & new_dist & g2 & Hmove & Hrule).
  exists moved, new_dist, g2. split; [exact Hmove|]. split; [|exact Hrule].
  intros d d0 -> Hd0 delta. rewrite Hd0 in Hrule.
  cbv zeta in Hrule. simpl dist_sub in Hrule. simpl lt_dist in Hrule.
  fold delta in Hrule. destruct Hrule as (H1 & H2 & H3).
  split_all.
  - intro Hlt. apply H1. now apply Qltb_lt.
  - intros Hge Ht. apply H2; [|exact Ht].
    apply Qltb_ge. now apply Qnot_lt_le.
  - intros Hge Ht. apply H3; [|exact Ht].
    apply Qltb_ge. now apply Qnot_lt_le.
Qed.

(** *** Position 0 of an order *)

Lemma reverse_segment_head (p : list nat) (i j : nat) :
  1 <= i -> nth 0 (reverse_segment p i j) 0 = nth 0 p 0.
Proof.
  intro Hi. unfold reverse_segment.
  destruct p as [|x p].
  - now rewrite firstn_nil, !skipn_nil, firstn_nil.
  - destruct i as [|i]; [lia|]. reflexivity.
Qed.

Lemma two_opt_swap_head (p q : list nat) (i j : nat) :
  1 <= i -> two_opt_swap p i j = Ok q -> nth 0 q 0 = nth 0 p 0.
Proof.
  intros Hi H.
  destruct (Nat.lt_ge_cases i j) as [Hij|Hij].
  - destruct (Nat.lt_ge_cases j (length p)) as [Hj|Hj].
    + rewrite two_opt_swap_spec in H by lia. injection H as <-.
      now apply reverse_segment_head.
    + exfalso. unfold two_opt_swap in H. destruct j as [|j]; [lia|].
      simpl in H.
      replace (i <? S j) with true in H by (symmetry; apply Nat.ltb_lt; lia).
      unfold get at 1 in H.
      now rewrite (proj2 (nth_error_None p (S j)) Hj) in H.
  - unfold two_opt_swap in H. rewrite two_opt_swap_loop_stop in H by exact Hij.
    now injection H as <-.
Qed.

Lemma two_opt_try_head (waypoints : list Coordinate) (i j : nat)
      (s s' : two_opt_state) :
  1 <= i -> two_opt_try waypoints i j s = Ok s' ->
  nth 0 (t_path s') 0 = nth 0 (t_path s) 0.
Proof.
  intros Hi H. unfold two_opt_try in H.
  apply obind_ok in H. destruct H as (q & Hq & H).
  apply obind_ok in H. destruct H as (d & _ & H).
  destruct (lt_dist d (t_best_distance s)); injection H as <-; [|reflexivity].
  simpl. now apply (two_opt_swap_head _ _ i j).
Qed.

Lemma two_opt_sweep_head (waypoints : list Coordinate) (n : nat)
      (s s' : two_opt_state) :
  two_opt_sweep waypoints n s = Ok s' ->
  nth 0 (t_path s') 0 = nth 0 (t_path s) 0.
Proof.
  rewrite two_opt_sweep_moves. intro H.
  eapply (for_each_preserves
            (fun a => nth 0 (t_path a) 0 = nth 0 (t_path s) 0));
    [|exact H|reflexivity].
  intros [i j] a b Hm Hb Ha. simpl in Hb.
  apply sweep_moves_spec in Hm. rewrite <- Ha.
  apply (two_opt_try_head waypoints i j); [lia|exact Hb].
Qed.

Lemma two_opt_loop_head (waypoints : list Coordinate) (n fuel : nat) :
  forall s s',
    two_opt_loop fuel waypoints n s = Ok s' ->
    nth 0 (t_path s') 0 = nth 0 (t_path s) 0.
Proof.
  induction fuel as [|fuel IH]; intros s s' H; simpl in H;
    destruct (t_improved s); try discriminate;
    try (now injection H as <-).
  apply obind_ok in H. destruct H as (s1 & Hsweep & H).
  rewrite (IH _ _ H). now rewrite (two_opt_sweep_head _ _ _ _ Hsweep).
Qed.

Lemma two_opt_optimize_head (fuel : nat) (self : RoutePlanner)
      (waypoints : list Coordinate) (p q : list nat) :
  two_opt_optimize fuel self waypoints p = Ok q ->
  nth 0 q 0 = nth 0 p 0.
Proof.
  unfold two_opt_optimize. intro Hrun.
  destruct (negb (enable_local_search (config self))).
  - now injection Hrun as <-.
  - apply obind_ok in Hrun. destruct Hrun as (d & _ & Hrun).
    apply obind_ok in Hrun. destruct Hrun as (s & Hloop & Hrun).
    injection Hrun as <-.
    now rewrite (two_opt_loop_head _ _ _ _ _ Hloop).
Qed.

Lemma randint_range (a b x : Z) (g g' : rng) :
  randint a b g = Ok (x, g') -> (a <= x <= b)%Z.
Proof.
  unfold randint. destruct (Z.ltb_spec b a) as [H|H]; [discriminate|].
  destruct (draw g) as [y g1]. intro E. injection E as <- _.
  pose proof (Z.mod_pos_bound (Z.of_N y) (b - a + 1)). lia.
Qed.

Lemma sa_iteration_head (waypoints : list Coordinate) (n : nat)
      (cooling : Q) (h : nat) (s s' : sa_state) (c : control)
      (g g' : rng) :
  sa_iteration waypoints n cooling s g = Ok ((s', c), g') ->
  nth 0 (current_path s) 0 = h /\ nth 0 (best_path s) 0 = h ->
  nth 0 (current_path s') 0 = h /\ nth 0 (best_path s') 0 = h.
Proof.
  unfold sa_iteration. intros H [Hc Hb].
  apply bind_ok in H. destruct H as (i & g1 & Hi & H).
  apply bind_ok in H. destruct H as (j & g2 & Hj & H).
  apply randint_range in Hi, Hj.
  destruct (i =? j)%Z.
  { injection H as <- _ _. now split. }
  apply bind_ok in H. destruct H as (moved & g3 & Hm & H).
  apply lift_ok in Hm. destruct Hm as [Hm _].
  apply two_opt_swap_head in Hm;
    [|destruct (j <? i)%Z; lia].
  apply bind_ok in H. destruct H as (new_dist & g4 & _ & H).
  apply bind_ok in H. destruct H as (accept & g5 & _ & H).
  destruct accept; [destruct (lt_dist new_dist (best_dist s))|];
    cbn [temp current_path current_dist best_path best_dist] in H;
    destruct (Qltb (temp s * cooling) 1);
    injection H as <- _ _; simpl; split; congruence.
Qed.

Lemma sa_loop_head (waypoints : list Coordinate) (n : nat) (cooling : Q)
      (h k : nat) :
  forall (s s' : sa_state) (g g' : rng),
    sa_loop k waypoints n cooling s g = Ok (s', g') ->
    nth 0 (current_path s) 0 = h /\ nth 0 (best_path s) 0 = h ->
    nth 0 (current_path s') 0 = h /\ nth 0 (best_path s') 0 = h.
Proof.
  induction k as [|k IH]; intros s s' g g' H Hs; simpl in H.
  - unfold ret in H. now injection H as <- _.
  - apply bind_ok in H. destruct H as ([s1 c] & g1 & Hit & H).
    apply (sa_iteration_head _ _ _ h) in Hit; [|exact Hs].
    simpl in H. destruct c.
    + now apply (IH _ _ _ _ H).
    + now apply (IH _ _ _ _ H).
    + unfold ret in H. now injection H as <- _.
Qed.

(** The order [simulated_annealing] returns starts with the index
    [construct_greedy_path] takes from the generator. *)
Lemma simulated_annealing_head (metric : Coordinate -> Coordinate -> Q)
      (self : RoutePlanner) (waypoints : list Coordinate) (g : rng) :
  measured waypoints metric ->
  2 <= length waypoints ->
  exists p g' g0,
    simulated_annealing self waypoints g = Ok (p, g')
    /\ is_order (length waypoints) p
    /\ randint 0 (Z.of_nat (length waypoints) - 1) g
       = Ok (Z.of_nat (nth 0 p 0), g0).
Proof.
  intros Hm Hn.
  destruct (simulated_annealing_ok metric self waypoints g Hm Hn)
    as (p & g' & Hrun & Hp).
  assert (Hne : waypoints <> [])
    by (destruct waypoints; [simpl in Hn; lia|discriminate]).
  destruct (construct_greedy_path_spec metric waypoints g Hne Hm)
    as (p0 & g0 & Hgreedy & _ & Hdraw & _).
  exists p, g', g0. split; [exact Hrun|]. split; [exact Hp|].
  unfold simulated_annealing, sa_init in Hrun.
  apply bind_ok in Hrun. destruct Hrun as (s0 & g1 & Hinit & Hrun).
  apply bind_ok in Hinit. destruct Hinit as (p1 & g2 & Hp1 & Hinit).
  rewrite Hgreedy in Hp1. injection Hp1 as <- <-.
  apply bind_ok in Hinit. destruct Hinit as (d & g3 & _ & Hinit).
  unfold ret in Hinit. injection Hinit as <- _.
  apply bind_ok in Hrun. destruct Hrun as (s & g4 & Hloop & Hrun).
  unfold ret in Hrun. injection Hrun as <- _.
  apply (sa_loop_head _ _ _ (nth 0 p0 0)) in Hloop; [|now split].
  destruct Hloop as [_ ->]. exact Hdraw.
Qed.

(** *** Reproducibility *)

(** A session that seeds the generator after the planner is built runs
    [simulated_annealing] from the state the seed determines, whatever
    the entropy and the earlier state: two such sessions end alike.  On
    two or more waypoints between which [calculate] returns numbers the
    run returns an order of [0..n-1] whose first index is the first draw
    from that state. *)
Lemma seeded_session_replay (metric : Coordinate -> Coordinate -> Q)
      (seeded : Z -> rng) (cfg : AlgorithmConfig)
      (seed : Z) (waypoints : list Coordinate)
      (entropy1 entropy2 g1 g2 : rng) :
  let n := length waypoints in
  let self := {| config := cfg;
                 dist_calc := DistanceCalculator_init (use_cache cfg) |} in
  seeded_session seeded entropy1 cfg seed waypoints g1
  = seeded_session seeded entropy2 cfg seed waypoints g2
  /\ seeded_session seeded entropy1 cfg seed waypoints g1
     = simulated_annealing self waypoints (seeded seed)
  /\ (measured waypoints metric ->
      2 <= n ->
      exists p g' g0,
        seeded_session seeded entropy1 cfg seed waypoints g1 = Ok (p, g')
        /\ seeded_session seeded entropy2 cfg seed waypoints g2 = Ok (p, g')
        /\ is_order n p
        /\ randint 0 (Z.of_nat n - 1) (seeded seed)
           = Ok (Z.of_nat (nth 0 p 0), g0)
        /\ order_distance waypoints p = Ok (tour (number metric) waypoints p)).
Proof.
  intros n self. split; [reflexivity|]. split; [reflexivity|].
  intros Hm Hn.
  destruct (simulated_annealing_head metric self waypoints (seeded seed)
                                     Hm Hn)
    as (p & g' & g0 & Hrun & Hp & Hdraw).
  exists p, g', g0. split_all; auto.
  apply order_distance_ok; [exact Hm|now apply order_in_range].
Qed.

(** * The specification's claims *)




(** C4 (as amended). When the start list or the end list is empty,
    [plan_route] raises nothing: it tries no pair, leaves the generator
    untouched and returns the initial values, an empty path with distance
    [float('inf')] and both indices 0. *)
Theorem plan_route_empty_candidates
        (fuel : nat) (self : RoutePlanner) (start_time end_time : Q)
        (starts waypoints ends : list Coordinate) (g : rng) :
  starts = [] \/ ends = [] ->
  plan_route fuel self start_time end_time starts waypoints ends g
  = Ok ({| path := []; total_distance := Inf;
           execution_time_ms := ((end_time - start_time) * 1000)%Q;
           start_index := 0; end_index := 0 |}, g).
Proof.
  exact (plan_route_no_candidates fuel self start_time end_time
                                  starts waypoints ends g).
Qed.




(** C8 (as amended). In a pass that performs a move, where the two
    distances are numbers, the move is accepted without reading the
    generator when the distance delta is negative; when it is zero or
    positive it is accepted exactly when the temperature exceeds 1e-9 and
    the number drawn by [random.random()] is below [exp(-delta / T)], and
    rejected otherwise; a rejected move leaves the current order, its
    distance and the best-known pair as they were before the move.  The
    same holds of any two floats, [nan] and the infinities included, with
    the delta [dist_sub] gives and the comparisons of floats. *)
Theorem sa_metropolis_rule
        (waypoints : list Coordinate) (n : nat) (cooling : Q)
        (s s' : sa_state) (c : control) (g g' : rng) :
  sa_iteration waypoints n cooling s g = Ok ((s', c), g') ->
  c <> Continue ->
  exists moved new_dist g2,
    sa_move waypoints n s g moved new_dist g2
    /\ (forall d d0,
          new_dist = Fin d -> current_dist s = Fin d0 ->
          let delta := (d - d0)%Q in
          ((delta < 0)%Q -> sa_accepted s s' moved new_dist /\ g' = g2)
          /\ (~ (delta < 0)%Q -> (1 # 1000000000 < temp s)%Q ->
              exists u,
                random_random g2 = Ok (u, g')
                /\ if Qltb u (exp (Qdiv (Qopp delta) (temp s)))
                   then sa_accepted s s' moved new_dist
                   else sa_rejected s s')
          /\ (~ (delta < 0)%Q -> ~ (1 # 1000000000 < temp s)%Q ->
              sa_rejected s s' /\ g' = g2))
    /\ let delta := dist_sub new_dist (current_dist s) in
       (lt_dist delta (Fin 0) = true ->
        sa_accepted s s' moved new_dist /\ g' = g2)
       /\ (lt_dist delta (Fin 0) = false -> (1 # 1000000000 < temp s)%Q ->
           exists u,
             random_random g2 = Ok (u, g')
             /\ if below_boltzmann u delta (temp s)
                then sa_accepted s s' moved new_dist
                else sa_rejected s s')
       /\ (lt_dist delta (Fin 0) = false ->
           ~ (1 # 1000000000 < temp s)%Q ->
           sa_rejected s s' /\ g' = g2).
Proof.
  exact (sa_iteration_metropolis_both waypoints n cooling s s' c g g').
Qed.

(** C9 (as amended). [simulated_annealing] reads the process-wide
    generator, which the planner's constructor reseeds from the operating
    system.  When [random.seed(seed)] is called after the planner is built,
    the run depends on the seed alone: for every entropy and every earlier
    state of the generator it is the run of [simulated_annealing] from the
    state the seed determines, so two such runs end alike, and leave the
    generator in the same state.  On two or more waypoints between which
    [calculate] returns numbers both return the same order of [0..n-1],
    whose first index is the first draw from that state, and hence the
    same distance, the length of its route. *)
Theorem sa_replay_after_seeding
        (metric : Coordinate -> Coordinate -> Q)
        (seeded : Z -> rng) (cfg : AlgorithmConfig) (seed : Z)
        (waypoints : list Coordinate) (entropy1 entropy2 g1 g2 : rng) :
  let n := length waypoints in
  let self := {| config := cfg;
                 dist_calc := DistanceCalculator_init (use_cache cfg) |} in
  seeded_session seeded entropy1 cfg seed waypoints g1
  = seeded_session seeded entropy2 cfg seed waypoints g2
  /\ seeded_session seeded entropy1 cfg seed waypoints g1
     = simulated_annealing self waypoints (seeded seed)
  /\ (measured waypoints metric ->
      2 <= n ->
      exists p g' g0,
        seeded_session seeded entropy1 cfg seed waypoints g1 = Ok (p, g')
        /\ seeded_session seeded entropy2 cfg seed waypoints g2 = Ok (p, g')
        /\ is_order n p
        /\ randint 0 (Z.of_nat n - 1) (seeded seed)
           = Ok (Z.of_nat (nth 0 p 0), g0)
        /\ order_distance waypoints p
           = Ok (route_length (number metric) (points_of waypoints p))).
Proof.
  exact (seeded_session_replay metric seeded cfg seed waypoints
                               entropy1 entropy2 g1 g2).
Qed.

(** C10. Two planners whose configurations agree on the cooling rate, the
    initial temperature, the iteration cap and the local-search flag give
    the same result of [plan_route] on the same input and generator,
    whatever their [use_cache] flags and the state of their distance
    calculators: no step of [plan_route] reads the flag or the cache. *)
Theorem plan_route_ignores_use_cache
        (fuel : nat) (self1 self2 : RoutePlanner) (start_time end_time : Q)
        (starts waypoints ends : list Coordinate) (g : rng) :
  cooling_rate (config self1) = cooling_rate (config self2) ->
  initial_temperature (config self1) = initial_temperature (config self2) ->
  max_iterations (config self1) = max_iterations (config self2) ->
  enable_local_search (config self1) = enable_local_search (config self2) ->
  plan_route fuel self1 start_time end_time starts waypoints ends g
  = plan_route fuel self2 start_time end_time starts waypoints ends g.
Proof.
  exact (plan_route_same_parameters fuel self1 self2 start_time end_time
                                    starts waypoints ends g).
Qed.

(** * Further properties of the code *)

(** ** [two_opt_swap] *)

Lemma reverse_segment_app (l1 mid l3 : list nat) (i j : nat) :
  length l1 = i -> length mid = j + 1 - i -> i <= j ->
  reverse_segment (l1 ++ mid ++ l3) i j = l1 ++ rev mid ++ l3.
Proof.
  intros H1 Hm Hij. unfold reverse_segment.
  rewrite firstn_app, firstn_all2, skipn_app by lia.
  rewrite (skipn_all2 l1) by lia.
  replace (i - length l1) with 0 by lia. simpl.
  rewrite app_nil_r.
  rewrite firstn_app, firstn_all2 by lia.
  replace (j + 1 - i - length mid) with 0 by lia. simpl.
  rewrite app_nil_r.
  rewrite skipn_app, (skipn_all2 l1) by lia. simpl.
  rewrite skipn_app, (skipn_all2 mid) by lia. simpl.
  replace (j + 1 - length l1 - length mid) with 0 by lia.
  reflexivity.
Qed.

Lemma reverse_segment_split (p : list nat) (i j : nat) :
  i <= j -> j < length p ->
  exists l1 mid l3,
    p = l1 ++ mid ++ l3 /\ length l1 = i /\ length mid = j + 1 - i
    /\ reverse_segment p i j = l1 ++ rev mid ++ l3.
Proof.
  intros Hij Hj.
  exists (firstn i p), (firstn (j + 1 - i) (skipn i p)), (skipn (j + 1) p).
  split_all.
  - rewrite <- (firstn_skipn i p) at 1. f_equal.
    rewrite <- (firstn_skipn (j + 1 - i) (skipn i p)) at 1. f_equal.
    rewrite skipn_skipn. f_equal. lia.
  - rewrite length_firstn. lia.
  - rewrite length_firstn, length_skipn. lia.
  - reflexivity.
Qed.

(** X1. [two_opt_swap] on every input: with [i >= j] the list is returned
    as it is, whatever the indices; with [i < j] inside the list the
    segment [i..j] is reversed; with [i < j] and [j] past the end it
    raises [IndexError]. *)
Theorem two_opt_swap_total (p : list nat) (i j : nat) :
  two_opt_swap p i j
  = if i <? j
    then if j <? length p then Ok (reverse_segment p i j)
         else Raise IndexError
    else Ok p.
Proof.
  destruct (Nat.ltb_spec i j) as [Hij|Hij].
  - destruct (Nat.ltb_spec j (length p)) as [Hj|Hj].
    + apply two_opt_swap_spec; lia.
    + unfold two_opt_swap. destruct j as [|j]; [lia|].
      simpl. replace (i <? S j) with true by (symmetry; apply Nat.ltb_lt; lia).
      unfold get at 1.
      now rewrite (proj2 (nth_error_None p (S j)) Hj).
  - apply two_opt_swap_loop_stop. exact Hij.
Qed.

(** X2. Inside the list, [two_opt_swap] keeps the length, leaves the
    positions outside [i..j] alone, puts at position [k] of the segment
    what was at [i + j - k], and undoes itself when applied again. *)
Theorem two_opt_swap_involution (p : list nat) (i j : nat) :
  i <= j -> j < length p ->
  exists q,
    two_opt_swap p i j = Ok q
    /\ length q = length p
    /\ (forall k, nth k q 0
                  = if (i <=? k) && (k <=? j) then nth (i + j - k) p 0
                    else nth k p 0)
    /\ two_opt_swap q i j = Ok p.
Proof.
  intros Hij Hj.
  destruct (reverse_segment_split p i j Hij Hj)
    as (l1 & mid & l3 & Hp & Hl1 & Hmid & Hrev).
  exists (reverse_segment p i j). rewrite Hrev.
  assert (Hlen : length (l1 ++ rev mid ++ l3) = length p).
  { rewrite Hp, !length_app, length_rev. reflexivity. }
  split_all.
  - rewrite <- Hrev. now apply two_opt_swap_spec.
  - exact Hlen.
  - intro k. rewrite Hp.
    destruct (Nat.leb_spec i k) as [Hik|Hik]; simpl.
    + destruct (Nat.leb_spec k j) as [Hkj|Hkj].
      * assert (E1 : nth k (l1 ++ rev mid ++ l3) 0
                     = nth (k - i) (rev mid) 0).
        { rewrite app_nth2 by lia.
          rewrite app_nth1 by (rewrite length_rev; lia). f_equal. lia. }
        assert (E2 : nth (i + j - k) (l1 ++ mid ++ l3) 0
                     = nth (j - k) mid 0).
        { rewrite app_nth2 by lia. rewrite app_nth1 by lia. f_equal. lia. }
        rewrite E1, E2, rev_nth by lia. f_equal. lia.
      * rewrite (app_nth2 l1 (rev mid ++ l3)) by lia.
        rewrite (app_nth2 (rev mid)) by (rewrite length_rev; lia).
        rewrite (app_nth2 l1 (mid ++ l3)) by lia.
        rewrite (app_nth2 mid) by lia.
        rewrite length_rev. reflexivity.
    + rewrite (app_nth1 l1 (rev mid ++ l3)) by lia.
      rewrite (app_nth1 l1 (mid ++ l3)) by lia. reflexivity.
  - rewrite two_opt_swap_spec by lia.
    rewrite reverse_segment_app by (rewrite ?length_rev; lia).
    rewrite rev_involutive. now rewrite Hp.
Qed.

(** ** [extract_path] *)

(** X3. [extract_path] returns the points the indices name, in their
    order and as many as there are indices, when every index is inside
    the waypoint list, and raises [IndexError] as soon as one is not. *)
Theorem extract_path_total (waypoints : list Coordinate) (indices : list nat) :
  extract_path waypoints indices
  = (if forallb (fun i => i <? length waypoints) indices
     then Ok (points_of waypoints indices)
     else Raise IndexError)
  /\ length (points_of waypoints indices) = length indices.
Proof.
  split; [|apply length_map].
  induction indices as [|i indices IH]; simpl; [reflexivity|].
  destruct (Nat.ltb_spec i (length waypoints)) as [Hi|Hi]; simpl.
  - rewrite (get_ok _ _ origin Hi). simpl. rewrite IH.
    now destruct (forallb _ indices).
  - unfold get. now rewrite (proj2 (nth_error_None waypoints i) Hi).
Qed.

(** ** [calculate_path_distance] *)

Lemma eq_dist_refl_zero : eq_dist (Fin 0) (Fin 0).
Proof. simpl. reflexivity. Qed.

Lemma le_dist_trans (a b c : dist) :
  le_dist a b -> le_dist b c -> le_dist a c.
Proof.
  unfold le_dist.
  destruct a as [x| | |], b as [y| | |], c as [z| | |]; simpl;
    intros [H1|H1] [H2|H2];
    try discriminate; try contradiction; auto;
    try apply Qltb_lt in H1; try apply Qltb_lt in H2.
  - left. apply Qltb_lt. now apply (Qlt_trans _ y).
  - left. apply Qltb_lt. now rewrite <- H2.
  - left. apply Qltb_lt. now rewrite H1.
  - right. now rewrite H1.
Qed.

(** The sum over a path continues the sum over a prefix of it. *)
Lemma sum_legs_app (p1 p2 : list Coordinate) (x : Coordinate) :
  forall t,
    sum_legs t ((p1 ++ [x]) ++ p2)
    = (d <~ sum_legs t (p1 ++ [x]) ;; sum_legs d (x :: p2)).
Proof.
  induction p1 as [|a p1 IH]; intro t; [reflexivity|].
  change (sum_legs t (((a :: p1) ++ [x]) ++ p2))
    with (sum_legs t (a :: ((p1 ++ [x]) ++ p2))).
  change (sum_legs t ((a :: p1) ++ [x])) with (sum_legs t (a :: (p1 ++ [x]))).
  destruct (p1 ++ [x]) as [|b r] eqn:E; [now destruct p1|].
  change ((b :: r) ++ p2) with (b :: (r ++ p2)). cbn [sum_legs].
  destruct (calculate a b) as [d| |]; try reflexivity.
  exact (IH (fadd t d)).
Qed.

Lemma sum_legs_grows (p : list Coordinate) :
  (forall a b, In a p -> In b p ->
               exists d, calculate a b = Ok d /\ le_dist (Fin 0) d) ->
  (forall x y, le_dist (Fin 0) x -> le_dist (Fin 0) y ->
               le_dist x (fadd x y)) ->
  forall t, le_dist (Fin 0) t ->
            exists d, sum_legs t p = Ok d /\ le_dist t d.
Proof.
  intros Hpos Hadd. induction p as [|a p IH]; intros t Ht.
  - exists t. split; [reflexivity|].
    destruct t; destruct Ht as [H|H]; try discriminate; try contradiction;
      right; simpl; auto; reflexivity.
  - destruct p as [|b r].
    + exists t. split; [reflexivity|].
      destruct t; destruct Ht as [H|H]; try discriminate;
        try contradiction; right; simpl; auto; reflexivity.
    + destruct (Hpos a b (or_introl eq_refl) (or_intror (or_introl eq_refl)))
        as (d & Hd & Hd0).
      cbn [sum_legs]. rewrite Hd. cbn [obind].
      destruct (IH (fun x y Hx Hy => Hpos x y (or_intror Hx) (or_intror Hy))
                   (fadd t d))
        as (e & He & Hle).
      * apply (le_dist_trans _ t); [exact Ht|now apply Hadd].
      * exists e. split; [exact He|].
        apply (le_dist_trans _ (fadd t d)); [now apply Hadd|exact Hle].
Qed.

(** X5. When [calculate] returns, between the points of a path, floats
    that are not negative, and the sum of two such floats is not below
    the first, the path distance of the path and of every prefix of it is
    computed, neither is negative, and the longer path is not the
    shorter one. *)
Theorem calculate_path_distance_monotone (p1 p2 : list Coordinate) :
  (forall a b, In a (p1 ++ p2) -> In b (p1 ++ p2) ->
               exists d, calculate a b = Ok d /\ le_dist (Fin 0) d) ->
  (forall x y, le_dist (Fin 0) x -> le_dist (Fin 0) y ->
               le_dist x (fadd x y)) ->
  exists d1 d2,
    calculate_path_distance p1 = Ok d1
    /\ calculate_path_distance (p1 ++ p2) = Ok d2
    /\ le_dist (Fin 0) d1
    /\ le_dist d1 d2.
Proof.
  intros Hpos Hadd.
  assert (H0 : le_dist (Fin 0) (Fin 0)) by (right; exact eq_dist_refl_zero).
  assert (Hsum : forall p, calculate_path_distance p = sum_legs (Fin 0) p)
    by (intro p; unfold calculate_path_distance;
        now destruct p as [|a [|b r]]).
  rewrite !Hsum.
  destruct p1 as [|a p1].
  - destruct (sum_legs_grows p2 Hpos Hadd (Fin 0) H0) as (d2 & Hd2 & Hle).
    exists (Fin 0), d2. auto.
  - destruct (exists_last (l := a :: p1)) as (l & x & E); [discriminate|].
    rewrite E in *. rewrite sum_legs_app.
    destruct (sum_legs_grows (l ++ [x])
                (fun u v Hu Hv => Hpos u v (in_or_app _ _ _ (or_introl Hu))
                                             (in_or_app _ _ _ (or_introl Hv)))
                Hadd (Fin 0) H0) as (d1 & Hd1 & Hle1).
    rewrite Hd1. cbn [obind].
    destruct (sum_legs_grows (x :: p2)) with (t := d1)
      as (d2 & Hd2 & Hle2); [| exact Hadd | exact Hle1 |].
    + intros u v Hu Hv. apply Hpos.
      * destruct Hu as [<-|Hu]; apply in_or_app;
          [left; apply in_or_app; right; now left|now right].
      * destruct Hv as [<-|Hv]; apply in_or_app;
          [left; apply in_or_app; right; now left|now right].
    + exists d1, d2. auto.
Qed.

(** ** 2-opt applied to its own result *)

Lemma two_opt_moves_fixed (gauge : Coordinate -> Coordinate -> dist)
      (waypoints : list Coordinate) (p0 : list nat)
      (moves : list (nat * nat)) (s : two_opt_state) :
  gauged waypoints gauge ->
  Forall (fun i => i < length waypoints) p0 ->
  two_opt_inv gauge waypoints p0 s ->
  (forall m, In m moves -> fst m <= snd m /\ snd m < length p0) ->
  (forall m, In m moves ->
             lt_dist (tour gauge waypoints
                           (reverse_segment (t_path s) (fst m) (snd m)))
                     (t_best_distance s) = false) ->
  for_each moves (fun m => two_opt_try waypoints (fst m) (snd m)) s = Ok s.
Proof.
  intros Hmeas Hrange Hinv.
  induction moves as [|m moves IH]; intros Hm Hopt; [reflexivity|].
  destruct (Hm m (or_introl eq_refl)) as [H1 H2].
  destruct (two_opt_try_ok gauge waypoints p0 Hmeas Hrange
                           (fst m) (snd m) s Hinv H1 H2)
    as [Htry _].
  simpl for_each. rewrite Htry.
  rewrite (Hopt m (or_introl eq_refl)).
  simpl obind. apply IH; intros; [apply Hm|apply Hopt]; now right.
Qed.

(** X8. When [calculate] returns between the waypoints, what
    [two_opt_optimize] returns on an order of [0..n-1] is a fixed point
    of it: run on its own result, with fuel for one sweep, it returns
    that result again. *)
Theorem two_opt_optimize_idempotent
        (gauge : Coordinate -> Coordinate -> dist)
        (self : RoutePlanner) (waypoints : list Coordinate)
        (p : list nat) (fuel fuel' : nat) :
  gauged waypoints gauge ->
  is_order (length waypoints) p ->
  fact (length p) <= fuel ->
  1 <= fuel' ->
  exists q,
    two_opt_optimize fuel self waypoints p = Ok q
    /\ two_opt_optimize fuel' self waypoints q = Ok q.
Proof.
  intros Hmeas Hp Hfuel Hfuel'.
  destruct (two_opt_optimize_spec gauge self waypoints p fuel Hp Hfuel Hmeas)
    as (q & Hrun & Hperm & _ & Hopt & _).
  exists q. split; [exact Hrun|].
  unfold two_opt_optimize.
  destruct (enable_local_search (config self)) eqn:Els; [|reflexivity].
  simpl negb. cbv iota.
  assert (Hq : Forall (fun i => i < length waypoints) q).
  { apply Forall_forall. intros k Hk.
    pose proof (order_in_range _ _ Hp) as Hr. rewrite Forall_forall in Hr.
    apply Hr, (Permutation_in _ (Permutation_sym Hperm)), Hk. }
  rewrite (order_distance_gauged gauge) by assumption.
  simpl obind.
  destruct fuel' as [|fuel']; [lia|]. simpl two_opt_loop.
  rewrite two_opt_sweep_moves.
  rewrite (two_opt_moves_fixed gauge waypoints q).
  - simpl obind. rewrite two_opt_loop_stop by reflexivity. reflexivity.
  - exact Hmeas.
  - exact Hq.
  - split; reflexivity.
  - intros [i j] Hm. apply sweep_moves_spec in Hm. simpl. lia.
  - intros [i j] Hm. apply sweep_moves_spec in Hm. simpl.
    apply (Hopt eq_refl i j); [lia|].
    rewrite (Permutation_length Hperm). lia.
Qed.

(** ** The distance cache *)

Lemma key_eqb_eq (k1 k2 : nat * nat) : key_eqb k1 k2 = true <-> k1 = k2.
Proof.
  destruct k1 as [a b], k2 as [c d]. unfold key_eqb. simpl.
  rewrite andb_true_iff, !Nat.eqb_eq. split.
  - intros [-> ->]. reflexivity.
  - intro H. injection H as -> ->. auto.
Qed.

Lemma get_distance_cases (dc dc' : DistanceCalculator)
      (points : list Coordinate) (i j : nat) (d : dist) :
  dc_use_cache dc = true ->
  get_distance dc points i j = Ok (d, dc') ->
  dc_use_cache dc' = true
  /\ cache_lookup (distance_cache dc') (Nat.min i j, Nat.max i j) = Some d.
Proof.
  intros Hflag. unfold get_distance. rewrite Hflag. simpl negb. cbv iota.
  destruct (cache_lookup (distance_cache dc) (Nat.min i j, Nat.max i j))
    as [d0|] eqn:E.
  - intro H. injection H as <- <-. auto.
  - intro H. apply obind_ok in H. destruct H as (a & _ & H).
    apply obind_ok in H. destruct H as (b & _ & H).
    apply obind_ok in H. destruct H as (e & _ & H).
    injection H as <- <-. simpl. split; [reflexivity|].
    unfold key_eqb. simpl. now rewrite !Nat.eqb_refl.
Qed.

(** X9. With caching on, once a call of [get_distance] has returned,
    every later call for the same two indices, in either order and on
    any point list (a different one, or one too short for the indices),
    returns the same distance and leaves the calculator as it is. *)
Theorem get_distance_sticks (dc dc' : DistanceCalculator)
        (points : list Coordinate) (i j : nat) (d : dist) :
  dc_use_cache dc = true ->
  get_distance dc points i j = Ok (d, dc') ->
  forall points' : list Coordinate,
    get_distance dc' points' i j = Ok (d, dc')
    /\ get_distance dc' points' j i = Ok (d, dc').
Proof.
  intros Hflag Hrun points'.
  destruct (get_distance_cases dc dc' points i j d Hflag Hrun)
    as [Hflag' Hhit].
  unfold get_distance. rewrite Hflag'. simpl negb. cbv iota.
  rewrite (Nat.min_comm j i), (Nat.max_comm j i), Hhit. auto.
Qed.

(** X10. On one point list between whose points [calculate] returns
    numbers that do not depend on the direction, the cache is
    transparent: from a calculator whose cached entries are right for the
    list (a cleared one is), [get_distance] on indices in range returns
    the distance of the two points, keeps the entries right, and changes
    nothing when caching is off. *)
Theorem get_distance_consistent (metric : Coordinate -> Coordinate -> Q)
        (dc : DistanceCalculator)
        (points : list Coordinate) (i j : nat) :
  measured points metric ->
  (forall x y, metric x y == metric y x)%Q ->
  cache_consistent metric points dc ->
  i < length points -> j < length points ->
  cache_consistent metric points (clear_distance_cache dc)
  /\ exists d dc',
       get_distance dc points i j = Ok (d, dc')
       /\ eq_dist d (Fin (leg metric points i j))
       /\ cache_consistent metric points dc'
       /\ dc_use_cache dc' = dc_use_cache dc
       /\ (dc_use_cache dc = false -> dc' = dc).
Proof.
  intros Hmeas Hsym Hcons Hi Hj.
  split; [intros a b d H; discriminate|].
  assert (Hcalc : calculate (nth i points origin) (nth j points origin)
                  = Ok (Fin (leg metric points i j)))
    by (apply Hmeas; now apply nth_In).
  unfold get_distance.
  destruct (dc_use_cache dc) eqn:Hflag; simpl negb; cbv iota.
  - assert (Hkey : (leg metric points (Nat.min i j) (Nat.max i j)
                    == leg metric points i j)%Q).
    { destruct (Nat.le_ge_cases i j) as [H|H].
      - rewrite Nat.min_l, Nat.max_r by exact H. reflexivity.
      - rewrite Nat.min_r, Nat.max_l by exact H. apply Hsym. }
    destruct (cache_lookup (distance_cache dc) (Nat.min i j, Nat.max i j))
      as [d0|] eqn:E.
    + exists d0, dc. split; [reflexivity|]. split.
      { destruct (Hcons _ _ _ E) as (_ & _ & H).
        destruct d0; try contradiction. simpl in *. now rewrite H. }
      split; [exact Hcons|]. split; [exact Hflag|discriminate].
    + rewrite (get_ok _ _ origin Hi), (get_ok _ _ origin Hj). simpl obind.
      rewrite Hcalc. simpl obind.
      eexists _, _. split; [reflexivity|]. split_all.
      * simpl. reflexivity.
      * intros a b d. simpl.
        destruct (key_eqb (a, b) (Nat.min i j, Nat.max i j)) eqn:Ek.
        -- apply key_eqb_eq in Ek. injection Ek as -> ->.
           intro H. injection H as <-.
           split; [|split].
           ++ apply Nat.min_lt_iff. now left.
           ++ now apply Nat.max_lub_lt.
           ++ simpl. symmetry. exact Hkey.
        -- apply Hcons.
      * reflexivity.
      * discriminate.
  - rewrite (get_ok _ _ origin Hi), (get_ok _ _ origin Hj). simpl obind.
    rewrite Hcalc. simpl obind.
    exists (Fin (leg metric points i j)), dc.
    split_all; auto. simpl. reflexivity.
Qed.

(** ** Simulated annealing on small inputs and its best-known order *)

(** X11. On an empty waypoint list [construct_greedy_path] and
    [simulated_annealing] raise [ValueError] (the empty range of
    [randint(0, -1)]); on a single waypoint [simulated_annealing] raises
    [ValueError] as soon as the iteration cap allows one pass (the empty
    range of [randint(1, 0)]) and returns [[0]] otherwise. *)
Theorem simulated_annealing_small
        (self : RoutePlanner) (w : Coordinate) (g : rng) :
  construct_greedy_path [] g = Raise ValueError
  /\ simulated_annealing self [] g = Raise ValueError
  /\ simulated_annealing self [w] g
     = if (0 <? max_iterations (config self))%Z
       then Raise ValueError
       else Ok ([0], snd (draw g)).
Proof.
  split; [reflexivity|]. split; [reflexivity|].
  unfold simulated_annealing, sa_init, construct_greedy_path, bind, lift,
    randint, sa_max_iter.
  simpl length. simpl Z.of_nat.
  change (1 - 1 <? 0)%Z with false. cbv iota.
  destruct (draw g) as [x g'] eqn:Hdraw.
  change (1 - 1 - 0 + 1)%Z with 1%Z. rewrite Z.mod_1_r. simpl.
  change (1 * 1 * 50)%Z with 50%Z.
  destruct (Z.ltb_spec 0 (max_iterations (config self))) as [Hm|Hm].
  - destruct (Z.to_nat (Z.min (max_iterations (config self)) 50))
      as [|k] eqn:Ek; [lia|].
    reflexivity.
  - replace (Z.to_nat (Z.min (max_iterations (config self)) 50)) with 0
      by lia.
    reflexivity.
Qed.

Lemma sa_iteration_tracks (metric : Coordinate -> Coordinate -> Q)
      (waypoints : list Coordinate) (cooling : Q) (bound : dist)
      (s : sa_state) (g : rng) :
  measured waypoints metric ->
  2 <= length waypoints ->
  sa_tracks metric waypoints bound s ->
  exists s' c g',
    sa_iteration waypoints (length waypoints) cooling s g = Ok ((s', c), g')
    /\ sa_tracks metric waypoints bound s'.
Proof.
  intros Hm Hn Htr.
  destruct Htr as ([Hcur Hbest] & Hcd & Hbd & Hbound).
  unfold sa_iteration.
  set (n := length waypoints) in *.
  destruct (randint_ok 1 (Z.of_nat n - 1) g) as (i & g1 & Hi & Hir); [lia|].
  destruct (randint_ok 1 (Z.of_nat n - 1) g1) as (j & g2 & Hj & Hjr); [lia|].
  rewrite (bind_run _ _ _ _ _ Hi), (bind_run _ _ _ _ _ Hj).
  destruct (i =? j)%Z eqn:Eij.
  { exists s, Continue, g2. split; [reflexivity|].
    unfold sa_tracks, sa_inv. fold n. auto. }
  apply Z.eqb_neq in Eij.
  set (lo := if (j <? i)%Z then j else i).
  set (hi := if (j <? i)%Z then i else j).
  assert (Hlohi : (1 <= lo < hi)%Z /\ (hi <= Z.of_nat n - 1)%Z).
  { unfold lo, hi. destruct (Z.ltb_spec j i); lia. }
  assert (Hlen : length (current_path s) = n).
  { rewrite <- (Permutation_length Hcur). apply length_seq. }
  rewrite two_opt_swap_spec by lia.
  set (moved := reverse_segment (current_path s) (Z.to_nat lo) (Z.to_nat hi)).
  assert (Hmoved : is_order n moved).
  { unfold is_order. rewrite Hcur.
    apply reverse_segment_permutation. lia. }
  unfold lift at 1. unfold bind at 1.
  rewrite (order_distance_ok metric)
    by (try assumption; now apply order_in_range).
  unfold lift at 1. unfold bind at 1.
  destruct (metropolis_ok
              (dist_sub (tour (number metric) waypoints moved) (current_dist s))
              (temp s) g2)
    as (accept & g3 & Hacc).
  rewrite (bind_run _ _ _ _ _ Hacc).
  destruct accept.
  - destruct (lt_dist (tour (number metric) waypoints moved) (best_dist s))
      eqn:Eb;
      cbn [temp current_path current_dist best_path best_dist];
      match goal with
      | |- context [if ?c then _ else _] => destruct c
      end; eexists _, _, _; (split; [reflexivity|]);
      unfold sa_tracks, sa_inv; fold n;
      cbn [temp current_path current_dist best_path best_dist];
      split_all; auto;
      right; exact (lt_at_most _ _ _ Eb Hbound).
  - cbn [temp current_path current_dist best_path best_dist].
    match goal with
    | |- context [if ?c then _ else _] => destruct c
    end; eexists _, _, _; (split; [reflexivity|]);
      unfold sa_tracks, sa_inv; fold n;
      cbn [temp current_path current_dist best_path best_dist];
      split_all; auto.
Qed.

Lemma sa_loop_tracks (metric : Coordinate -> Coordinate -> Q)
      (waypoints : list Coordinate) (cooling : Q) (bound : dist)
      (k : nat) :
  measured waypoints metric ->
  forall (s : sa_state) (g : rng),
    2 <= length waypoints ->
    sa_tracks metric waypoints bound s ->
    exists s' g',
      sa_loop k waypoints (length waypoints) cooling s g = Ok (s', g')
      /\ sa_tracks metric waypoints bound s'.
Proof.
  intro Hm.
  induction k as [|k IH]; intros s g Hn Hinv; simpl.
  - exists s, g. now split.
  - destruct (sa_iteration_tracks metric waypoints cooling bound s g
                                  Hm Hn Hinv)
      as (s1 & c & g1 & Hit & Hinv1).
    rewrite (bind_run _ _ _ _ _ Hit). simpl snd. simpl fst.
    destruct c; try (now apply IH).
    exists s1, g1. now split.
Qed.

(** X12. On two or more waypoints between which [calculate] returns
    numbers, [simulated_annealing] returns an order of [0..n-1] whose
    route has the length of the greedy path it started from (the path
    [construct_greedy_path] builds from the same generator state) or a
    smaller one. *)
Theorem simulated_annealing_not_worse_than_greedy
        (metric : Coordinate -> Coordinate -> Q)
        (self : RoutePlanner) (waypoints : list Coordinate) (g : rng) :
  measured waypoints metric ->
  2 <= length waypoints ->
  let len := fun o => route_length (number metric) (points_of waypoints o) in
  exists p0 g0 p g',
    construct_greedy_path waypoints g = Ok (p0, g0)
    /\ simulated_annealing self waypoints g = Ok (p, g')
    /\ is_order (length waypoints) p
    /\ order_distance waypoints p0 = Ok (len p0)
    /\ order_distance waypoints p = Ok (len p)
    /\ at_most (len p) (len p0).
Proof.
  intros Hm Hn len. unfold simulated_annealing, sa_init.
  assert (Hne : waypoints <> [])
    by (destruct waypoints; [simpl in Hn; lia|discriminate]).
  destruct (construct_greedy_path_spec metric waypoints g Hne Hm)
    as (p0 & g0 & Hgreedy & Hp0 & _).
  unfold bind, lift, ret. rewrite Hgreedy.
  rewrite (order_distance_ok metric)
    by (try assumption; now apply order_in_range).
  set (s0 := {| current_path := p0;
                current_dist := tour (number metric) waypoints p0;
                best_path := p0; best_dist := tour (number metric) waypoints p0;
                temp := initial_temperature (config self) |}).
  destruct (sa_loop_tracks metric waypoints (cooling_rate (config self))
              (tour (number metric) waypoints p0)
              (Z.to_nat (sa_max_iter self (length waypoints))) Hm s0 g0 Hn)
    as (s' & g' & Hrun & [_ Hbest] & _ & Hbd & Hbound).
  { unfold sa_tracks, sa_inv, s0. simpl. split_all; auto. }
  rewrite Hrun.
  exists p0, g0, (best_path s'), g'.
  split_all; auto.
  - apply order_distance_ok; [exact Hm|now apply order_in_range].
  - apply order_distance_ok; [exact Hm|now apply order_in_range].
  - unfold len. rewrite <- Hbd. exact Hbound.
Qed.

(** ** Position 0 of an order is never moved *)

(** X15. [two_opt_optimize] never moves position 0: on an order of
    [0..n-1] of waypoints between which [calculate] returns, the order
    it returns starts with the index the input starts with. *)
Theorem two_opt_optimize_keeps_first
        (gauge : Coordinate -> Coordinate -> dist)
        (self : RoutePlanner) (waypoints : list Coordinate)
        (p : list nat) (fuel : nat) :
  gauged waypoints gauge ->
  is_order (length waypoints) p ->
  fact (length p) <= fuel ->
  exists q,
    two_opt_optimize fuel self waypoints p = Ok q
    /\ nth 0 q 0 = nth 0 p 0.
Proof.
  intros Hm Hp Hfuel.
  destruct (two_opt_optimize_spec gauge self waypoints p fuel Hp Hfuel Hm)
    as (q & Hrun & _).
  exists q. split; [exact Hrun|].
  exact (two_opt_optimize_head fuel self waypoints p q Hrun).
Qed.

(** X16. The order [simulated_annealing] returns on two or more waypoints
    between which [calculate] returns numbers starts with the index
    [construct_greedy_path] drew with [randint(0, n-1)]: no move of the
    annealing loop touches position 0. *)
Theorem simulated_annealing_keeps_start
        (metric : Coordinate -> Coordinate -> Q)
        (self : RoutePlanner) (waypoints : list Coordinate) (g : rng) :
  measured waypoints metric ->
  2 <= length waypoints ->
  exists p g' g0,
    simulated_annealing self waypoints g = Ok (p, g')
    /\ is_order (length waypoints) p
    /\ randint 0 (Z.of_nat (length waypoints) - 1) g
       = Ok (Z.of_nat (nth 0 p 0), g0).
Proof. exact (simulated_annealing_head metric self waypoints g). Qed.

(** ** Random coordinates *)

Lemma random_random_unit (g : rng) :
  exists u, random_random g = Ok (u, snd (draw g)) /\ (0 <= u)%Q /\ (u < 1)%Q.
Proof.
  unfold random_random. destruct (draw g) as [x g'].
  eexists. split; [reflexivity|].
  pose proof (Z.mod_pos_bound (Z.of_N x) (2 ^ 53) eq_refl) as [H0 H1].
  unfold Qle, Qlt. simpl Qnum. simpl Qden.
  split; [|rewrite Z.mul_1_l]; lia.
Qed.

Lemma random_uniform_between (a b : Q) (g : rng) :
  exists x, random_uniform a b g = Ok (x, snd (draw g)) /\ between a b x.
Proof.
  unfold random_uniform, bind, ret.
  destruct (random_random_unit g) as (u & -> & H0 & H1).
  eexists. split; [reflexivity|]. unfold between.
  destruct (Qlt_le_dec a b) as [Hab|Hab]; [left|right]; split; nra.
Qed.

Lemma generate_loop_spec (lon_min lon_max lat_min lat_max : Q)
      (xs : list nat) :
  forall (acc : list Coordinate) (g : rng),
  exists coords,
    for_eachM xs
      (fun _ coords =>
         lon <- random_uniform lon_min lon_max ;;
         lat <- random_uniform lat_min lat_max ;;
         ret (coords ++ [mkCoordinate lon lat]))
      acc g
    = Ok (acc ++ coords, skipn (2 * length xs) g)
    /\ length coords = length xs
    /\ Forall (fun c => between lon_min lon_max (longitude c)
                        /\ between lat_min lat_max (latitude c)) coords.
Proof.
  induction xs as [|x xs IH]; intros acc g.
  - exists []. simpl. rewrite app_nil_r. split_all; auto.
  - destruct (random_uniform_between lon_min lon_max g) as (lon & Hlon & Blon).
    destruct (random_uniform_between lat_min lat_max (snd (draw g)))
      as (lat & Hlat & Blat).
    destruct (IH (acc ++ [mkCoordinate lon lat]) (snd (draw (snd (draw g)))))
      as (coords & Hrun & Hlen & Hall).
    exists (mkCoordinate lon lat :: coords).
    simpl for_eachM. unfold bind at 1. unfold bind at 1. rewrite Hlon.
    rewrite Hlat. unfold ret at 1. rewrite Hrun.
    split_all.
    + rewrite <- app_assoc. simpl app. f_equal. f_equal.
      replace (2 * length (x :: xs)) with (S (S (2 * length xs)))
        by (simpl; lia).
      destruct g as [|a [|b g]]; simpl; try reflexivity;
        now rewrite skipn_nil.
    + simpl. now rewrite Hlen.
    + constructor; [now split|exact Hall].
Qed.

(** X17. [generate_random_coordinates] returns [max(count, 0)]
    coordinates, each with its longitude between the two longitude bounds
    and its latitude between the two latitude bounds (whichever order the
    bounds are given in), and it takes two draws per coordinate from the
    generator. *)
Theorem generate_random_coordinates_spec (count : Z)
        (lon_min lon_max lat_min lat_max : Q) (g : rng) :
  exists coords,
    generate_random_coordinates count lon_min lon_max lat_min lat_max g
    = Ok (coords, skipn (2 * Z.to_nat count) g)
    /\ length coords = Z.to_nat count
    /\ Forall (fun c => between lon_min lon_max (longitude c)
                        /\ between lat_min lat_max (latitude c)) coords.
Proof.
  unfold generate_random_coordinates.
  destruct (generate_loop_spec lon_min lon_max lat_min lat_max
              (range 0 (Z.to_nat count)) [] g)
    as (coords & Hrun & Hlen & Hall).
  exists coords.
  unfold range in *. rewrite length_seq, Nat.sub_0_r in *.
  simpl app in Hrun. now split_all.
Qed.

(** ** The order of the waypoints in the response *)

Lemma float_pair_eqb_iff (a b : Q * Q) :
  float_pair_eqb a b = true <-> (fst a == fst b)%Q /\ (snd a == snd b)%Q.
Proof.
  unfold float_pair_eqb. rewrite andb_true_iff, !Qeq_bool_iff. tauto.
Qed.

Lemma float_pair_eqb_trans (a b c : Q * Q) :
  float_pair_eqb a b = true -> float_pair_eqb b c = true ->
  float_pair_eqb a c = true.
Proof.
  rewrite !float_pair_eqb_iff. intros [H1 H2] [H3 H4].
  split; etransitivity; eassumption.
Qed.

Lemma float_pair_eqb_sym (a b : Q * Q) :
  float_pair_eqb a b = true -> float_pair_eqb b a = true.
Proof.
  rewrite !float_pair_eqb_iff. intros [H1 H2]. split; now symmetry.
Qed.

Lemma dict_get_set {V} (d : list ((Q * Q) * V)) (k k' : Q * Q) (v : V) :
  dict_get (dict_set d k v) k'
  = if float_pair_eqb k k' then Some v else dict_get d k'.
Proof.
  induction d as [|[k0 v0] d IH]; simpl; [reflexivity|].
  destruct (float_pair_eqb k0 k) eqn:E0; simpl.
  - destruct (float_pair_eqb k0 k') eqn:E1.
    + now rewrite (float_pair_eqb_trans _ _ _ (float_pair_eqb_sym _ _ E0) E1).
    + destruct (float_pair_eqb k k') eqn:E2; [|reflexivity].
      now rewrite (float_pair_eqb_trans _ _ _ E0 E2) in E1.
  - rewrite IH. destruct (float_pair_eqb k0 k') eqn:E1; [|reflexivity].
    destruct (float_pair_eqb k k') eqn:E2; [|reflexivity].
    rewrite (float_pair_eqb_trans _ _ _ E1 (float_pair_eqb_sym _ _ E2)) in E0.
    discriminate.
Qed.

Lemma original_waypoints_from (key : Q * Q) (ws : list Coordinate) :
  forall (k : nat) (d : list ((Q * Q) * nat)),
    dict_get (fold_left (fun d ip => dict_set d (tuple_of (snd ip)) (fst ip))
                        (enumerate_from k ws) d) key
    = match last_index key k ws with
      | Some j => Some j
      | None => dict_get d key
      end.
Proof.
  induction ws as [|p ws IH]; intros k d; simpl; [reflexivity|].
  rewrite IH. destruct (last_index key (S k) ws); [reflexivity|].
  rewrite dict_get_set. now destruct (float_pair_eqb (tuple_of p) key).
Qed.

Lemma last_index_none (key : Q * Q) (ws : list Coordinate) :
  forall k, last_index key k ws = None ->
            forall i, i < length ws ->
                      float_pair_eqb (tuple_of (nth i ws origin)) key = false.
Proof.
  induction ws as [|p ws IH]; intros k H i Hi; simpl in *; [lia|].
  destruct (last_index key (S k) ws) eqn:E; [discriminate|].
  destruct (float_pair_eqb (tuple_of p) key) eqn:Ep; [discriminate|].
  destruct i as [|i]; [exact Ep|]. apply (IH (S k) E). lia.
Qed.

Lemma last_index_some (key : Q * Q) (ws : list Coordinate) :
  forall k j,
    last_index key k ws = Some j ->
    k <= j < k + length ws
    /\ float_pair_eqb (tuple_of (nth (j - k) ws origin)) key = true
    /\ forall i, j - k < i < length ws ->
                 float_pair_eqb (tuple_of (nth i ws origin)) key = false.
Proof.
  induction ws as [|p ws IH]; intros k j H; simpl in H; [discriminate|].
  destruct (last_index key (S k) ws) as [j'|] eqn:E.
  - injection H as <-. destruct (IH (S k) j' E) as (Hj & Hkey & Hlast).
    replace (j' - k) with (S (j' - S k)) by lia. simpl length.
    split; [lia|]. split; [exact Hkey|].
    intros i Hi. destruct i as [|i]; [lia|]. apply Hlast. lia.
  - destruct (float_pair_eqb (tuple_of p) key) eqn:Ep; [|discriminate].
    injection H as <-. rewrite Nat.sub_diag. simpl length.
    split; [lia|]. split; [exact Ep|].
    intros i Hi. destruct i as [|i]; [lia|].
    apply (last_index_none key ws (S k) E). lia.
Qed.

Lemma collect_order_flat_map (d : list ((Q * Q) * nat))
      (interior : list Coordinate) :
  collect_order d interior
  = flat_map (fun p => match dict_get d (tuple_of p) with
                       | Some i => [i]
                       | None => []
                       end) interior.
Proof.
  unfold collect_order.
  assert (E : forall acc,
             fold_left (fun waypoints_order p =>
                          match dict_get d (tuple_of p) with
                          | Some i => waypoints_order ++ [i]
                          | None => waypoints_order
                          end) interior acc
             = acc ++ flat_map (fun p => match dict_get d (tuple_of p) with
                                         | Some i => [i]
                                         | None => []
                                         end) interior).
  { induction interior as [|p l IH]; intro acc; simpl.
    - now rewrite app_nil_r.
    - rewrite IH. destruct (dict_get d (tuple_of p)); simpl.
      + now rewrite <- app_assoc.
      + reflexivity. }
  apply (E []).
Qed.

(** The index found for each waypoint is the last one with its
    coordinates. *)
Lemma collect_order_last (ws : list Coordinate) (order : list nat) :
  Forall (fun i => i < length ws) order ->
  exists f : nat -> nat,
    collect_order (original_waypoints ws) (points_of ws order) = map f order
    /\ forall idx, idx < length ws ->
         idx <= f idx < length ws
         /\ same_point (nth (f idx) ws origin) (nth idx ws origin)
         /\ forall i, f idx < i < length ws ->
                      ~ same_point (nth i ws origin) (nth idx ws origin).
Proof.
  intro Hrange.
  set (f := fun idx =>
              match last_index (tuple_of (nth idx ws origin)) 0 ws with
              | Some j => j
              | None => idx
              end).
  assert (Hf : forall idx, idx < length ws ->
                 last_index (tuple_of (nth idx ws origin)) 0 ws
                 = Some (f idx)).
  { intros idx Hidx. unfold f.
    destruct (last_index (tuple_of (nth idx ws origin)) 0 ws) eqn:E;
      [reflexivity|].
    pose proof (last_index_none _ _ _ E idx Hidx) as Hno.
    assert (Hyes : float_pair_eqb (tuple_of (nth idx ws origin))
                                  (tuple_of (nth idx ws origin)) = true)
      by (apply float_pair_eqb_iff; split; reflexivity).
    congruence. }
  exists f. split.
  - rewrite collect_order_flat_map. unfold points_of.
    induction Hrange as [|idx order Hidx _ IH]; simpl; [reflexivity|].
    unfold original_waypoints at 1. rewrite original_waypoints_from.
    rewrite (Hf idx Hidx). simpl. now rewrite IH.
  - intros idx Hidx.
    destruct (last_index_some _ _ _ _ (Hf idx Hidx)) as (Hj & Hkey & Hlast).
    rewrite Nat.sub_0_r in Hkey, Hlast.
    split; [|split].
    + split; [|lia].
      destruct (Nat.le_gt_cases idx (f idx)) as [H|H]; [exact H|].
      assert (Hno := Hlast idx (conj H Hidx)).
      assert (Hyes : float_pair_eqb (tuple_of (nth idx ws origin))
                                    (tuple_of (nth idx ws origin)) = true)
        by (apply float_pair_eqb_iff; split; reflexivity).
      congruence.
    + now apply float_pair_eqb_iff in Hkey.
    + intros i Hi Hsame. specialize (Hlast i Hi).
      assert (Hyes : float_pair_eqb (tuple_of (nth i ws origin))
                                    (tuple_of (nth idx ws origin)) = true)
        by (now apply float_pair_eqb_iff).
      congruence.
Qed.

(** What [get_straight_route_result] returns, with the order of the
    planner. *)

Lemma get_straight_route_result_run
      (metric : Coordinate -> Coordinate -> Q) (fuel : nat)
      (seeded : Z -> rng) (os_entropy : rng) (start_time end_time : Q)
      (request : RouteRequest) (g : rng) :
  let ws := convert_to_cpp_coords
              (match rq_waypoints request with Some l => l | None => [] end) in
  request_measured metric request ->
  (12 < length ws -> fact (length ws) <= fuel) ->
  exists resp g' order,
    get_straight_route_result fuel seeded os_entropy start_time end_time
                              request g = Ok (resp, g')
    /\ is_order (length ws) order
    /\ rs_path resp
       = rq_origin request
           :: map tuple_of (points_of ws order) ++ [rq_destination request]
    /\ rs_start_point resp = rq_origin request
    /\ rs_end_point resp = rq_destination request
    /\ rs_waypoints_order resp
       = match collect_order (original_waypoints ws) (points_of ws order) with
         | [] => None
         | o => Some o
         end.
Proof.
  intros ws [Hmeas Hbound] Hfuel.
  unfold get_straight_route_result, RoutePlanner_init, random_seed.
  unfold bind at 1. unfold bind at 1. unfold ret at 1. fold ws.
  set (planner := {| config := _; dist_calc := _ |}).
  set (a := mkCoordinate (fst (rq_origin request)) (snd (rq_origin request))).
  set (b := mkCoordinate (fst (rq_destination request))
                         (snd (rq_destination request))).
  destruct (plan_loops_ok metric fuel planner [a] ws [b] os_entropy
                          Hmeas Hbound Hfuel)
    as (s & g' & Hrun & Hsi & Hei & order & Ho & Hpath & _);
    [discriminate|discriminate|].
  simpl in Hsi, Hei.
  replace (best_start_idx s) with 0 in Hpath by lia.
  replace (best_end_idx s) with 0 in Hpath by lia.
  simpl in Hpath.
  unfold plan_route, bind, ret. rewrite Hrun.
  eexists _, g', order. split; [reflexivity|].
  cbn [rs_path rs_start_point rs_end_point rs_waypoints_order path].
  rewrite Hpath.
  assert (Hint : removelast (tl (a :: points_of ws order ++ [b]))
                 = points_of ws order)
    by (simpl tl; apply removelast_last).
  rewrite Hint.
  split; [exact Ho|]. split.
  { simpl. rewrite map_app. simpl. unfold tuple_of at 1 3. simpl.
    now rewrite <- !surjective_pairing. }
  split; [reflexivity|]. split; [reflexivity|].
  destruct (rq_waypoints request) as [[|w l]|] eqn:Ew.
  - assert (E : order = []).
    { apply Permutation_nil. exact Ho. }
    rewrite E. reflexivity.
  - now destruct (collect_order _ _).
  - assert (E : order = []).
    { apply Permutation_nil. exact Ho. }
    rewrite E. reflexivity.
Qed.

(** X18. A straight-distance request between whose points [calculate]
    returns numbers, and whose waypoints have pairwise different
    coordinates, gets a response: its path is the origin, the waypoints
    in an order of [0..n-1], and the destination; its [waypoints_order]
    is that order, or [None] when there is no waypoint. *)
Theorem straight_route_waypoints_order
        (metric : Coordinate -> Coordinate -> Q) (fuel : nat)
        (seeded : Z -> rng) (os_entropy : rng) (start_time end_time : Q)
        (request : RouteRequest) (g : rng) :
  let ws := convert_to_cpp_coords
              (match rq_waypoints request with Some l => l | None => [] end) in
  request_measured metric request ->
  (12 < length ws -> fact (length ws) <= fuel) ->
  (forall i j, i < j < length ws ->
               ~ same_point (nth i ws origin) (nth j ws origin)) ->
  exists resp g' order,
    get_straight_route_result fuel seeded os_entropy start_time end_time
                              request g = Ok (resp, g')
    /\ is_order (length ws) order
    /\ rs_path resp
       = rq_origin request
           :: map tuple_of (points_of ws order) ++ [rq_destination request]
    /\ rs_start_point resp = rq_origin request
    /\ rs_end_point resp = rq_destination request
    /\ rs_waypoints_order resp
       = match ws with [] => None | _ => Some order end.
Proof.
  intros ws Hreq Hfuel Hdistinct.
  destruct (get_straight_route_result_run metric fuel seeded os_entropy
              start_time end_time request g Hreq Hfuel)
    as (resp & g' & order & Hrun & Ho & Hpath & Hs & He & Hwo).
  exists resp, g', order. fold ws in Ho, Hpath, Hwo.
  split_all; auto.
  rewrite Hwo.
  destruct (collect_order_last ws order (order_in_range _ _ Ho))
    as (f & -> & Hf).
  assert (E : map f order = order).
  { rewrite <- (map_id order) at 2. apply map_ext_in.
    intros idx Hidx.
    assert (Hlt : idx < length ws).
    { pose proof (order_in_range _ _ Ho) as Hr.
      rewrite Forall_forall in Hr. now apply Hr. }
    destruct (Hf idx Hlt) as ([H1 H2] & Hsame & _).
    destruct (Nat.eq_dec (f idx) idx) as [E|E]; [exact E|].
    exfalso. apply (Hdistinct idx (f idx)); [lia|].
    destruct Hsame as [Hx Hy]. split; now symmetry. }
  rewrite E.
  destruct ws as [|w ws'] eqn:Ews.
  - apply Permutation_nil in Ho. now rewrite Ho.
  - destruct order as [|x order']; [|reflexivity].
    apply Permutation_sym, Permutation_nil in Ho. discriminate.
Qed.

(** X19. When two waypoints of a straight-distance request between whose
    points [calculate] returns numbers have the same coordinates, the
    earlier of the two indices does not occur in [waypoints_order]: the
    list has one entry per waypoint but is not an order of [0..n-1]. *)
Theorem straight_route_duplicate_waypoints
        (metric : Coordinate -> Coordinate -> Q) (fuel : nat)
        (seeded : Z -> rng) (os_entropy : rng) (start_time end_time : Q)
        (request : RouteRequest) (g : rng) (i j : nat) :
  let ws := convert_to_cpp_coords
              (match rq_waypoints request with Some l => l | None => [] end) in
  request_measured metric request ->
  (12 < length ws -> fact (length ws) <= fuel) ->
  i < j < length ws ->
  same_point (nth i ws origin) (nth j ws origin) ->
  exists resp g' o,
    get_straight_route_result fuel seeded os_entropy start_time end_time
                              request g = Ok (resp, g')
    /\ rs_waypoints_order resp = Some o
    /\ length o = length ws
    /\ ~ In i o
    /\ ~ is_order (length ws) o.
Proof.
  intros ws Hreq Hfuel Hij Hsame.
  destruct (get_straight_route_result_run metric fuel seeded os_entropy
              start_time end_time request g Hreq Hfuel)
    as (resp & g' & order & Hrun & Ho & _ & _ & _ & Hwo).
  fold ws in Ho, Hwo.
  destruct (collect_order_last ws order (order_in_range _ _ Ho))
    as (f & Hcollect & Hf).
  rewrite Hcollect in Hwo.
  assert (Hlen : length (map f order) = length ws).
  { rewrite length_map, <- (Permutation_length Ho). apply length_seq. }
  assert (Hnot : ~ In i (map f order)).
  { intro Hin. apply in_map_iff in Hin. destruct Hin as (idx & Hfi & Hidx).
    assert (Hlt : idx < length ws).
    { pose proof (order_in_range _ _ Ho) as Hr.
      rewrite Forall_forall in Hr. now apply Hr. }
    destruct (Hf idx Hlt) as (_ & [Hx Hy] & Hlast).
    rewrite Hfi in Hx, Hy, Hlast.
    apply (Hlast j); [lia|].
    destruct Hsame as [Sx Sy].
    split; etransitivity; try eassumption; now symmetry. }
  exists resp, g', (map f order). split; [exact Hrun|].
  split_all; auto.
  - rewrite Hwo. destruct (map f order); [simpl in Hlen; lia|reflexivity].
  - intro Hperm. apply Hnot.
    apply (Permutation_in _ Hperm). apply in_seq. lia.
Qed.

(** ** The endpoint *)

(** X20. A request for [straight_distance] is passed to
    [get_straight_route_result], whatever the key and whatever the
    driving branch would do.  When [calculate] returns numbers between
    its points, the answer is the response of that function; when that
    function raises, as with the [ValueError] of a distance that cannot
    be computed, the answer is an [HTTPException] of status 500. *)
Theorem plan_route_endpoint_straight
        (metric : Coordinate -> Coordinate -> Q) (fuel : nat)
        (seeded : Z -> rng) (os_entropy : rng) (start_time end_time : Q)
        (driving : RouteRequest -> rng -> reply (RouteResponse * rng))
        (request : RouteRequest) (g : rng) :
  let ws := convert_to_cpp_coords
              (match rq_waypoints request with Some l => l | None => [] end) in
  rq_optimization_target request = "straight_distance"%string ->
  (request_measured metric request ->
   (12 < length ws -> fact (length ws) <= fuel) ->
   exists resp g',
     get_straight_route_result fuel seeded os_entropy start_time end_time
                               request g = Ok (resp, g')
     /\ plan_route_endpoint fuel seeded os_entropy start_time end_time
                            driving request g = Returns (resp, g'))
  /\ (forall e,
        get_straight_route_result fuel seeded os_entropy start_time end_time
                                  request g = Raise e ->
        plan_route_endpoint fuel seeded os_entropy start_time end_time
                            driving request g = Raises (HTTPException 500)).
Proof.
  intros ws Htarget. split.
  - intros Hreq Hfuel.
    destruct (get_straight_route_result_run metric fuel seeded os_entropy
                start_time end_time request g Hreq Hfuel)
      as (resp & g' & order & Hrun & _).
    exists resp, g'. split; [exact Hrun|].
    unfold plan_route_endpoint. rewrite Htarget, Hrun. reflexivity.
  - intros e Hrun.
    unfold plan_route_endpoint. rewrite Htarget, Hrun. reflexivity.
Qed.

(** X21. The endpoint never answers with status 400: whatever it raises
    is an [HTTPException] of status 500, and this is what a request it
    turns down itself (a driving target without a key, an unknown target)
    gets. *)
Theorem plan_route_endpoint_status_500 (fuel : nat)
        (seeded : Z -> rng) (os_entropy : rng) (start_time end_time : Q)
        (driving : RouteRequest -> rng -> reply (RouteResponse * rng))
        (request : RouteRequest) (g : rng) :
  turned_down request = true ->
  plan_route_endpoint fuel seeded os_entropy start_time end_time
                      driving request g = Raises (HTTPException 500)
  /\ forall request' g' e,
       plan_route_endpoint fuel seeded os_entropy start_time end_time
                           driving request' g' = Raises e ->
       e = HTTPException 500.
Proof.
  intro Hdown. split.
  - unfold plan_route_endpoint, turned_down in *.
    destruct (is_driving (rq_optimization_target request));
      destruct (no_key (rq_amap_key request)); simpl in *;
      try discriminate; try reflexivity.
    + destruct (rq_optimization_target request =? "straight_distance")%string;
        [discriminate|reflexivity].
    + destruct (rq_optimization_target request =? "straight_distance")%string;
        [discriminate|reflexivity].
  - intros request' g' e. unfold plan_route_endpoint.
    match goal with
    | |- match ?a with _ => _ end = _ -> _ => destruct a
    end; try discriminate.
    intro H. now injection H as <-.
Qed.

(** ** Polylines *)

Lemma split_not_nil (sep : ascii) (s : string) : split sep s <> [].
Proof.
  destruct s as [|c s]; simpl; [discriminate|].
  destruct (Ascii.eqb c sep); [discriminate|].
  destruct (split sep s); discriminate.
Qed.

Lemma split_app (sep : ascii) (a b : string) :
  split sep (a ++ String sep b) = split sep a ++ split sep b.
Proof.
  induction a as [|c a IH]; simpl.
  - now rewrite Ascii.eqb_refl.
  - destruct (Ascii.eqb c sep); [now rewrite IH|].
    rewrite IH. pose proof (split_not_nil sep a) as Hne.
    destruct (split sep a); [congruence|reflexivity].
Qed.

Lemma parse_point_cases (float : string -> option Q) (point : string) :
  (exists xy, parse_point float point = Ok xy)
  \/ parse_point float point = Raise ValueError.
Proof.
  unfold parse_point.
  destruct (split "," point) as [|a [|b [|c l]]]; auto.
  destruct (float a); auto. destruct (float b); eauto.
Qed.

Lemma parse_loop (float : string -> option Q) (pieces : list string) :
  forall coordinates,
    for_each pieces (parse_step float) coordinates
    = if forallb (point_ok float) (filter nonempty pieces)
      then Ok (coordinates ++ points_in float (filter nonempty pieces))
      else Raise ValueError.
Proof.
  induction pieces as [|p pieces IH]; intro acc; simpl.
  - now rewrite app_nil_r.
  - destruct p as [|c p]; simpl; [apply IH|].
    unfold point_ok at 1.
    destruct (parse_point_cases float (String c p)) as [[xy ->]| ->]; simpl.
    + rewrite IH. destruct (forallb _ _); [|reflexivity].
      now rewrite <- app_assoc.
    + reflexivity.
Qed.

Lemma parse_polyline_closed (float : string -> option Q) (s : string) :
  parse_polyline float s
  = if well_formed float s
    then points_in float (filter nonempty (split ";" s))
    else [].
Proof.
  unfold parse_polyline, well_formed.
  destruct s as [|c s]; [reflexivity|].
  rewrite parse_loop. now destruct (forallb _ _).
Qed.

(** X22. [parse_polyline] is all or nothing: when every non-empty piece
    between semicolons is two floats around one comma, it returns the
    pairs of these pieces in their order, one per piece; when one of them
    is not, it returns the empty list, also for the pieces that are. *)
Theorem parse_polyline_all_or_nothing
        (float : string -> option Q) (s : string) :
  let pieces := filter nonempty (split ";" s) in
  parse_polyline float s
  = (if forallb (point_ok float) pieces then points_in float pieces else [])
  /\ length (parse_polyline float s)
     = (if forallb (point_ok float) pieces then length pieces else 0).
Proof.
  intro pieces. split; [apply parse_polyline_closed|].
  rewrite parse_polyline_closed. unfold well_formed.
  fold pieces. clearbody pieces. clear s.
  destruct (forallb (point_ok float) pieces) eqn:Hok; [|reflexivity].
  induction pieces as [|p pieces IH]; simpl in *; [reflexivity|].
  apply andb_true_iff in Hok. destruct Hok as [Hp Hok].
  unfold point_ok in Hp. unfold points_in in *.
  destruct (parse_point float p); try discriminate.
  simpl. now rewrite IH.
Qed.

(** X23. The polyline of two polylines joined by a semicolon is the
    concatenation of their points when both can be read, and is empty as
    soon as one of them cannot. *)
Theorem parse_polyline_join (float : string -> option Q) (a b : string) :
  parse_polyline float (a ++ String ";" b)
  = if well_formed float a && well_formed float b
    then parse_polyline float a ++ parse_polyline float b
    else [].
Proof.
  rewrite !parse_polyline_closed. unfold well_formed.
  rewrite split_app, filter_app, forallb_app.
  destruct (forallb (point_ok float) (filter nonempty (split ";" a)));
    destruct (forallb (point_ok float) (filter nonempty (split ";" b)));
    simpl; try reflexivity.
  unfold points_in. apply flat_map_app.
Qed.

(** ** The record returned by [plan_route] *)

(** X13. With candidates on both sides, numbers for the distances between
    the points and every route of a length below [float('inf')], the
    record [plan_route] returns is coherent: its two indices are in range
    and name the first and the last point of its path, its distance is
    the length of its path, the one [calculate_path_distance] computes,
    and its time is the difference of the two clock readings in
    milliseconds. *)
Theorem plan_route_result_coherent
        (metric : Coordinate -> Coordinate -> Q)
        (fuel : nat) (self : RoutePlanner)
        (start_time end_time : Q) (starts waypoints ends : list Coordinate)
        (g : rng) :
  starts <> [] -> ends <> [] ->
  (12 < length waypoints -> fact (length waypoints) <= fuel) ->
  measured (starts ++ waypoints ++ ends) metric ->
  routes_bounded metric starts waypoints ends ->
  exists r g',
    plan_route fuel self start_time end_time starts waypoints ends g
    = Ok (r, g')
    /\ start_index r < length starts
    /\ end_index r < length ends
    /\ hd origin (path r) = nth (start_index r) starts origin
    /\ last (path r) origin = nth (end_index r) ends origin
    /\ calculate_path_distance (path r) = Ok (total_distance r)
    /\ total_distance r = route_length (number metric) (path r)
    /\ execution_time_ms r = ((end_time - start_time) * 1000)%Q.
Proof.
  intros Hs He Hfuel Hm Hb.
  destruct (plan_loops_ok metric fuel self starts waypoints ends g
              Hm Hb Hfuel Hs He)
    as (s & g' & Hrun & Hsi & Hei & order & Ho & Hpath & Hdist).
  unfold plan_route, bind, ret. rewrite Hrun.
  eexists _, g'. split; [reflexivity|].
  cbn [path total_distance execution_time_ms start_index end_index].
  split_all; auto.
  - now rewrite Hpath.
  - rewrite Hpath.
    change (?a :: ?l ++ [?b]) with ((a :: l) ++ [b]).
    apply last_last.
  - rewrite Hdist. apply calculate_path_distance_measured.
    rewrite Hpath. apply measured_route; auto. now apply order_in_range.
Qed.

(** ** [plan_route] on at most twelve waypoints *)

Lemma solve_exact_internal_fixed (metric : Coordinate -> Coordinate -> Q)
      (self : RoutePlanner) (waypoints : list Coordinate) :
  length waypoints <= 12 ->
  measured waypoints metric ->
  exists o,
    is_order (length waypoints) o
    /\ forall g, solve_exact_internal self waypoints g = Ok (o, g).
Proof.
  intros Hn Hm.
  destruct (solve_exact_internal_spec metric self waypoints [] Hn Hm)
    as (o & Hrun & Ho & _).
  exists o. split; [exact Ho|]. intro g.
  unfold solve_exact_internal, lift in *.
  destruct (Nat.ltb_spec 12 (length waypoints)) as [H|_]; [lia|].
  match goal with
  | |- match ?x with _ => _ end = _ => destruct x; try discriminate
  end.
  now injection Hrun as ->.
Qed.

Lemma plan_pair_through (metric : Coordinate -> Coordinate -> Q)
      (fuel : nat) (self : RoutePlanner)
      (starts waypoints ends : list Coordinate) (o : list nat)
      (m : nat * nat) (s : plan_state) (g : rng) :
  measured (starts ++ waypoints ++ ends) metric ->
  length waypoints <= 12 ->
  is_order (length waypoints) o ->
  (forall g, solve_exact_internal self waypoints g = Ok (o, g)) ->
  fst m < length starts -> snd m < length ends ->
  plan_pair fuel self starts waypoints ends (fst m) (snd m) s g
  = Ok (if lt_dist (through metric starts waypoints ends o m)
                   (best_total_distance s)
        then through_state metric starts waypoints ends o m else s, g).
Proof.
  intros Hm Hn Ho Hrun Hsi Hei. unfold plan_pair, plan_order, bind.
  destruct (Nat.leb_spec (length waypoints) 12) as [_|H]; [|lia].
  rewrite Hrun. unfold lift. rewrite (get_ok _ _ origin Hsi).
  rewrite extract_path_ok by (now apply order_in_range).
  rewrite (get_ok _ _ origin Hei).
  rewrite (calculate_path_distance_measured metric)
    by (apply measured_route; auto; now apply order_in_range).
  cbv zeta. fold (through metric starts waypoints ends o m).
  unfold ret. now destruct (lt_dist _ _).
Qed.

(** X14. On at most twelve waypoints, with candidates on both sides,
    numbers for the distances between the points and every route of a
    length below [float('inf')], [plan_route] leaves the generator
    untouched and routes every pair through the one order
    [solve_exact_internal] returns for the waypoints alone; the pair it
    reports is the first, in the order of the two loops, whose route
    through that order is shortest: no pair gives a strictly shorter
    route, and every earlier pair a strictly longer one. *)
Theorem plan_route_exact_first_minimum
        (metric : Coordinate -> Coordinate -> Q)
        (fuel : nat) (self : RoutePlanner)
        (start_time end_time : Q) (starts waypoints ends : list Coordinate)
        (g : rng) :
  starts <> [] -> ends <> [] -> length waypoints <= 12 ->
  measured (starts ++ waypoints ++ ends) metric ->
  routes_bounded metric starts waypoints ends ->
  exists o r,
    solve_exact_internal self waypoints g = Ok (o, g)
    /\ plan_route fuel self start_time end_time starts waypoints ends g
       = Ok (r, g)
    /\ start_index r < length starts
    /\ end_index r < length ends
    /\ let best := (start_index r, end_index r) in
       let len := through metric starts waypoints ends o in
       path r = nth (start_index r) starts origin
                  :: points_of waypoints o
                  ++ [nth (end_index r) ends origin]
       /\ total_distance r = len best
       /\ forall si ei,
            si < length starts -> ei < length ends ->
            lt_dist (len (si, ei)) (len best) = false
            /\ (pair_lt (si, ei) best ->
                lt_dist (len best) (len (si, ei)) = true).
Proof.
  intros Hs He Hn Hm Hb.
  destruct (solve_exact_internal_fixed metric self waypoints Hn
              (measured_waypoints _ _ _ _ Hm)) as (o & Ho & Hex).
  exists o. unfold plan_route, bind, ret.
  rewrite for_eachM_nested. fold (all_pairs (length starts) (length ends)).
  assert (Hall := all_pairs_spec (length starts) (length ends)).
  assert (Hsorted := all_pairs_sorted (length starts) (length ends)).
  destruct (all_pairs (length starts) (length ends)) as [|m0 rest] eqn:Epairs.
  { exfalso. destruct starts; [congruence|]. destruct ends; [congruence|].
    specialize (Hall 0 0). simpl in Hall. apply Hall. lia. }
  assert (Hrange : forall m, In m (m0 :: rest) ->
                             fst m < length starts /\ snd m < length ends).
  { intros [si ei] Hq. now apply Hall. }
  assert (Hfinite : forall m, In m (m0 :: rest) ->
                              lt_dist (through metric starts waypoints ends
                                               o m) Inf = true).
  { intros [si ei] Hq. apply Hb; auto; now apply (Hrange (si, ei)). }
  simpl for_eachM.
  rewrite (plan_pair_through metric fuel self starts waypoints ends o m0 _ _
             Hm Hn Ho Hex) by (apply Hrange; now left).
  change (best_total_distance plan_init) with Inf.
  rewrite (Hfinite m0 (or_introl eq_refl)).
  rewrite (plan_loop_first_min
             (through metric starts waypoints ends o)
             (through_state metric starts waypoints ends o)
             (fun m => plan_pair fuel self starts waypoints ends
                         (fst m) (snd m))
             g (fun m => eq_refl) rest m0).
  2:{ intros q Hq s g0.
      apply plan_pair_through; auto; apply Hrange; now right. }
  destruct (first_min_spec (through metric starts waypoints ends o) rest m0)
    as (before & after & Hsplit & Hall_le & Hbefore & _).
  set (m := first_min (through metric starts waypoints ends o) m0 rest) in *.
  eexists. split; [apply Hex|]. split; [reflexivity|].
  cbn [start_index end_index path total_distance through_state
       best_full_path best_total_distance best_start_idx best_end_idx].
  assert (Hin : In m (m0 :: rest)) by (rewrite Hsplit; apply in_elt).
  split; [now apply Hrange|]. split; [now apply Hrange|].
  rewrite <- surjective_pairing.
  split; [reflexivity|]. split; [reflexivity|].
  intros si ei Hsi Hei.
  assert (Hq : In (si, ei) (m0 :: rest)) by (apply Hall; now split).
  rewrite Forall_forall in Hall_le, Hbefore.
  split; [now apply Hall_le|].
  intro Hlt.
  pose proof (Hfinite _ Hq) as Hnum.
  rewrite Hsplit in Hq, Hsorted. apply in_app_or in Hq.
  destruct Hq as [Hq|[Hq|Hq]].
  - apply Hbefore; [exact Hq|].
    intro E. rewrite E in Hnum. discriminate.
  - exfalso. rewrite <- Hq in Hlt. unfold pair_lt in Hlt. lia.
  - exfalso.
    assert (Hgt : pair_lt m (si, ei)) by (eapply sorted_after; eassumption).
    destruct m as [mi me]. unfold pair_lt in *. simpl in *. lia.
Qed.

End Planner.

(** * Closed instances *)

(** ** The sample data *)

Lemma calc_of_measured (metric : Coordinate -> Coordinate -> Q)
      (pts : list Coordinate) :
  measured (calc_of metric) pts metric.
Proof. intros a b _ _. reflexivity. Qed.

Lemma exact_add_zero : zero_neutral exact_add.
Proof.
  intros [n d]. unfold exact_add, Qplus. simpl. now rewrite Z.mul_1_r.
Qed.

Lemma exact_add_numbers (l : list Q) :
  forall t, exists q, fold_left exact_add (map Fin l) (Fin t) = Fin q.
Proof.
  induction l as [|x l IH]; intro t; simpl; [now exists t|]. apply IH.
Qed.

Lemma legs_number (metric : Coordinate -> Coordinate -> Q)
      (pts : list Coordinate) :
  exists l, legs (number metric) pts = map Fin l.
Proof.
  induction pts as [|a pts IH]; [now exists []|].
  destruct pts as [|b pts]; [now exists []|].
  destruct IH as (l & E). exists (metric a b :: l).
  change (legs (number metric) (a :: b :: pts))
    with (Fin (metric a b) :: legs (number metric) (b :: pts)).
  now rewrite E.
Qed.

Lemma exact_add_routes_bounded (metric : Coordinate -> Coordinate -> Q)
      (starts waypoints ends : list Coordinate) :
  routes_bounded exact_add metric starts waypoints ends.
Proof.
  intros si ei o _ _ _. unfold through, route_length.
  destruct (legs_number metric
              (nth (fst (si, ei)) starts origin
                 :: points_of waypoints o ++ [nth (snd (si, ei)) ends origin]))
    as (l & ->).
  destruct (exact_add_numbers l 0) as (q & ->). reflexivity.
Qed.

Lemma sample_request_measured (request : RouteRequest) :
  request_measured (calc_of taxicab) exact_add taxicab request.
Proof.
  split; [apply calc_of_measured|apply exact_add_routes_bounded].
Qed.

Lemma taxicab_nonneg (a b : Coordinate) : (0 <= taxicab a b)%Q.
Proof.
  unfold taxicab.
  pose proof (Qabs_nonneg (longitude b - longitude a)).
  pose proof (Qabs_nonneg (latitude b - latitude a)).
  lra.
Qed.

Lemma taxicab_sym (a b : Coordinate) : (taxicab a b == taxicab b a)%Q.
Proof.
  unfold taxicab.
  rewrite (Qabs_Qminus (longitude b) (longitude a)).
  rewrite (Qabs_Qminus (latitude b) (latitude a)).
  reflexivity.
Qed.

Lemma le_dist_numbers (x y : Q) : le_dist (Fin x) (Fin y) <-> (x <= y)%Q.
Proof.
  unfold le_dist. simpl. rewrite Qltb_lt. split.
  - intros [H|H]; [now apply Qlt_le_weak|rewrite H; apply Qle_refl].
  - intro H. apply Qle_lt_or_eq in H. tauto.
Qed.

Lemma calc_of_taxicab_nonneg (pts : list Coordinate) (a b : Coordinate) :
  In a pts -> In b pts ->
  exists d, calc_of taxicab a b = Ok d /\ le_dist (Fin 0) d.
Proof.
  intros _ _. exists (Fin (taxicab a b)). split; [reflexivity|].
  apply le_dist_numbers, taxicab_nonneg.
Qed.

Lemma exact_add_grows (x y : dist) :
  le_dist (Fin 0) x -> le_dist (Fin 0) y -> le_dist x (exact_add x y).
Proof.
  destruct x as [x| | |], y as [y| | |]; unfold le_dist; simpl;
    intros [H1|H1] [H2|H2]; try discriminate; try contradiction; auto;
    apply le_dist_numbers;
    try apply Qltb_lt in H1; try apply Qltb_lt in H2; lra.
Qed.

(** ** Examples *)

Example permutations_three :
  permutations [0; 1; 2]
  = [[0; 1; 2]; [0; 2; 1]; [1; 0; 2]; [1; 2; 0]; [2; 0; 1]; [2; 1; 0]].
Proof. reflexivity. Qed.

Example two_opt_swap_reverses :
  two_opt_swap [0; 1; 2; 3; 4; 5] 1 4 = Ok [0; 4; 3; 2; 1; 5]
  /\ two_opt_swap [0; 1; 2; 3; 4; 5] 1 6 = Raise IndexError.
Proof. split; reflexivity. Qed.

Example get_distance_caches :
  get_distance (calc_of taxicab) (DistanceCalculator_init true) line3 2 1
  = Ok (Fin 2, {| distance_cache := [((1, 2), Fin 2)];
                  dc_use_cache := true |})
  /\ get_distance (calc_of taxicab) (dist_calc uncached_planner) line3 0 1
     = Ok (Fin 1, dist_calc uncached_planner).
Proof. split; reflexivity. Qed.

(** A distance that cannot be computed is not cached: the call ends with
    the exception. *)
Example get_distance_raises :
  get_distance (calc_domain_error (pt 0 8) (pt 180 (-8)))
               (DistanceCalculator_init true) [pt 0 8; pt 180 (-8)] 0 1
  = Raise ValueError.
Proof. reflexivity. Qed.

(** Equidistant candidates: the lower index is taken. *)
Example greedy_tie_break :
  construct_greedy_path (calc_of taxicab) line3 [0]%N = Ok ([0; 1; 2], [])
  /\ construct_greedy_path (calc_of taxicab) line3 [1]%N
     = Ok ([1; 0; 2], []).
Proof. split; reflexivity. Qed.

(** Two waypoints between a start and an end of one meridian: the nearer
    one is visited first and the total is the distance from start to
    end. *)
Example plan_route_colinear :
  exists r,
    plan_route (calc_of taxicab) exact_add exp_one 0 planner 0 0
               [pt 0 0] [pt 0 3; pt 0 6] [pt 0 10] []
    = Ok (r, [])
    /\ path r = [pt 0 0; pt 0 3; pt 0 6; pt 0 10]
    /\ total_distance r = Fin 10.
Proof. eexists. vm_compute. split_all; reflexivity. Qed.

(** The heuristic branch on thirteen waypoints, two start candidates and
    one end candidate: a route of fifteen points. *)
Example plan_route_thirteen :
  exists r g',
    plan_route (calc_of taxicab) exact_add exp_one 50
      {| config := AlgorithmConfig_init (995 # 1000) 10000 40;
         dist_calc := DistanceCalculator_init true |}
      0 0 [pt 0 0; pt 5 5] line13 [pt 1 1]
      [3; 1; 4; 1; 5; 9; 2; 6; 5; 3; 5; 8; 9; 7; 9; 3; 2; 3; 8; 4; 6]%N
    = Ok (r, g')
    /\ length (path r) = 15
    /\ total_distance r = Fin 298.
Proof. eexists _, _. vm_compute. split_all; reflexivity. Qed.

(** A distance that is [nan], as the haversine formula gives for a point
    with a [nan] coordinate.  The coordinates of the model are rationals,
    so [pt 9 9] stands for such a point here, with a [calculate] that
    returns [nan] from it and to it.  No comparison with [nan] holds:
    the greedy construction repeats an index, the exhaustive search keeps
    the identity order with its distance [nan], and no route of
    [plan_route] is below [float('inf')], so that the path stays
    empty. *)
Example construct_greedy_path_nan :
  construct_greedy_path (calc_nan_at (pt 9 9))
                        [pt 0 0; pt 9 9; pt 0 1] [0]%N
  = Ok ([0; 2; 2], [])
  /\ ~ is_order 3 [0; 2; 2].
Proof.
  split; [reflexivity|]. intro H.
  assert (Hin : In 1 [0; 2; 2])
    by (apply (Permutation_in _ H); simpl; auto).
  simpl in Hin. lia.
Qed.

Example solve_exact_internal_nan :
  solve_exact_internal (calc_nan_at (pt 9 9)) exact_add exp_one planner
                       [pt 0 0; pt 9 9] []
  = Ok ([0; 1], [])
  /\ order_distance (calc_nan_at (pt 9 9)) exact_add
                    [pt 0 0; pt 9 9] [0; 1] = Ok NaN
  /\ ~ le_dist NaN NaN.
Proof.
  split; [reflexivity|]. split; [reflexivity|].
  intros [H|H]; [discriminate H|exact H].
Qed.

Example plan_route_nan :
  plan_route (calc_nan_at (pt 9 9)) exact_add exp_one 0 planner 0 0
             [pt 0 0] [pt 9 9] [pt 0 1] []
  = Ok ({| path := []; total_distance := Inf; execution_time_ms := 0%Q;
           start_index := 0; end_index := 0 |}, [])
  /\ plan_route (calc_nan_at (pt 9 9)) exact_add exp_one 0 planner 0 0
                [pt 0 0] [] [pt 9 9] []
     = Ok ({| path := []; total_distance := Inf; execution_time_ms := 0%Q;
              start_index := 0; end_index := 0 |}, []).
Proof. split; reflexivity. Qed.

(** A straight-distance request with the waypoints (0, 8) and (180, -8),
    between which the distance cannot be computed: the endpoint answers
    with status 500. *)
Example plan_route_endpoint_distance_error :
  plan_route_endpoint
    (calc_domain_error (pt 0 8) (pt 180 (-8))) exact_add exp_one
    0 toy_seeded [7]%N 0 0 driving_stub
    (request_for "straight_distance" (Some [(0, 8); (180, -8)]%Q)) []
  = Raises (HTTPException 500).
Proof. reflexivity. Qed.

(** ** Witnesses *)




Lemma plan_route_empty_candidates_witness :
  (@nil Coordinate = [] \/ [pt 0 5] = [])
  /\ plan_route (calc_of taxicab) exact_add exp_one 0 planner 0 0
                [] line3 [pt 0 5] [4; 2]%N
     = Ok ({| path := []; total_distance := Inf;
              execution_time_ms := ((0 - 0) * 1000)%Q;
              start_index := 0; end_index := 0 |}, [4; 2]%N).
Proof.
  assert (H : @nil Coordinate = [] \/ [pt 0 5] = []) by (left; reflexivity).
  split; [exact H|].
  exact (plan_route_empty_candidates (calc_of taxicab) exact_add exp_one
                                     0 planner 0 0
                                     [] line3 [pt 0 5] [4; 2]%N H).
Defined.




Lemma sa_metropolis_rule_witness :
  (sa_iteration (calc_of taxicab) exact_add exp_one line3 3 (995 # 1000)
                (line3_start 10000) [0; 1; 5]%N
   = Ok (({| current_path := [0; 2; 1]; current_dist := Fin 3;
             best_path := [0; 1; 2]; best_dist := Fin 3;
             temp := (10000 * (995 # 1000))%Q |}, Next), [])
   /\ Next <> Continue)
  /\ exists moved new_dist g2,
       sa_move (calc_of taxicab) exact_add line3 3 (line3_start 10000)
               [0; 1; 5]%N moved new_dist g2.
Proof.
  assert (H1 : sa_iteration (calc_of taxicab) exact_add exp_one
                            line3 3 (995 # 1000)
                            (line3_start 10000) [0; 1; 5]%N
               = Ok (({| current_path := [0; 2; 1]; current_dist := Fin 3;
                         best_path := [0; 1; 2]; best_dist := Fin 3;
                         temp := (10000 * (995 # 1000))%Q |}, Next), []))
    by (vm_compute; reflexivity).
  assert (H2 : Next <> Continue) by discriminate.
  split; [split; assumption|].
  destruct (sa_metropolis_rule (calc_of taxicab) exact_add exp_one
              line3 3 (995 # 1000) _ _ _ _ _ H1 H2)
    as (moved & new_dist & g2 & Hmove & _).
  exists moved, new_dist, g2. exact Hmove.
Defined.

Lemma sa_replay_after_seeding_witness :
  (measured (calc_of taxicab) line3 taxicab /\ 2 <= length line3)
  /\ exists p g',
       seeded_session (calc_of taxicab) exact_add exp_one toy_seeded
                      [0]%N AlgorithmConfig_default 42 line3 [5]%N
       = Ok (p, g')
       /\ seeded_session (calc_of taxicab) exact_add exp_one toy_seeded
                         [1]%N AlgorithmConfig_default 42 line3 []
          = Ok (p, g')
       /\ is_order 3 p.
Proof.
  assert (H1 : measured (calc_of taxicab) line3 taxicab)
    by (intros a b _ _; reflexivity).
  assert (H2 : 2 <= length line3) by (simpl; lia).
  split; [split; assumption|].
  destruct (proj2 (proj2
              (sa_replay_after_seeding (calc_of taxicab) exact_add exp_one
                 taxicab toy_seeded AlgorithmConfig_default 42 line3
                 [0]%N [1]%N [5]%N [])) H1 H2)
    as (p & g' & g0 & Hrun1 & Hrun2 & Hp & _).
  exists p, g'. split_all; assumption.
Defined.

Lemma plan_route_ignores_use_cache_witness :
  (cooling_rate (config planner) = cooling_rate (config uncached_planner)
   /\ initial_temperature (config planner)
      = initial_temperature (config uncached_planner)
   /\ max_iterations (config planner)
      = max_iterations (config uncached_planner)
   /\ enable_local_search (config planner)
      = enable_local_search (config uncached_planner))
  /\ use_cache (config planner) <> use_cache (config uncached_planner)
  /\ plan_route (calc_of taxicab) exact_add exp_one 6 planner 0 0
                [pt 0 0; pt 0 9] line3 [pt 0 4] [1; 2]%N
     = plan_route (calc_of taxicab) exact_add exp_one 6 uncached_planner 0 0
                  [pt 0 0; pt 0 9] line3 [pt 0 4] [1; 2]%N.
Proof.
  split; [split_all; reflexivity|]. split; [discriminate|].
  apply (plan_route_ignores_use_cache (calc_of taxicab) exact_add exp_one
                                      6 planner uncached_planner);
    reflexivity.
Defined.

(** ** Counterexamples *)






(** C4 as stated fails: with no start candidate the call returns a
    result, the initial values, instead of raising. *)
Lemma plan_route_empty_starts_returns :
  plan_route (calc_of taxicab) exact_add exp_one 0 planner 0 0
             [] line3 [pt 0 5] []
  = Ok ({| path := []; total_distance := Inf; execution_time_ms := 0%Q;
           start_index := 0; end_index := 0 |}, [])
  /\ plan_route (calc_of taxicab) exact_add exp_one 0 planner 0 0
                [pt 0 5] line3 [] []
     = Ok ({| path := []; total_distance := Inf; execution_time_ms := 0%Q;
              start_index := 0; end_index := 0 |}, []).
Proof. split; reflexivity. Qed.


(** C8 as stated fails: at a temperature of 1e-10 a move whose distance
    delta is zero is rejected; the pass ends with the order it started
    with, not with the reversed one. *)
Lemma sa_zero_delta_rejected_when_cold :
  sa_init (calc_of taxicab) exact_add cold_planner line3 [0; 0; 1]%N
  = Ok (line3_start (1 # 10000000000), [0; 1]%N)
  /\ sa_move (calc_of taxicab) exact_add
             line3 3 (line3_start (1 # 10000000000)) [0; 1]%N
             [0; 2; 1] (Fin 3) []
  /\ dist_sub (Fin 3) (current_dist (line3_start (1 # 10000000000)))
     = Fin (3 - 3)
  /\ (3 - 3 <= 0)%Q
  /\ sa_iteration (calc_of taxicab) exact_add exp_one line3 3
                  (cooling_rate (config cold_planner))
                  (line3_start (1 # 10000000000)) [0; 1]%N
     = Ok ((line3_start ((1 # 10000000000) * (995 # 1000)), Break), [])
  /\ current_path (line3_start ((1 # 10000000000) * (995 # 1000)))
     <> [0; 2; 1].
Proof.
  split; [reflexivity|]. split; [|split; [|split; [|split]]].
  - exists 1%Z, 2%Z, [1%N]. split_all; try reflexivity. discriminate.
  - reflexivity.
  - vm_compute. discriminate.
  - reflexivity.
  - discriminate.
Qed.

(** C9 as stated fails: two sessions that call [random.seed(42)] and then
    build the planner draw from what the constructor's reseeding gives
    them, and return different orders. *)
Lemma sessions_with_one_seed_differ :
  session_seeded_first (calc_of taxicab) exact_add exp_one toy_seeded [0]%N
                       AlgorithmConfig_default 42 line3 []
  = Ok ([0; 1; 2], [])
  /\ session_seeded_first (calc_of taxicab) exact_add exp_one toy_seeded
                          [1]%N AlgorithmConfig_default 42 line3 []
     = Ok ([1; 0; 2], []).
Proof. split; vm_compute; reflexivity. Qed.

(** ** Witnesses of the further properties *)

Lemma two_opt_swap_involution_witness :
  (1 <= 4 /\ 4 < length [0; 1; 2; 3; 4; 5])
  /\ exists q,
       two_opt_swap [0; 1; 2; 3; 4; 5] 1 4 = Ok q
       /\ two_opt_swap q 1 4 = Ok [0; 1; 2; 3; 4; 5].
Proof.
  assert (H1 : 1 <= 4) by lia.
  assert (H2 : 4 < length [0; 1; 2; 3; 4; 5]) by (simpl; lia).
  split; [split; assumption|].
  destruct (two_opt_swap_involution [0; 1; 2; 3; 4; 5] 1 4 H1 H2)
    as (q & Hrun & _ & _ & Hback).
  exists q. split; assumption.
Defined.

Lemma calculate_path_distance_monotone_witness :
  exists d1 d2,
    calculate_path_distance (calc_of taxicab) exact_add [pt 0 0; pt 0 3]
    = Ok d1
    /\ calculate_path_distance (calc_of taxicab) exact_add
                               ([pt 0 0; pt 0 3] ++ [pt 0 1]) = Ok d2
    /\ le_dist d1 d2.
Proof.
  destruct (calculate_path_distance_monotone
              (calc_of taxicab) exact_add [pt 0 0; pt 0 3] [pt 0 1]
              (calc_of_taxicab_nonneg ([pt 0 0; pt 0 3] ++ [pt 0 1]))
              exact_add_grows)
    as (d1 & d2 & H1 & H2 & _ & Hle).
  exists d1, d2. split_all; assumption.
Defined.

Lemma two_opt_optimize_idempotent_witness :
  (gauged (calc_of taxicab) line3 (number taxicab)
   /\ is_order (length line3) [1; 0; 2] /\ fact (length [1; 0; 2]) <= 6
   /\ 1 <= 1)
  /\ exists q,
       two_opt_optimize (calc_of taxicab) exact_add 6 planner line3
                        [1; 0; 2] = Ok q
       /\ two_opt_optimize (calc_of taxicab) exact_add 1 planner line3 q
          = Ok q.
Proof.
  assert (H0 : gauged (calc_of taxicab) line3 (number taxicab))
    by (intros a b _ _; reflexivity).
  assert (H1 : is_order (length line3) [1; 0; 2]) by apply perm_swap.
  assert (H2 : fact (length [1; 0; 2]) <= 6) by (simpl; lia).
  assert (H3 : 1 <= 1) by lia.
  split; [split_all; assumption|].
  exact (two_opt_optimize_idempotent (calc_of taxicab) exact_add
           (number taxicab) planner line3 [1; 0; 2] 6 1 H0 H1 H2 H3).
Defined.

Lemma get_distance_sticks_witness :
  (dc_use_cache (DistanceCalculator_init true) = true
   /\ get_distance (calc_of taxicab) (DistanceCalculator_init true)
                   line3 2 1
      = Ok (Fin 2, {| distance_cache := [((1, 2), Fin 2)];
                      dc_use_cache := true |}))
  /\ get_distance (calc_of taxicab)
                  {| distance_cache := [((1, 2), Fin 2)];
                     dc_use_cache := true |}
                  line13 1 2
     = Ok (Fin 2, {| distance_cache := [((1, 2), Fin 2)];
                     dc_use_cache := true |}).
Proof.
  assert (H1 : dc_use_cache (DistanceCalculator_init true) = true)
    by reflexivity.
  assert (H2 : get_distance (calc_of taxicab) (DistanceCalculator_init true)
                            line3 2 1
               = Ok (Fin 2, {| distance_cache := [((1, 2), Fin 2)];
                               dc_use_cache := true |}))
    by reflexivity.
  split; [split; assumption|].
  exact (proj2 (get_distance_sticks (calc_of taxicab) _ _ line3 2 1 (Fin 2)
                                    H1 H2 line13)).
Defined.

Lemma get_distance_consistent_witness :
  (measured (calc_of taxicab) line3 taxicab
   /\ (forall x y, taxicab x y == taxicab y x)%Q
   /\ cache_consistent taxicab line3 (DistanceCalculator_init true)
   /\ 2 < length line3 /\ 1 < length line3)
  /\ exists d dc',
       get_distance (calc_of taxicab) (DistanceCalculator_init true)
                    line3 2 1
       = Ok (d, dc')
       /\ eq_dist d (Fin (leg taxicab line3 2 1))
       /\ cache_consistent taxicab line3 dc'.
Proof.
  assert (H0 : measured (calc_of taxicab) line3 taxicab)
    by (intros a b _ _; reflexivity).
  assert (H1 : cache_consistent taxicab line3 (DistanceCalculator_init true))
    by (intros a b d H; discriminate H).
  assert (H2 : 2 < length line3) by (simpl; lia).
  assert (H3 : 1 < length line3) by (simpl; lia).
  split; [split_all; [exact H0|exact taxicab_sym|exact H1|exact H2|exact H3]|].
  destruct (get_distance_consistent (calc_of taxicab) taxicab
              (DistanceCalculator_init true)
              line3 2 1 H0 taxicab_sym H1 H2 H3)
    as (_ & d & dc' & Hrun & Hd & Hcons & _).
  exists d, dc'. split_all; assumption.
Defined.

Lemma simulated_annealing_not_worse_than_greedy_witness :
  (measured (calc_of taxicab) line3 taxicab /\ 2 <= length line3)
  /\ exists p0 p g',
       simulated_annealing (calc_of taxicab) exact_add exp_one
                           planner line3 [1; 2; 1]%N
       = Ok (p, g')
       /\ at_most (route_length exact_add (number taxicab)
                                (points_of line3 p))
                  (route_length exact_add (number taxicab)
                                (points_of line3 p0)).
Proof.
  assert (H0 : measured (calc_of taxicab) line3 taxicab)
    by (intros a b _ _; reflexivity).
  assert (H : 2 <= length line3) by (simpl; lia).
  split; [split; assumption|].
  destruct (simulated_annealing_not_worse_than_greedy
              (calc_of taxicab) exact_add exp_one taxicab planner line3
              [1; 2; 1]%N H0 H)
    as (p0 & g0 & p & g' & _ & Hrun & _ & _ & _ & Hle).
  exists p0, p, g'. split; assumption.
Defined.

Lemma plan_route_result_coherent_witness :
  ([pt 0 0; pt 5 5] <> [] /\ [pt 1 1] <> []
   /\ (12 < length line13 -> fact (length line13) <= fact 13)
   /\ measured (calc_of taxicab) ([pt 0 0; pt 5 5] ++ line13 ++ [pt 1 1])
               taxicab
   /\ routes_bounded exact_add taxicab [pt 0 0; pt 5 5] line13 [pt 1 1])
  /\ exists r g',
       plan_route (calc_of taxicab) exact_add exp_one (fact 13) planner 0 0
                  [pt 0 0; pt 5 5] line13 [pt 1 1] [3; 1; 4]%N
       = Ok (r, g')
       /\ calculate_path_distance (calc_of taxicab) exact_add (path r)
          = Ok (total_distance r).
Proof.
  assert (H1 : [pt 0 0; pt 5 5] <> []) by discriminate.
  assert (H2 : [pt 1 1] <> []) by discriminate.
  assert (H3 : 12 < length line13 -> fact (length line13) <= fact 13)
    by (intros _; apply le_n).
  assert (H4 : measured (calc_of taxicab)
                        ([pt 0 0; pt 5 5] ++ line13 ++ [pt 1 1]) taxicab)
    by (intros a b _ _; reflexivity).
  assert (H5 := exact_add_routes_bounded
                  taxicab [pt 0 0; pt 5 5] line13 [pt 1 1]).
  split; [split_all; assumption|].
  destruct (plan_route_result_coherent (calc_of taxicab) exact_add exp_one
              taxicab (fact 13)
              planner 0 0 [pt 0 0; pt 5 5] line13 [pt 1 1] [3; 1; 4]%N
              H1 H2 H3 H4 H5)
    as (r & g' & Hrun & _ & _ & _ & _ & Hdist & _).
  exists r, g'. split; assumption.
Defined.

Lemma plan_route_exact_first_minimum_witness :
  ([pt 0 0; pt 0 9] <> [] /\ [pt 0 4; pt 0 7] <> [] /\ length line3 <= 12
   /\ measured (calc_of taxicab)
               ([pt 0 0; pt 0 9] ++ line3 ++ [pt 0 4; pt 0 7]) taxicab
   /\ routes_bounded exact_add taxicab
                     [pt 0 0; pt 0 9] line3 [pt 0 4; pt 0 7])
  /\ exists o r,
       solve_exact_internal (calc_of taxicab) exact_add exp_one
                            planner line3 [5]%N
       = Ok (o, [5]%N)
       /\ plan_route (calc_of taxicab) exact_add exp_one 0 planner 0 0
                     [pt 0 0; pt 0 9] line3 [pt 0 4; pt 0 7] [5]%N
          = Ok (r, [5]%N).
Proof.
  assert (H1 : [pt 0 0; pt 0 9] <> []) by discriminate.
  assert (H2 : [pt 0 4; pt 0 7] <> []) by discriminate.
  assert (H3 : length line3 <= 12) by (simpl; lia).
  assert (H4 : measured (calc_of taxicab)
                        ([pt 0 0; pt 0 9] ++ line3 ++ [pt 0 4; pt 0 7])
                        taxicab)
    by (intros a b _ _; reflexivity).
  assert (H5 := exact_add_routes_bounded
                  taxicab [pt 0 0; pt 0 9] line3 [pt 0 4; pt 0 7]).
  split; [split_all; assumption|].
  destruct (plan_route_exact_first_minimum
              (calc_of taxicab) exact_add exp_one taxicab 0 planner 0 0
              [pt 0 0; pt 0 9] line3 [pt 0 4; pt 0 7] [5]%N H1 H2 H3 H4 H5)
    as (o & r & Hexact & Hrun & _).
  exists o, r. split; assumption.
Defined.

Lemma two_opt_optimize_keeps_first_witness :
  (gauged (calc_of taxicab) line3 (number taxicab)
   /\ is_order (length line3) [1; 0; 2] /\ fact (length [1; 0; 2]) <= 6)
  /\ exists q,
       two_opt_optimize (calc_of taxicab) exact_add 6 planner line3
                        [1; 0; 2] = Ok q
       /\ nth 0 q 0 = nth 0 [1; 0; 2] 0.
Proof.
  assert (H0 : gauged (calc_of taxicab) line3 (number taxicab))
    by (intros a b _ _; reflexivity).
  assert (H1 : is_order (length line3) [1; 0; 2]) by apply perm_swap.
  assert (H2 : fact (length [1; 0; 2]) <= 6) by (simpl; lia).
  split; [split_all; assumption|].
  exact (two_opt_optimize_keeps_first (calc_of taxicab) exact_add
           (number taxicab) planner line3 [1; 0; 2] 6 H0 H1 H2).
Defined.

Lemma simulated_annealing_keeps_start_witness :
  (measured (calc_of taxicab) line3 taxicab /\ 2 <= length line3)
  /\ exists p g' g0,
       simulated_annealing (calc_of taxicab) exact_add exp_one
                           planner line3 [1; 2; 1]%N
       = Ok (p, g')
       /\ is_order (length line3) p
       /\ randint 0 (Z.of_nat (length line3) - 1) [1; 2; 1]%N
          = Ok (Z.of_nat (nth 0 p 0), g0).
Proof.
  assert (H0 : measured (calc_of taxicab) line3 taxicab)
    by (intros a b _ _; reflexivity).
  assert (H : 2 <= length line3) by (simpl; lia).
  split; [split; assumption|].
  exact (simulated_annealing_keeps_start
           (calc_of taxicab) exact_add exp_one taxicab planner line3
           [1; 2; 1]%N H0 H).
Defined.

Lemma straight_route_waypoints_order_witness :
  exists resp g' order,
    get_straight_route_result
      (calc_of taxicab) exact_add exp_one 0 toy_seeded [7]%N 0 0
      (request_for "straight_distance" (Some [(0, 6); (0, 3)]%Q)) []
    = Ok (resp, g')
    /\ rs_waypoints_order resp = Some order.
Proof.
  destruct (straight_route_waypoints_order
              (calc_of taxicab) exact_add exp_one taxicab
              0 toy_seeded [7]%N 0 0
              (request_for "straight_distance" (Some [(0, 6); (0, 3)]%Q)) [])
    as (resp & g' & order & Hrun & _ & _ & _ & _ & Hwo).
  - apply sample_request_measured.
  - simpl. lia.
  - simpl. intros i j Hij [_ Hlat].
    assert (i = 0 /\ j = 1) as [-> ->] by lia.
    simpl in Hlat. discriminate Hlat.
  - exists resp, g', order. split; assumption.
Defined.

Lemma straight_route_duplicate_waypoints_witness :
  exists resp g' o,
    get_straight_route_result
      (calc_of taxicab) exact_add exp_one 0 toy_seeded [7]%N 0 0
      (request_for "straight_distance" (Some [(0, 3); (0, 3)]%Q)) []
    = Ok (resp, g')
    /\ rs_waypoints_order resp = Some o
    /\ ~ In 0 o.
Proof.
  destruct (straight_route_duplicate_waypoints
              (calc_of taxicab) exact_add exp_one taxicab
              0 toy_seeded [7]%N 0 0
              (request_for "straight_distance" (Some [(0, 3); (0, 3)]%Q))
              [] 0 1)
    as (resp & g' & o & Hrun & Hwo & _ & Hnot & _).
  - apply sample_request_measured.
  - simpl. lia.
  - simpl. lia.
  - split; reflexivity.
  - exists resp, g', o. split_all; assumption.
Defined.

Lemma plan_route_endpoint_straight_witness :
  exists resp g',
    plan_route_endpoint
      (calc_of taxicab) exact_add exp_one 0 toy_seeded [7]%N 0 0
      driving_stub
      (request_for "straight_distance" (Some [(0, 6); (0, 3)]%Q)) []
    = Returns (resp, g').
Proof.
  destruct (plan_route_endpoint_straight
              (calc_of taxicab) exact_add exp_one taxicab
              0 toy_seeded [7]%N 0 0 driving_stub
              (request_for "straight_distance" (Some [(0, 6); (0, 3)]%Q)) []
              eq_refl)
    as [Hreturns _].
  destruct Hreturns as (resp & g' & _ & Hrun).
  - apply sample_request_measured.
  - simpl. lia.
  - exists resp, g'. exact Hrun.
Defined.

Lemma plan_route_endpoint_status_500_witness :
  turned_down (request_for "driving_time" None) = true
  /\ plan_route_endpoint
       (calc_of taxicab) exact_add exp_one 0 toy_seeded [7]%N 0 0
       driving_stub (request_for "driving_time" None) []
     = Raises (HTTPException 500).
Proof.
  assert (H : turned_down (request_for "driving_time" None) = true)
    by reflexivity.
  split; [exact H|].
  exact (proj1 (plan_route_endpoint_status_500
                  (calc_of taxicab) exact_add exp_one
                  0 toy_seeded [7]%N 0 0 driving_stub
                  (request_for "driving_time" None) [] H)).
Defined.
